(** * coalib.core.Core: the dependency-aware bear scheduler

    A shallow embedding of [src/coalib/core/Core.py] and the properties of
    its scheduler.  The Python code mutates a handful of shared objects (the
    [running_tasks] dictionary, the dependency tracker, the event loop, the
    executor) from callbacks that the event loop runs one at a time; the
    embedding threads one [State] record through the functions and records
    every call to a collaborator in a chronological [trace]. *)

From stdpp Require Import gmap strings list fin_maps pretty.

Set Default Proof Using "Type".
#[local] Set Warnings "-clear-no-such-hyp".

(** ** Identities

    Bears are Python objects used as dictionary keys, tasks are the futures
    returned by [event_loop.run_in_executor]; both are compared by identity
    only, so they are modelled by numbers. *)

Abbreviation bear := nat (only parsing).
Abbreviation task := nat (only parsing).

(** The exceptions that can travel through the scheduler. *)
Inductive exn : Type :=
| TaskError (msg : string)   (* raised by [task.result()]: the fault of [analyze] *)
| KeyError                   (* dictionary subscript / [set.remove] of a missing item *)
| ProtocolViolation.         (* raised by the dependency tracker *)

Inductive level : Type := DEBUG | WARNING.

(** What [task.result()] does once the task is done. *)
Inductive completion (Result : Type) : Type :=
| Produced (results : list Result)
| Raises (msg : string).
Arguments Produced {Result} results.
Arguments Raises {Result} msg.

(** The duck-typed bear interface used by [Core.py]: [bear.name],
    [bear.generate_tasks()] and [bear.analyze], plus the declared
    dependencies read by the dependency tracker. *)
Class Bears (Args Result : Type) : Type := {
  name : bear → string;
  dependencies : bear → list bear;
  generate_tasks : bear → list Args;
  analyze : bear → Args → completion Result
}.

(** ** get_cpu_count *)

(** [multiprocessing.cpu_count()] either returns a number or raises
    [NotImplementedError]; the latter is [None]. *)
Definition get_cpu_count (cpu_count : option nat) : nat :=
  match cpu_count with
  | Some n => n
  | None => 1
  end.

(** ** The dependency tracker *)

Module DependencyTracker.

(** Modelled from the spec: [coalib/core/DependencyTracker.py] is imported by
    [Core.py] but is not among the sources.  The record follows the data
    model of the specification: [dependency_dict] maps a bear to the set of
    its unresolved dependencies; [registered] and [resolved] are what the
    fail-fast checks of [resolve] need. *)
Record t : Type := mk {
  dependency_dict : gmap bear (gset bear);
  registered : gset bear;
  resolved : gset bear
}.

(** Modelled from the spec: a fresh [DependencyTracker()]. *)
Definition empty : t :=
  {| dependency_dict := ∅; registered := ∅; resolved := ∅ |}.

(** Modelled from the spec: record one edge, [dependant] waits for
    [dependency]. *)
Definition add (dependency dependant : bear) (dt : t) : t :=
  {| dependency_dict :=
       <[dependant := {[dependency]} ∪ default ∅ (dependency_dict dt !! dependant)]>
         (dependency_dict dt);
     registered := registered dt;
     resolved := resolved dt |}.

(** Modelled from the spec: a bear of the input set is made known to the
    tracker. *)
Definition register (b : bear) (dt : t) : t :=
  {| dependency_dict := dependency_dict dt;
     registered := {[b]} ∪ registered dt;
     resolved := resolved dt |}.

(** Modelled from the spec: the edges of one bear, "an edge to each of its
    declared dependencies that is also present in the input set". *)
Definition add_dependencies_of (deps : bear → list bear) (bears : list bear)
    (dt : t) (b : bear) : t :=
  foldl (λ dt d, if decide (d ∈ bears) then add d b dt else dt)
        (register b dt) (deps b).

(** Modelled from the spec: [add_bear_dependencies(bears)] is missing from
    the sources.  "For every bear in the input set, record an edge to each of
    its declared dependencies that is also present in the input set."  No
    cycle detection is performed (a stated non-goal). *)
Definition add_bear_dependencies (deps : bear → list bear) (bears : list bear)
    (dt : t) : t :=
  foldl (add_dependencies_of deps bears) dt bears.

(** Modelled from the spec: the declared dependencies of a bear "that are
    also present in the input set". *)
Definition declared_within (deps : bear → list bear) (bears : list bear)
    (b : bear) : gset bear :=
  list_to_set (filter (λ d, d ∈ bears) (deps b)).

(** Modelled from the spec: the bears that [resolve(b)] returns, "any bear
    whose set thereby becomes empty": every other bear that lists [b] and has
    nothing else left to wait for. *)
Definition newly_ready (b : bear) (dict : gmap bear (gset bear)) : gset bear :=
  dom (filter (λ xs, xs.1 ≠ b ∧ b ∈ xs.2 ∧ xs.2 ∖ {[b]} = ∅) dict).

(** Modelled from the spec: the graph after [resolve(b)].  [b] is removed
    from the set of every other bear that lists it; a set that thereby
    becomes empty is dropped with its key, so that the bear is no longer
    [in dependency_dict]. *)
Definition without (b : bear) (dict : gmap bear (gset bear))
    : gmap bear (gset bear) :=
  map_imap (λ x s,
              if decide (x ≠ b ∧ b ∈ s)
              then if decide (s ∖ {[b]} = ∅) then None else Some (s ∖ {[b]})
              else Some s) dict.

(** Modelled from the spec: [resolve(bear)] is missing from the sources.
    "Marks bear as finished.  For every other bear that lists bear as an
    unresolved dependency, removes it; any bear whose set thereby becomes
    empty is returned as newly ready."  Resolving a bear that was never
    registered, or resolving twice, fails fast.  The entry of a newly ready
    bear is removed: [schedule_bears] holds back every bear that is a key of
    [dependency_dict]. *)
Definition resolve (b : bear) (dt : t) : exn + (list bear * t) :=
  if decide (b ∈ registered dt ∧ b ∉ resolved dt) then
    inr (elements (newly_ready b (dependency_dict dt)),
         {| dependency_dict := without b (dependency_dict dt);
            registered := registered dt;
            resolved := {[b]} ∪ resolved dt |})
  else inl ProtocolViolation.

End DependencyTracker.

(** ** Scheduler state and effects *)

(** Calls made to the collaborators, in the order they happen.  The event
    loop and the executor offer [stop]/[close] and [submit]/[shutdown]. *)
Inductive event (Args Result : Type) : Type :=
| RunInExecutor (b : bear) (t : task) (a : Args)
    (* [event_loop.run_in_executor(executor, bear.analyze, ...)] returned [t] *)
| ResultCallback (r : Result)          (* [result_callback(result)] *)
| Resolve (b : bear)                   (* [dependency_tracker.resolve(bear)] *)
| Log (lvl : level) (msg : string)     (* [logging.debug] / [logging.warning] *)
| LoopStop                             (* [event_loop.stop()] *)
| LoopClose                            (* [event_loop.close()] *)
| ExecutorCreate (max_workers : nat)   (* [ProcessPoolExecutor(max_workers=...)] *)
| ExecutorShutdown                     (* [executor.shutdown()] *)
| CallbackException (e : exn).         (* an exception left a done-callback *)
Arguments RunInExecutor {Args Result} b t a.
Arguments ResultCallback {Args Result} r.
Arguments Resolve {Args Result} b.
Arguments Log {Args Result} lvl msg.
Arguments LoopStop {Args Result}.
Arguments LoopClose {Args Result}.
Arguments ExecutorCreate {Args Result} max_workers.
Arguments ExecutorShutdown {Args Result}.
Arguments CallbackException {Args Result} e.

Record State (Args Result : Type) : Type := mkState {
  running_tasks : gmap bear (gset task);
      (* the [running_tasks] dictionary *)
  dependency_tracker : DependencyTracker.t;
  futures : gmap task (bear * Args);
      (* the work every handle stands for *)
  callbacks : gmap task bear;
      (* done-callbacks not yet run: [partial(finish_task, bear, ...)] *)
  next_task : task;
      (* the next fresh handle *)
  stopping : bool;
      (* [event_loop.stop()] was called *)
  trace : list (event Args Result)
}.
Arguments mkState {Args Result}.
Arguments running_tasks {Args Result} s.
Arguments dependency_tracker {Args Result} s.
Arguments futures {Args Result} s.
Arguments callbacks {Args Result} s.
Arguments next_task {Args Result} s.
Arguments stopping {Args Result} s.
Arguments trace {Args Result} s.

Section Scheduler.
Context {Args Result : Type} `{B : Bears Args Result}.

Abbreviation State := (State Args Result).
Abbreviation event := (event Args Result).

Definition emit (e : event) (st : State) : State :=
  mkState (running_tasks st) (dependency_tracker st) (futures st)
          (callbacks st) (next_task st) (stopping st) (trace st ++ [e]).

Definition set_running_tasks (rt : gmap bear (gset task)) (st : State) : State :=
  mkState rt (dependency_tracker st) (futures st)
          (callbacks st) (next_task st) (stopping st) (trace st).

Definition set_dependency_tracker (dt : DependencyTracker.t) (st : State) : State :=
  mkState (running_tasks st) dt (futures st)
          (callbacks st) (next_task st) (stopping st) (trace st).

(** [bear in dependency_tracker.dependency_dict] *)
Definition in_dependency_dict (b : bear) (st : State) : Prop :=
  b ∈ dom (DependencyTracker.dependency_dict (dependency_tracker st)).

#[global] Instance in_dependency_dict_dec b st : Decision (in_dependency_dict b st).
Proof. unfold in_dependency_dict. apply _. Defined.

(** [event_loop.run_in_executor(executor, bear.analyze, *bear_args,
    *bear_kwargs)]: hands the work to the pool and returns a fresh handle. *)
Definition run_in_executor (b : bear) (a : Args) (st : State) : task * State :=
  let t := next_task st in
  (t, mkState (running_tasks st) (dependency_tracker st)
              (<[t := (b, a)]> (futures st))
              (callbacks st) (S t) (stopping st)
              (trace st ++ [RunInExecutor b t a])).

(** The set comprehension of [schedule_bears]: one future per generated
    task, in the order [generate_tasks()] yields them. *)
Fixpoint submit_all (b : bear) (tasks : list Args) (st : State)
    : gset task * State :=
  match tasks with
  | [] => (∅, st)
  | a :: tasks' =>
      let '(t, st1) := run_in_executor b a st in
      let '(ts, st2) := submit_all b tasks' st1 in
      ({[t]} ∪ ts, st2)
  end.

(** [task.add_done_callback(functools.partial(finish_task, bear, ...))] for
    every task of the set. *)
Definition add_done_callbacks (b : bear) (ts : gset task) (st : State) : State :=
  mkState (running_tasks st) (dependency_tracker st) (futures st)
          (set_fold (λ t cbs, <[t := b]> cbs) (callbacks st) ts)
          (next_task st) (stopping st) (trace st).

Definition holding_back_message (b : bear) : string :=
  "Dependencies for '" +:+ name b +:+ "' not yet resolved. Holding back.".

Definition scheduled_message (b : bear) (n : nat) : string :=
  "Scheduled '" +:+ name b +:+ "' (tasks: " +:+ pretty n +:+ ").".

(** One iteration of the loop of [schedule_bears]. *)
Definition schedule_bear (st : State) (b : bear) : State :=
  if decide (in_dependency_dict b st) then
    emit (Log DEBUG (holding_back_message b)) st
  else
    let '(ts, st1) := submit_all b (generate_tasks b) st in
    let st2 := set_running_tasks (<[b := ts]> (running_tasks st1)) st1 in
    let st3 := add_done_callbacks b ts st2 in
    emit (Log DEBUG (scheduled_message b (size ts))) st3.

(** [schedule_bears(bears, result_callback, dependency_tracker, event_loop,
    running_tasks, executor)] *)
Definition schedule_bears (bears : list bear) (st : State) : State :=
  foldl schedule_bear st bears.

(** The state-and-exception monad of the completion handler: an exception
    keeps the mutations made before it was raised. *)
Definition M (A : Type) : Type := State → (exn + A) * State.

Definition ret {A} (a : A) : M A := λ st, (inr a, st).
Definition raise {A} (e : exn) : M A := λ st, (inl e, st).
Definition bind {A C} (m : M A) (k : A → M C) : M C :=
  λ st, match m st with
        | (inl e, st1) => (inl e, st1)
        | (inr a, st1) => k a st1
        end.
Definition get : M State := λ st, (inr st, st).
Definition modify (f : State → State) : M unit := λ st, (inr tt, f st).

Notation "'do' x <- m ; k" := (bind m (λ x, k))
  (at level 10, x name, m at level 100, k at level 200).

(** [task.result()] *)
Definition task_result (res : completion Result) : M (list Result) :=
  match res with
  | Produced rs => ret rs
  | Raises msg => raise (TaskError msg)
  end.

(** [for result in ...: result_callback(result)] *)
Fixpoint forward_results (rs : list Result) : M unit :=
  match rs with
  | [] => ret tt
  | r :: rs' => do _ <- modify (emit (ResultCallback r)) ; forward_results rs'
  end.

(** The result sequence of a task; none if [task.result()] raises. *)
Definition produced (res : completion Result) : list Result :=
  match res with
  | Produced rs => rs
  | Raises _ => []
  end.

(** The state once the whole result sequence went to the sink. *)
Definition delivered (rs : list Result) (st : State) : State :=
  mkState (running_tasks st) (dependency_tracker st) (futures st)
          (callbacks st) (next_task st) (stopping st)
          (trace st ++ (ResultCallback <$> rs)).

(** [running_tasks[bear]] *)
Definition running_tasks_of (b : bear) : M (gset task) :=
  do st <- get ;
  match running_tasks st !! b with
  | Some ts => ret ts
  | None => raise KeyError
  end.

(** [running_tasks[bear].remove(task)] *)
Definition remove_task (b : bear) (t : task) : M unit :=
  do ts <- running_tasks_of b ;
  if decide (t ∈ ts)
  then modify (λ st, set_running_tasks (<[b := ts ∖ {[t]}]> (running_tasks st)) st)
  else raise KeyError.

(** [dependency_tracker.resolve(bear)] *)
Definition resolve (b : bear) : M (list bear) :=
  do _ <- modify (emit (Resolve b)) ;
  do st <- get ;
  match DependencyTracker.resolve b (dependency_tracker st) with
  | inl e => raise e
  | inr (ready, dt) => do _ <- modify (set_dependency_tracker dt) ; ret ready
  end.

(** [del running_tasks[bear]] *)
Definition del_running_tasks (b : bear) : M unit :=
  do st <- get ;
  match running_tasks st !! b with
  | Some _ => modify (set_running_tasks (delete b (running_tasks st)))
  | None => raise KeyError
  end.

(** [event_loop.stop()] *)
Definition stop (st : State) : State :=
  mkState (running_tasks st) (dependency_tracker st) (futures st)
          (callbacks st) (next_task st) true (trace st ++ [LoopStop]).

(** [finish_task(bear, result_callback, dependency_tracker, running_tasks,
    event_loop, executor, task)]; the task object is its handle together with
    what [task.result()] does. *)
Definition finish_task (b : bear) (t : task) (res : completion Result) : M unit :=
  do rs <- task_result res ;
  do _ <- forward_results rs ;
  do _ <- remove_task b t ;
  do ts <- running_tasks_of b ;
  do _ <- (if decide (ts = ∅) then
             do resolved_bears <- resolve b ;
             do _ <- (if decide (resolved_bears = [])
                      then ret tt
                      else modify (schedule_bears resolved_bears)) ;
             del_running_tasks b
           else ret tt) ;
  do st <- get ;
  if decide (running_tasks st = ∅) then modify stop else ret tt.

(** ** The event loop *)

(** How [event_loop.run_forever()] ends for a given order of completions. *)
Inductive loop_outcome : Type :=
| Returned   (* [stop()] was called: [run_forever] returns *)
| Hung       (* not stopped and no done-callback is left to run: it never returns *)
| Waiting.   (* the given completions are used up, tasks are still in flight *)

(** What the loop does with a done-callback: it runs it; an exception that
    leaves the callback goes to the exception handler of the loop, which
    reports it, and the loop goes on (this is how [asyncio] runs its
    handles). *)
Definition run_callback (b : bear) (t : task) (res : completion Result)
    (st : State) : State :=
  match finish_task b t res st with
  | (inr _, st1) => st1
  | (inl e, st1) => emit (CallbackException e) st1
  end.

(** The loop takes the done-callback of a handle off its list before
    running it. *)
Definition take_callback (t : task) (st : State) : State :=
  mkState (running_tasks st) (dependency_tracker st) (futures st)
          (delete t (callbacks st)) (next_task st) (stopping st) (trace st).

(** [event_loop.run_forever()]: [completions] is the order in which the pool
    reports its handles done; the done-callbacks run one at a time, and the
    loop returns once [stop()] was called.  A handle without a pending
    done-callback has nothing to deliver. *)
Fixpoint run_forever (completions : list task) (st : State)
    : loop_outcome * State :=
  match completions with
  | [] => if decide (callbacks st = ∅) then (Hung, st) else (Waiting, st)
  | t :: completions' =>
      match callbacks st !! t, futures st !! t with
      | Some b, Some (b', a) =>
          let st2 := run_callback b t (analyze b' a) (take_callback t st) in
          if stopping st2 then (Returned, st2) else run_forever completions' st2
      | _, _ => run_forever completions' st
      end
  end.

(** The handles whose done-callbacks [run_forever] runs, in the order in
    which it runs them. *)
Fixpoint callbacks_run (completions : list task) (st : State) : list task :=
  match completions with
  | [] => []
  | t :: completions' =>
      match callbacks st !! t, futures st !! t with
      | Some b, Some (b', a) =>
          let st2 := run_callback b t (analyze b' a) (take_callback t st) in
          t :: (if stopping st2 then [] else callbacks_run completions' st2)
      | _, _ => callbacks_run completions' st
      end
  end.

(** ** run *)

Definition initial (dt : DependencyTracker.t) (max_workers : nat) : State :=
  mkState ∅ dt ∅ ∅ 0 false [ExecutorCreate max_workers].

(** [run(bears, result_callback)].  The result callback is the
    [ResultCallback] events of the trace; [cpu_count] is what
    [multiprocessing.cpu_count()] answers.  The [finally] clause runs when
    [run_forever] returns. *)
Definition run (cpu_count : option nat) (bears : list bear)
    (completions : list task) : loop_outcome * State :=
  let dt := DependencyTracker.add_bear_dependencies dependencies bears
              DependencyTracker.empty in
  let st := schedule_bears bears (initial dt (get_cpu_count cpu_count)) in
  match run_forever completions st with
  | (Returned, st1) => (Returned, emit LoopClose st1)
  | other => other
  end.

End Scheduler.

(** ** Observations on a trace *)

Section Observations.
Context {Args Result : Type}.

Abbreviation event := (event Args Result).

(** What the result sink has received, in order. *)
Definition sink (tr : list event) : list Result :=
  omap (λ e, match e with ResultCallback r => Some r | _ => None end) tr.

(** The bears whose tasks went to the pool, one entry per task. *)
Definition submissions (tr : list event) : list bear :=
  omap (λ e, match e with RunInExecutor b _ _ => Some b | _ => None end) tr.

(** The bears handed to [dependency_tracker.resolve], one entry per call. *)
Definition resolutions (tr : list event) : list bear :=
  omap (λ e, match e with Resolve b => Some b | _ => None end) tr.

(** How often [event_loop.stop()] was called. *)
Definition stops (tr : list event) : nat :=
  length (omap (λ e, match e with LoopStop => Some e | _ => None end) tr).

(** How often a bear occurs in a list of bears. *)
Definition times (b : bear) (l : list bear) : nat :=
  length (filter (λ x, x = b) l).

(** An event that only delivers a result to the sink. *)
Definition is_result (e : event) : Prop :=
  match e with ResultCallback _ => True | _ => False end.

(** The events [schedule_bears] causes: submissions and log records. *)
Definition is_scheduling (e : event) : Prop :=
  match e with RunInExecutor _ _ _ | Log _ _ => True | _ => False end.

(** The pool was released. *)
Definition pool_released (tr : list event) : Prop := ExecutorShutdown ∈ tr.

(** Submissions and resolutions in the order they happen: [inl b] for a
    task of [b] handed to the pool, [inr b] for [resolve(b)]. *)
Definition scheduling_order (tr : list event) : list (bear + bear) :=
  omap (λ e, match e with
             | RunInExecutor b _ _ => Some (inl b)
             | Resolve b => Some (inr b)
             | _ => None
             end) tr.

(** An event that [Core.py] can cause: everything but a shutdown of the
    executor, which no function of the module calls. *)
Definition not_shutdown (e : event) : Prop :=
  match e with ExecutorShutdown => False | _ => True end.

(** Every task that reaches the pool belongs to a bear whose declared
    dependencies within [bears] were all handed to
    [dependency_tracker.resolve] earlier. *)
Definition submitted_after_dependencies (deps : bear → list bear)
    (bears : list bear) (tr : list event) : Prop :=
  ∀ pre b t a post, tr = pre ++ RunInExecutor b t a :: post →
    ∀ d, d ∈ deps b → d ∈ bears → Resolve d ∈ pre.

(** The submissions and the log records in the order they happen:
    [inl (b, a)] for a call of [run_in_executor] with the work [a] of the
    bear [b], [inr (lvl, msg)] for a log record. *)
Definition scheduling_records (tr : list event)
    : list (bear * Args + level * string) :=
  omap (λ e, match e with
             | RunInExecutor b _ a => Some (inl (b, a))
             | Log lvl msg => Some (inr (lvl, msg))
             | _ => None
             end) tr.

(** The events that the event loop causes while it runs: everything that a
    done-callback can do, and the report of an exception that left one. *)
Definition is_loop_event (e : event) : Prop :=
  match e with
  | ResultCallback _ | RunInExecutor _ _ _ | Log _ _ | Resolve _ | LoopStop
  | CallbackException _ => True
  | _ => False
  end.

End Observations.

(** ** Invariants of a session over the bears [bears] *)

Section Invariants.
Context {Args Result : Type} `{B : Bears Args Result}.
Variable bears : list bear.

Abbreviation State := (State Args Result).

(** A dependency within the input has been handed to [resolve], or is still
    in the entry of the bear that declares it. *)
Definition unresolved_kept (st : State) : Prop :=
  ∀ b d, b ∈ bears → d ∈ dependencies b → d ∈ bears →
    Resolve d ∈ trace st ∨
    ∃ s, DependencyTracker.dependency_dict (dependency_tracker st) !! b = Some s
         ∧ d ∈ s.

(** The graph only has entries for bears of the input. *)
Definition graph_within (st : State) : Prop :=
  ∀ b, in_dependency_dict b st → b ∈ bears.

(** The results of the task behind a handle. *)
Definition results_of (st : State) (t : task) : list Result :=
  match futures st !! t with
  | Some (b, a) => produced (analyze b a)
  | None => []
  end.

(** Every handle in use is older than the next fresh one. *)
Definition handles_fresh (st : State) : Prop :=
  ∀ t, is_Some (futures st !! t) → t < next_task st.

(** The work behind every handle is a task that its bear generates. *)
Definition work_generated (st : State) : Prop :=
  ∀ t b a, futures st !! t = Some (b, a) → a ∈ generate_tasks b.

(** The work behind every handle was handed to the pool under that handle. *)
Definition futures_submitted (st : State) : Prop :=
  ∀ t b a, futures st !! t = Some (b, a) → RunInExecutor b t a ∈ trace st.

(** No done-callback belongs to the bear [idle]. *)
Definition no_callback (idle : bear) (st : State) : Prop :=
  ∀ t, callbacks st !! t ≠ Some idle.

(** The shape of a session while [schedule_bears] still has the bears
    [todo] to look at: every bear of the input is waiting in the graph,
    to be looked at, running or resolved; the tasks of a running bear are
    the handles with a done-callback for it; a bear has all its tasks
    submitted once it runs, and none before. *)
Record consistent (todo : list bear) (st : State) : Prop := {
  graph_sound : ∀ b s,
    DependencyTracker.dependency_dict (dependency_tracker st) !! b = Some s →
    b ∈ bears ∧ s ≠ ∅ ∧
    ∀ d, d ∈ s → d ∈ bears ∧ d ∈ dependencies b ∧
                 (d ∉ DependencyTracker.resolved (dependency_tracker st));
  tracker_registered :
    DependencyTracker.registered (dependency_tracker st) = list_to_set bears;
  tracker_resolved : ∀ b,
    b ∈ DependencyTracker.resolved (dependency_tracker st) ↔
    b ∈ resolutions (trace st);
  resolved_once : NoDup (resolutions (trace st));
  todo_nodup : NoDup todo;
  phase_cover : ∀ b, b ∈ bears →
    b ∈ todo ∨ in_dependency_dict b st ∨ b ∈ dom (running_tasks st) ∨
    b ∈ DependencyTracker.resolved (dependency_tracker st);
  todo_fresh : ∀ b, b ∈ todo →
    b ∈ bears ∧ (b ∉ dom (running_tasks st)) ∧
    (b ∉ DependencyTracker.resolved (dependency_tracker st));
  running_fresh : ∀ b, b ∈ dom (running_tasks st) →
    b ∈ bears ∧ ¬ in_dependency_dict b st ∧
    (b ∉ DependencyTracker.resolved (dependency_tracker st));
  resolved_gone : ∀ b,
    b ∈ DependencyTracker.resolved (dependency_tracker st) →
    b ∈ bears ∧ ¬ in_dependency_dict b st;
  running_pending : ∀ b ts, running_tasks st !! b = Some ts →
    ts ≠ ∅ ∧ ∀ t, t ∈ ts → callbacks st !! t = Some b;
  pending_running : ∀ t b, callbacks st !! t = Some b →
    (∃ ts, running_tasks st !! b = Some ts ∧ t ∈ ts) ∧
    (∃ a, futures st !! t = Some (b, a)) ∧ t < next_task st;
  submitted_once : ∀ b,
    times b (submissions (trace st))
    = if decide (b ∈ dom (running_tasks st) ∨
                 b ∈ DependencyTracker.resolved (dependency_tracker st))
      then length (generate_tasks b) else 0
}.

(** The invariant behind the order of submissions. *)
Definition ordered (st : State) : Prop :=
  unresolved_kept st ∧ graph_within st ∧
  submitted_after_dependencies dependencies bears (trace st).

End Invariants.

(** ** load_files *)

Module Files.

(** What [open(filename, 'r', encoding='utf-8')] followed by
    [fl.readlines()] does: it yields the lines (line-split, with their line
    ends), or raises.  Only [UnicodeDecodeError] and [OSError] are caught by
    [load_files]. *)
Inductive read_outcome : Type :=
| Lines (lines : list string)
| UnicodeDecodeError
| OSError (ex : string)
| OtherError (ex : string).

(** A Python dictionary with [str] keys: an association list in insertion
    order, every key at most once. *)
Abbreviation file_dict := (list (string * list string)) (only parsing).

(** [file_dict[filename] = lines] *)
Fixpoint dict_set (k : string) (v : list string) (d : file_dict) : file_dict :=
  match d with
  | [] => [(k, v)]
  | (k', v') :: d' =>
      if decide (k' = k) then (k, v) :: d' else (k', v') :: dict_set k v d'
  end.

(** [file_dict.get(filename)] *)
Fixpoint dict_get (k : string) (d : file_dict) : option (list string) :=
  match d with
  | [] => None
  | (k', v') :: d' => if decide (k' = k) then Some v' else dict_get k d'
  end.

(** [file_dict.keys()] *)
Definition keys (d : file_dict) : list string := d.*1.

(** [sep.join(parts)] *)
Fixpoint join (sep : string) (parts : list string) : string :=
  match parts with
  | [] => ""
  | [p] => p
  | p :: parts' => p +:+ sep +:+ join sep parts'
  end.

Definition newline : string := String (Ascii.ascii_of_nat 10) EmptyString.

Definition decode_warning (filename : string) : string :=
  "Failed to read file '" +:+ filename +:+
  "'. It seems to contain non-unicode characters. Leaving it out.".

Definition os_warning (filename : string) : string :=
  "Failed to read file '" +:+ filename +:+
  "' because of an unknown error. Leaving it out.".

Definition loaded_message (d : file_dict) : string :=
  "Following files loaded:" +:+ newline +:+ join newline (keys d).

Section LoadFiles.
(** The file system as [load_files] sees it. *)
Variable read : string → read_outcome.

(** The loop of [load_files]: the dictionary built so far and the log
    records written so far; an exception that is not caught ends it. *)
Fixpoint load_loop (filenames : list string) (d : file_dict)
    (log : list (level * string))
    : (string + file_dict) * list (level * string) :=
  match filenames with
  | [] => (inr d, log)
  | filename :: filenames' =>
      match read filename with
      | Lines lines => load_loop filenames' (dict_set filename lines d) log
      | UnicodeDecodeError =>
          load_loop filenames' d (log ++ [(WARNING, decode_warning filename)])
      | OSError _ =>
          load_loop filenames' d (log ++ [(WARNING, os_warning filename)])
      | OtherError ex => (inl ex, log)
      end
  end.

(** [load_files(filenames)]: the returned dictionary (or the exception that
    escaped) and the log records. *)
Definition load_files (filenames : list string)
    : (string + file_dict) * list (level * string) :=
  match load_loop filenames [] [] with
  | (inr d, log) => (inr d, log ++ [(DEBUG, loaded_message d)])
  | (inl ex, log) => (inl ex, log)
  end.

(** No read of a file of the list raises anything but the two exceptions
    that [load_files] catches. *)
Definition only_caught (filenames : list string) : Prop :=
  ∀ filename, filename ∈ filenames → ∀ ex, read filename ≠ OtherError ex.

(** The warning a file name causes, if its read fails in a way that is
    caught. *)
Definition warning_for (filename : string) : list (level * string) :=
  match read filename with
  | UnicodeDecodeError => [(WARNING, decode_warning filename)]
  | OSError _ => [(WARNING, os_warning filename)]
  | _ => []
  end.

(** The entries that the readable files of a list give, in the order of
    the list. *)
Definition entries (filenames : list string) : file_dict :=
  omap (λ filename, match read filename with
                    | Lines lines => Some (filename, lines)
                    | _ => None
                    end) filenames.

End LoadFiles.

(** A small file system: [a.txt] and [c.txt] are readable, [b.bin] is not
    text, [gone.txt] cannot be opened. *)
Definition sample_read (filename : string) : read_outcome :=
  if decide (filename = "a.txt") then Lines ["one" +:+ newline; "two"]
  else if decide (filename = "b.bin") then UnicodeDecodeError
  else if decide (filename = "c.txt") then Lines []
  else OSError "No such file or directory".

(** The same file system, where [open] rejects the name [nul] with a
    [ValueError], which [load_files] does not catch. *)
Definition strict_read (filename : string) : read_outcome :=
  if decide (filename = "nul") then OtherError "ValueError: embedded null byte"
  else sample_read filename.

End Files.

(** ** Sample sessions *)

Module Samples.

(** [A] has no work at all, [B] waits for [A]. *)
Definition zero_task : Bears nat string := {|
  name b := match b with 0 => "A" | _ => "B" end;
  dependencies b := match b with 1 => [0] | _ => [] end;
  generate_tasks b := match b with 0 => [] | _ => [7] end;
  analyze b a := Produced ["result of B"]
|}.

(** The only task of [A] raises; [C] is independent of [A]. *)
Definition faulting : Bears nat string := {|
  name b := match b with 0 => "A" | _ => "C" end;
  dependencies b := [];
  generate_tasks b := [b];
  analyze b a := match b with 0 => Raises "boom" | _ => Produced ["result of C"] end
|}.

(** [A] has two tasks; the first one raises. *)
Definition partly_faulting : Bears nat string := {|
  name b := "A";
  dependencies b := [];
  generate_tasks b := [1; 2];
  analyze b a := match a with 1 => Raises "boom" | _ => Produced ["result"] end
|}.

(** [B] waits for [A]; each bear generates one task and raises on any
    other work. *)
Definition picky : Bears nat string := {|
  name b := match b with 0 => "A" | _ => "B" end;
  dependencies b := match b with 1 => [0] | _ => [] end;
  generate_tasks b := [b + 10];
  analyze b a :=
    if decide (a = b + 10) then Produced ["ok"] else Raises "unexpected work"
|}.

(** [D] waits for [B] and [C], which both wait for [A]; [B] has two tasks. *)
Definition diamond : Bears nat string := {|
  name b := match b with 0 => "A" | 1 => "B" | 2 => "C" | _ => "D" end;
  dependencies b :=
    match b with 1 => [0] | 2 => [0] | 3 => [1; 2] | _ => [] end;
  generate_tasks b :=
    match b with 0 => [10] | 1 => [11; 12] | 2 => [13] | _ => [14] end;
  analyze b a := Produced ["r" +:+ pretty a; "s" +:+ pretty a]
|}.

(** The diamond again, but [C] has no work at all. *)
Definition idle_diamond : Bears nat string := {|
  name b := match b with 0 => "A" | 1 => "B" | 2 => "C" | _ => "D" end;
  dependencies b :=
    match b with 1 => [0] | 2 => [0] | 3 => [1; 2] | _ => [] end;
  generate_tasks b :=
    match b with 0 => [10] | 1 => [11; 12] | 2 => [] | _ => [14] end;
  analyze b a := Produced ["r" +:+ pretty a; "s" +:+ pretty a]
|}.

(** Two bears that wait for each other. *)
Definition cyclic : Bears nat string := {|
  name b := match b with 0 => "A" | _ => "B" end;
  dependencies b := match b with 0 => [1] | _ => [0] end;
  generate_tasks b := [b];
  analyze b a := Produced []
|}.

(** The diamond after the initial call of [schedule_bears]: the task of [A]
    is in flight, the other bears wait. *)
Definition started_diamond : State nat string :=
  schedule_bears (B := diamond) [0; 1; 2; 3]
    (initial (DependencyTracker.add_bear_dependencies
                (dependencies (Bears := diamond)) [0; 1; 2; 3]
                DependencyTracker.empty) 1).

(** A state in which bear [1] has the tasks [2] and [3] in flight. *)
Definition two_in_flight : State nat string :=
  mkState {[1 := {[2; 3]}]} DependencyTracker.empty
          {[2 := (1, 11); 3 := (1, 12)]} {[2 := 1; 3 := 1]} 4 false [].

End Samples.

(** * Properties *)

(** ** The dependency tracker *)

Module TrackerFacts.
Import DependencyTracker.

Section Build.
Variable all : list bear.

Lemma add_edges_dict b ds dt :
  dependency_dict
    (foldl (λ dt d, if decide (d ∈ all) then add d b dt else dt) dt ds)
  = if decide (filter (λ d, d ∈ all) ds = [])
    then dependency_dict dt
    else <[b := list_to_set (filter (λ d, d ∈ all) ds)
                 ∪ default ∅ (dependency_dict dt !! b)]> (dependency_dict dt).
Proof.
  revert dt. induction ds as [|d ds IH]; intros dt; [done|].
  cbn [foldl]. rewrite IH. rewrite filter_cons.
  destruct (decide (d ∈ all)) as [Hd|Hd]; [|done].
  rewrite (decide_False (P := d :: _ = [])) by done.
  unfold add. cbn [dependency_dict].
  case_decide as Hnil.
  - rewrite Hnil. f_equal. set_solver.
  - rewrite lookup_insert_eq, insert_insert_eq. cbn [default]. f_equal.
    rewrite list_to_set_cons. set_solver.
Qed.

Variable deps : bear → list bear.

Lemma add_dependencies_of_dict dt b :
  dependency_dict (add_dependencies_of deps all dt b)
  = if decide (declared_within deps all b = ∅)
    then dependency_dict dt
    else <[b := declared_within deps all b
                 ∪ default ∅ (dependency_dict dt !! b)]> (dependency_dict dt).
Proof.
  unfold add_dependencies_of. rewrite add_edges_dict. cbn [register dependency_dict].
  unfold declared_within.
  destruct (filter (λ d, d ∈ all) (deps b)) as [|d l] eqn:Hf.
  - by rewrite !decide_True.
  - rewrite !decide_False; [done| |done].
    intros Hempty. assert (d ∈ (list_to_set (d :: l) : gset bear)) as Hin
      by (rewrite list_to_set_cons; set_solver).
    rewrite Hempty in Hin. set_solver.
Qed.

Lemma add_edges_sets b ds dt :
  registered (foldl (λ dt d, if decide (d ∈ all) then add d b dt else dt) dt ds)
  = registered dt ∧
  resolved (foldl (λ dt d, if decide (d ∈ all) then add d b dt else dt) dt ds)
  = resolved dt.
Proof.
  revert dt. induction ds as [|d ds IH]; intros dt; [done|].
  cbn [foldl]. destruct (IH (if decide (d ∈ all) then add d b dt else dt))
    as [-> ->]. by case_decide.
Qed.

(** The graph after the bears of [l] were entered. *)
Lemma add_all_lookup l dt x :
  dependency_dict (foldl (add_dependencies_of deps all) dt l) !! x
  = if decide (x ∈ l ∧ declared_within deps all x ≠ ∅)
    then Some (declared_within deps all x ∪ default ∅ (dependency_dict dt !! x))
    else dependency_dict dt !! x.
Proof.
  revert dt. induction l as [|b l IH]; intros dt.
  - rewrite decide_False; [done|]. intros [H _]. by apply elem_of_nil in H.
  - cbn [foldl]. rewrite IH, add_dependencies_of_dict.
    destruct (decide (declared_within deps all b = ∅)) as [Hb|Hb].
    + destruct (decide (x ∈ l ∧ _)) as [[Hx Hne]|Hn].
      * rewrite decide_True; [done|]. split; [by right|done].
      * rewrite decide_False; [done|]. intros [Hx Hne].
        apply elem_of_cons in Hx as [->|Hx]; [done|]. by apply Hn.
    + destruct (decide (x = b)) as [->|Hxb].
      * rewrite lookup_insert_eq. cbn [default].
        rewrite (decide_True (P := b ∈ b :: l ∧ _)) by (split; [left|done]).
        case_decide; [f_equal; set_solver|done].
      * rewrite lookup_insert_ne by done.
        destruct (decide (x ∈ l ∧ _)) as [[Hx Hne]|Hn].
        -- rewrite decide_True; [done|]. split; [by right|done].
        -- rewrite decide_False; [done|]. intros [Hx Hne].
           apply elem_of_cons in Hx as [->|Hx]; [done|]. by apply Hn.
Qed.

Lemma add_all_sets l dt :
  registered (foldl (add_dependencies_of deps all) dt l)
  = list_to_set l ∪ registered dt ∧
  resolved (foldl (add_dependencies_of deps all) dt l) = resolved dt.
Proof.
  revert dt. induction l as [|b l IH]; intros dt.
  - split; [set_solver|done].
  - cbn [foldl]. destruct (IH (add_dependencies_of deps all dt b)) as [-> ->].
    unfold add_dependencies_of.
    destruct (add_edges_sets b (deps b) (register b dt)) as [-> ->].
    cbn [register registered resolved]. split; [set_solver|done].
Qed.

End Build.

(** The graph that [add_bear_dependencies] builds from nothing: a bear of
    the input has an entry exactly when it declares a dependency that is in
    the input, and the entry is the set of those. *)
Lemma add_bear_dependencies_lookup deps bears x :
  dependency_dict (add_bear_dependencies deps bears empty) !! x
  = if decide (x ∈ bears ∧ declared_within deps bears x ≠ ∅)
    then Some (declared_within deps bears x)
    else None.
Proof.
  unfold add_bear_dependencies. rewrite add_all_lookup.
  cbn [empty dependency_dict]. rewrite lookup_empty. cbn [default].
  case_decide; [f_equal; set_solver|done].
Qed.

Lemma add_bear_dependencies_registered deps bears :
  registered (add_bear_dependencies deps bears empty) = list_to_set bears ∧
  resolved (add_bear_dependencies deps bears empty) = ∅.
Proof.
  unfold add_bear_dependencies.
  destruct (add_all_sets bears deps bears empty) as [-> ->].
  cbn [empty registered resolved]. split; [set_solver|done].
Qed.

Lemma elem_of_declared_within deps bears b d :
  d ∈ declared_within deps bears b ↔ d ∈ deps b ∧ d ∈ bears.
Proof.
  unfold declared_within. rewrite elem_of_list_to_set, list_elem_of_filter. tauto.
Qed.

(** The entry of a bear once [b] is resolved. *)
Lemma lookup_without b dict x :
  without b dict !! x
  = dict !! x ≫= λ s,
      if decide (x ≠ b ∧ b ∈ s)
      then if decide (s ∖ {[b]} = ∅) then None else Some (s ∖ {[b]})
      else Some s.
Proof. unfold without. by rewrite map_lookup_imap. Qed.

Lemma elem_of_newly_ready b dict x :
  x ∈ newly_ready b dict ↔
  ∃ s, dict !! x = Some s ∧ x ≠ b ∧ b ∈ s ∧ s ∖ {[b]} = ∅.
Proof.
  unfold newly_ready. rewrite elem_of_dom. split.
  - intros [s Hs]. apply map_lookup_filter_Some in Hs as [Hs HP]. eauto.
  - intros (s & Hs & HP). exists s. by apply map_lookup_filter_Some.
Qed.

(** A newly ready bear has left the graph. *)
Lemma newly_ready_without b dict x :
  x ∈ newly_ready b dict → without b dict !! x = None.
Proof.
  rewrite elem_of_newly_ready, lookup_without.
  intros (s & -> & Hne & Hin & Hempty). cbn.
  rewrite decide_True by done. by rewrite decide_True.
Qed.

Lemma resolve_inv b dt ready dt' :
  resolve b dt = inr (ready, dt') →
  b ∈ registered dt ∧ (b ∉ resolved dt) ∧
  ready = elements (newly_ready b (dependency_dict dt)) ∧
  dependency_dict dt' = without b (dependency_dict dt) ∧
  registered dt' = registered dt ∧
  resolved dt' = {[b]} ∪ resolved dt.
Proof.
  unfold resolve. case_decide as Hok; [|done]. intros [= <- <-].
  destruct Hok. done.
Qed.

End TrackerFacts.

(** ** What the scheduling functions leave alone *)

Section SchedulerFacts.
Context {Args Result : Type} `{B : Bears Args Result}.

Abbreviation State := (State Args Result).

Lemma submit_all_frame b args (st : State) :
  running_tasks (submit_all b args st).2 = running_tasks st ∧
  dependency_tracker (submit_all b args st).2 = dependency_tracker st ∧
  callbacks (submit_all b args st).2 = callbacks st ∧
  stopping (submit_all b args st).2 = stopping st.
Proof.
  revert st. induction args as [|a args IH]; intros st; simpl; [done|].
  specialize (IH (run_in_executor b a st).2).
  destruct (submit_all b args _) as [ts st2] eqn:E. simpl in *.
  destruct IH as (-> & -> & -> & ->). done.
Qed.

Lemma submit_all_trace b args (st : State) :
  trace (submit_all b args st).2
  = trace st ++ imap (λ i a, RunInExecutor b (next_task st + i) a) args.
Proof.
  revert st. induction args as [|a args IH]; intros st; simpl.
  - by rewrite app_nil_r.
  - specialize (IH (run_in_executor b a st).2).
    destruct (submit_all b args _) as [ts st2] eqn:E. simpl in *.
    rewrite IH, <- app_assoc. simpl. f_equal. rewrite Nat.add_0_r. f_equal.
    apply imap_ext. intros i x _. simpl. f_equal. lia.
Qed.

Lemma submit_all_next_task b args (st : State) :
  next_task (submit_all b args st).2 = next_task st + length args.
Proof.
  revert st. induction args as [|a args IH]; intros st; simpl; [lia|].
  specialize (IH (run_in_executor b a st).2).
  destruct (submit_all b args _) as [ts st2] eqn:E. simpl in *. lia.
Qed.

Lemma submit_all_handles b args (st : State) t :
  t ∈ (submit_all b args st).1 ↔ next_task st ≤ t < next_task st + length args.
Proof.
  revert st. induction args as [|a args IH]; intros st; simpl.
  - rewrite elem_of_empty. lia.
  - specialize (IH (run_in_executor b a st).2).
    destruct (submit_all b args _) as [ts st2] eqn:E. simpl in *.
    rewrite elem_of_union, elem_of_singleton, IH. lia.
Qed.

Lemma submit_all_size b args (st : State) :
  size (submit_all b args st).1 = length args.
Proof.
  revert st. induction args as [|a args IH]; intros st; simpl.
  - done.
  - pose proof (submit_all_handles b args (run_in_executor b a st).2) as Hh.
    specialize (IH (run_in_executor b a st).2).
    destruct (submit_all b args _) as [ts st2] eqn:E. simpl in *.
    rewrite size_union, size_singleton, IH; [done|].
    apply disjoint_singleton_l. rewrite Hh. lia.
Qed.

Lemma schedule_bear_frame (st : State) b :
  dependency_tracker (schedule_bear st b) = dependency_tracker st ∧
  stopping (schedule_bear st b) = stopping st.
Proof.
  unfold schedule_bear. case_decide; [done|].
  pose proof (submit_all_frame b (generate_tasks b) st) as (_ & Hd & _ & Hs).
  destruct (submit_all b (generate_tasks b) st) as [ts st1]. simpl in *. done.
Qed.

Lemma schedule_bears_frame l (st : State) :
  dependency_tracker (schedule_bears l st) = dependency_tracker st ∧
  stopping (schedule_bears l st) = stopping st.
Proof.
  revert st. induction l as [|b l IH]; intros st; [done|].
  unfold schedule_bears in *. simpl.
  destruct (IH (schedule_bear st b)) as [-> ->]. apply schedule_bear_frame.
Qed.

Lemma schedule_bear_trace (st : State) b :
  ∃ rest, trace (schedule_bear st b) = trace st ++ rest ∧
    Forall is_scheduling rest ∧
    ∀ b' t a, RunInExecutor b' t a ∈ rest → b' = b ∧ ¬ in_dependency_dict b st.
Proof.
  unfold schedule_bear. case_decide as Hin.
  - eexists. split; [reflexivity|]. split.
    + by repeat constructor.
    + intros b' t a Hel. apply list_elem_of_singleton in Hel. done.
  - pose proof (submit_all_trace b (generate_tasks b) st) as Htr.
    destruct (submit_all b (generate_tasks b) st) as [ts st1]. simpl in *.
    rewrite Htr, <- app_assoc. eexists. split; [reflexivity|]. split.
    + apply Forall_app. split; [|by repeat constructor].
      apply Forall_forall. intros e He.
      apply elem_of_lookup_imap in He as (i & a & -> & _). done.
    + intros b' t a Hel. apply elem_of_app in Hel as [Hel|Hel].
      * apply elem_of_lookup_imap in Hel as (i & a' & Heq & _).
        by injection Heq as -> _ _.
      * apply list_elem_of_singleton in Hel. done.
Qed.

Lemma schedule_bears_trace l (st : State) :
  ∃ rest, trace (schedule_bears l st) = trace st ++ rest ∧
    Forall is_scheduling rest ∧
    ∀ b t a, RunInExecutor b t a ∈ rest → b ∈ l ∧ ¬ in_dependency_dict b st.
Proof.
  revert st. induction l as [|b l IH]; intros st.
  - exists []. rewrite app_nil_r. split; [done|]. split; [constructor|].
    intros ??? Hel. by apply elem_of_nil in Hel.
  - unfold schedule_bears in *. simpl.
    destruct (schedule_bear_trace st b) as (r1 & H1 & F1 & S1).
    destruct (IH (schedule_bear st b)) as (r2 & H2 & F2 & S2).
    exists (r1 ++ r2). rewrite H2, H1, app_assoc. split; [done|]. split.
    + by apply Forall_app.
    + intros b' t a Hel. apply elem_of_app in Hel as [Hel|Hel].
      * apply S1 in Hel as [-> ?]. split; [left|done].
      * apply S2 in Hel as [? Hn]. split; [by right|].
        unfold in_dependency_dict in *.
        by rewrite (proj1 (schedule_bear_frame st b)) in Hn.
Qed.

Lemma schedule_bear_running (st : State) b x :
  is_Some (running_tasks st !! x) → is_Some (running_tasks (schedule_bear st b) !! x).
Proof.
  intros Hx. unfold schedule_bear. case_decide; [done|].
  pose proof (submit_all_frame b (generate_tasks b) st) as (Hr & _).
  destruct (submit_all b (generate_tasks b) st) as [ts st1]. simpl in *.
  rewrite Hr. destruct (decide (b = x)) as [->|Hne].
  - rewrite lookup_insert_eq. eauto.
  - by rewrite lookup_insert_ne.
Qed.

Lemma schedule_bears_running l (st : State) x :
  is_Some (running_tasks st !! x) → is_Some (running_tasks (schedule_bears l st) !! x).
Proof.
  revert st. induction l as [|b l IH]; intros st Hx; [done|].
  unfold schedule_bears in *. simpl. by apply IH, schedule_bear_running.
Qed.

End SchedulerFacts.

(** ** The paths through finish_task *)

Section FinishTask.
Context {Args Result : Type} `{B : Bears Args Result}.

Abbreviation State := (State Args Result).

Lemma forward_results_delivered rs (st : State) :
  forward_results rs st = (inr tt, delivered rs st).
Proof.
  revert st. induction rs as [|r rs IH]; intros st.
  - destruct st. unfold delivered. simpl. by rewrite app_nil_r.
  - simpl. unfold bind, modify. rewrite IH. unfold delivered, emit. simpl.
    by rewrite <- app_assoc.
Qed.

(** [task.result()] raises: nothing has happened yet. *)
Lemma finish_task_raises b t msg (st : State) :
  finish_task b t (Raises msg) st = (inl (TaskError msg), st).
Proof. reflexivity. Qed.

(** [running_tasks[bear]] raises [KeyError]. *)
Lemma finish_task_unknown_bear b t rs (st : State) :
  running_tasks st !! b = None →
  finish_task b t (Produced rs) st = (inl KeyError, delivered rs st).
Proof.
  intros Hb. unfold finish_task, bind. simpl.
  rewrite forward_results_delivered.
  unfold remove_task, running_tasks_of, bind, get. simpl. by rewrite Hb.
Qed.

(** [.remove(task)] raises [KeyError]. *)
Lemma finish_task_unknown_task b t rs ts (st : State) :
  running_tasks st !! b = Some ts → t ∉ ts →
  finish_task b t (Produced rs) st = (inl KeyError, delivered rs st).
Proof.
  intros Hb Ht. unfold finish_task, bind. simpl.
  rewrite forward_results_delivered.
  unfold remove_task, running_tasks_of, bind, get. simpl. rewrite Hb. simpl.
  by rewrite decide_False.
Qed.

(** Other tasks of the bear are still in flight. *)
Lemma finish_task_more_in_flight b t rs ts (st : State) :
  running_tasks st !! b = Some ts → t ∈ ts → ts ∖ {[t]} ≠ ∅ →
  finish_task b t (Produced rs) st
  = (inr tt, set_running_tasks (<[b := ts ∖ {[t]}]> (running_tasks st))
               (delivered rs st)).
Proof.
  intros Hb Ht Hne. unfold finish_task, bind. simpl.
  rewrite forward_results_delivered.
  unfold remove_task, running_tasks_of, bind, get. simpl. rewrite Hb. simpl.
  rewrite decide_True by done. simpl. rewrite lookup_insert_eq. simpl.
  rewrite decide_False by done. simpl.
  rewrite decide_False; [done|].
  intros Hempty. apply (f_equal (λ m, m !! b)) in Hempty.
  by rewrite lookup_insert_eq, lookup_empty in Hempty.
Qed.

(** The last task of the bear, and the tracker refuses [resolve]. *)
Lemma finish_task_last_refused b t rs ts e (st : State) :
  running_tasks st !! b = Some ts → t ∈ ts → ts ∖ {[t]} = ∅ →
  DependencyTracker.resolve b (dependency_tracker st) = inl e →
  finish_task b t (Produced rs) st
  = (inl e, emit (Resolve b)
              (set_running_tasks (<[b := ts ∖ {[t]}]> (running_tasks st))
                 (delivered rs st))).
Proof.
  intros Hb Ht He Hr. unfold finish_task, bind. simpl.
  rewrite forward_results_delivered.
  unfold remove_task, running_tasks_of, bind, get. simpl. rewrite Hb. simpl.
  rewrite decide_True by done. simpl. rewrite lookup_insert_eq. simpl.
  rewrite decide_True by done. unfold resolve, bind, modify, get. simpl.
  by rewrite Hr.
Qed.

(** The last task of the bear: the bear is resolved, the bears that became
    ready are scheduled, the entry of the bear is deleted, and the loop is
    stopped if nothing is running. *)
Lemma finish_task_last b t rs ts ready dt (st : State) :
  running_tasks st !! b = Some ts → t ∈ ts → ts ∖ {[t]} = ∅ →
  DependencyTracker.resolve b (dependency_tracker st) = inr (ready, dt) →
  let st3 := schedule_bears ready
               (set_dependency_tracker dt
                  (emit (Resolve b)
                     (set_running_tasks (<[b := ts ∖ {[t]}]> (running_tasks st))
                        (delivered rs st)))) in
  let st4 := set_running_tasks (delete b (running_tasks st3)) st3 in
  finish_task b t (Produced rs) st
  = (inr tt, if decide (running_tasks st4 = ∅) then stop st4 else st4).
Proof.
  intros Hb Ht He Hr st3 st4. unfold finish_task, bind. simpl.
  rewrite forward_results_delivered.
  unfold remove_task, running_tasks_of, bind, get. simpl. rewrite Hb. simpl.
  rewrite decide_True by done. simpl. rewrite lookup_insert_eq. simpl.
  rewrite decide_True by done. unfold resolve, bind, modify, get. simpl.
  rewrite Hr. simpl.
  assert (is_Some (running_tasks st3 !! b)) as [ts3 Hts3].
  { apply schedule_bears_running. simpl. rewrite lookup_insert_eq. eauto. }
  assert ((if decide (ready = []) then ret tt else modify (schedule_bears ready))
            (set_dependency_tracker dt
               (emit (Resolve b)
                  (set_running_tasks (<[b := ts ∖ {[t]}]> (running_tasks st))
                     (delivered rs st))))
          = (inr tt, st3)) as Hsched.
  { case_decide as Hnil; [|done]. subst st3. by rewrite Hnil. }
  unfold set_dependency_tracker, emit, set_running_tasks, delivered in *.
  unfold modify in Hsched. simpl in *. rewrite Hsched.
  unfold del_running_tasks, bind, get, modify. simpl. rewrite Hts3. simpl.
  by destruct (decide (delete b (running_tasks st3) = ∅)).
Qed.

End FinishTask.

(** Case analysis over the paths of [finish_task b t res st]: rewrites the
    call with the equation of the path taken. *)
Ltac finish_task_paths b t res st :=
  let ts := fresh "ts" in
  let Hb := fresh "Hb" in
  let Ht := fresh "Ht" in
  let He := fresh "He" in
  let Hr := fresh "Hr" in
  destruct res as [?rs|?msg];
    [ destruct (running_tasks st !! b) as [ts|] eqn:Hb;
      [ destruct (decide (t ∈ ts)) as [Ht|Ht];
        [ destruct (decide (ts ∖ {[t]} = ∅)) as [He|He];
          [ destruct (DependencyTracker.resolve b (dependency_tracker st))
              as [?e|[?ready ?dt]] eqn:Hr;
            [ rewrite (finish_task_last_refused _ _ _ _ _ _ Hb Ht He Hr)
            | rewrite (finish_task_last _ _ _ _ _ _ _ Hb Ht He Hr) ]
          | rewrite (finish_task_more_in_flight _ _ _ _ _ Hb Ht He) ]
        | rewrite (finish_task_unknown_task _ _ _ _ _ Hb Ht) ]
      | rewrite (finish_task_unknown_bear _ _ _ _ Hb) ]
    | rewrite finish_task_raises ].

(** ** What one call of the handler does *)

Section Handler.
Context {Args Result : Type} `{B : Bears Args Result}.

Abbreviation State := (State Args Result).

(** The trace of one call of the handler: the results first, one call of
    the sink each, then what the completion of the bear causes. *)
Lemma finish_task_trace b t res (st : State) :
  ∃ rest, trace (finish_task b t res st).2
          = trace st ++ (ResultCallback <$> produced res) ++ rest ∧
    Forall (λ e, is_scheduling e ∨ e = Resolve b ∨ e = LoopStop) rest.
Proof.
  finish_task_paths b t res st; simpl.
  - exists [Resolve b]. split; [by rewrite <- app_assoc|]. apply Forall_singleton. auto.
  - match goal with |- context [schedule_bears ?l ?s] =>
      destruct (schedule_bears_trace l s) as (r & Hr' & Fr & _) end.
    simpl in Hr'.
    case_decide; simpl; rewrite Hr', <- ?app_assoc.
    + exists ([Resolve b] ++ r ++ [LoopStop]). split; [by rewrite <- ?app_assoc|].
      apply Forall_app. split; [apply Forall_singleton; auto|].
      apply Forall_app. split; [|apply Forall_singleton; auto].
      eapply Forall_impl; [exact Fr|]. tauto.
    + exists ([Resolve b] ++ r). split; [done|].
      apply Forall_app. split; [apply Forall_singleton; auto|].
      eapply Forall_impl; [exact Fr|]. tauto.
  - exists []. by rewrite app_nil_r.
  - exists []. by rewrite app_nil_r.
  - exists []. by rewrite app_nil_r.
  - exists []. by rewrite !app_nil_r.
Qed.

Lemma sink_app (tr1 tr2 : list (event Args Result)) :
  sink (tr1 ++ tr2) = sink tr1 ++ sink tr2.
Proof. apply omap_app. Qed.

Lemma sink_results (rs : list Result) :
  sink (Args := Args) (ResultCallback <$> rs) = rs.
Proof. unfold sink. induction rs as [|r rs IH]; [done|]. simpl. by f_equal. Qed.

Lemma sink_no_result (tr : list (event Args Result)) :
  Forall (λ e, ¬ is_result e) tr → sink tr = [].
Proof.
  unfold sink. induction 1 as [|e tr He _ IH]; [done|].
  destruct e; simpl in *; done.
Qed.

(** C8: a completed task that produced [r1 .. rn] makes the handler call
    the result sink once per result, first thing and in the order produced;
    nothing else reaches the sink during that call of the handler. *)
Theorem finish_task_forwards_results_in_order b t rs (st : State) :
  let st' := (finish_task b t (Produced rs) st).2 in
  (∃ rest, trace st' = trace st ++ (ResultCallback <$> rs) ++ rest ∧
           Forall (λ e, ¬ is_result e) rest) ∧
  sink (trace st') = sink (trace st) ++ rs.
Proof.
  intros st'. destruct (finish_task_trace b t (Produced rs) st) as (rest & Htr & F).
  assert (Forall (λ e, ¬ is_result e) rest) as Hno.
  { eapply Forall_impl; [exact F|].
    intros e [He|[->| ->]]; [destruct e|..]; simpl in *; tauto. }
  subst st'. split.
  - exists rest. done.
  - rewrite Htr. simpl. rewrite !sink_app, sink_results.
    by rewrite (sink_no_result rest), app_nil_r.
Qed.

(** When the bear of the completed task still has tasks in flight after
    the handler ran, the handler changed nothing but the entry of the bear in
    [running_tasks]: when it returns normally it has removed exactly the one
    handle from that entry, and when it raises it has removed nothing.  On
    both paths the dependency tracker is as before, no future was created,
    no callback attached, the loop was not stopped, and the only calls made
    are those of the result sink. *)
Lemma finish_task_frame b t res (st : State) ts' :
  let st' := (finish_task b t res st).2 in
  running_tasks st' !! b = Some ts' → ts' ≠ ∅ →
  match (finish_task b t res st).1 with
  | inr _ => ∃ ts, running_tasks st !! b = Some ts ∧ t ∈ ts ∧
                   ts' = ts ∖ {[t]} ∧
                   running_tasks st' = <[b := ts ∖ {[t]}]> (running_tasks st)
  | inl _ => running_tasks st' = running_tasks st
  end ∧
  dependency_tracker st' = dependency_tracker st ∧
  futures st' = futures st ∧
  callbacks st' = callbacks st ∧
  next_task st' = next_task st ∧
  stopping st' = stopping st ∧
  trace st' = trace st ++ (ResultCallback <$> produced res).
Proof.
  intros st'. subst st'. finish_task_paths b t res st; simpl; intros Hb' Hne.
  - rewrite lookup_insert_eq in Hb'. congruence.
  - exfalso. case_decide; simpl in Hb'; by rewrite lookup_delete_eq in Hb'.
  - rewrite lookup_insert_eq in Hb'. injection Hb' as <-.
    split; [exists ts; done|]. done.
  - done.
  - done.
  - split; [done|]. by rewrite app_nil_r.
Qed.

End Handler.

(** An instance: task [3] of bear [1] completes while task [2] of the same
    bear is still in flight. *)
Lemma finish_task_frame_witness :
  let st := Samples.two_in_flight in
  let st' := (finish_task (B := Samples.diamond) 1 3 (Produced ["r"; "s"]) st).2 in
  running_tasks st' !! 1 = Some {[2]} ∧
  dependency_tracker st' = dependency_tracker st ∧
  stopping st' = false ∧
  trace st' = [ResultCallback "r"; ResultCallback "s"].
Proof.
  assert (running_tasks
            (finish_task (B := Samples.diamond) 1 3 (Produced ["r"; "s"])
               Samples.two_in_flight).2 !! 1 = Some {[2]}) as H1
    by (vm_compute; reflexivity).
  assert (({[2]} : gset nat) ≠ ∅) as H2 by (vm_compute; discriminate).
  pose proof (finish_task_frame (B := Samples.diamond) 1 3
                (Produced ["r"; "s"]) Samples.two_in_flight {[2]} H1 H2)
    as (_ & Hd & _ & _ & _ & Hs & Htr).
  split; [exact H1|]. split; [exact Hd|]. split; [exact Hs|]. exact Htr.
Defined.


(** ** load_files *)

Module FilesFacts.
Import Files.

Lemma dict_get_set_eq k v d : dict_get k (dict_set k v d) = Some v.
Proof.
  induction d as [|[k' v'] d IH]; simpl.
  - by rewrite decide_True.
  - destruct (decide (k' = k)) as [->|Hne]; simpl.
    + by rewrite decide_True.
    + by rewrite decide_False.
Qed.

Lemma dict_get_set_ne k k' v d :
  k ≠ k' → dict_get k' (dict_set k v d) = dict_get k' d.
Proof.
  intros Hne. induction d as [|[k2 v2] d IH]; simpl.
  - by rewrite decide_False.
  - destruct (decide (k2 = k)) as [->|Hne2]; simpl.
    + by rewrite !decide_False.
    + by rewrite IH.
Qed.

Lemma keys_dict_set k v d :
  keys (dict_set k v d) = if decide (k ∈ keys d) then keys d else keys d ++ [k].
Proof.
  unfold keys. induction d as [|[k' v'] d IH]; [done|].
  cbn [dict_set]. destruct (decide (k' = k)) as [->|Hne]; rewrite !fmap_cons.
  - cbn [fst]. rewrite decide_True; [done|]. left.
  - cbn [fst]. rewrite IH. destruct (decide (k ∈ d.*1)) as [Hin|Hin].
    + rewrite decide_True; [done|]. by right.
    + rewrite decide_False; [done|]. intros Hin'.
      apply elem_of_cons in Hin' as [->|?]; done.
Qed.

Lemma dict_get_keys k d : is_Some (dict_get k d) ↔ k ∈ keys d.
Proof.
  unfold keys. induction d as [|[k' v'] d IH]; simpl.
  - split; [by intros [? ?]|]. intros H. by apply elem_of_nil in H.
  - destruct (decide (k' = k)) as [->|Hne].
    + split; [left|eauto].
    + rewrite IH. split; [by right|].
      intros H. apply elem_of_cons in H as [->|?]; done.
Qed.

Section LoadFilesFacts.
Variable read : string → read_outcome.

Lemma load_loop_ok filenames d log :
  only_caught read filenames → NoDup (keys d) →
  ∃ d', load_loop read filenames d log
        = (inr d', log ++ flat_map (warning_for read) filenames) ∧
    NoDup (keys d') ∧
    ∀ f, dict_get f d' =
         match read f with
         | Lines ls => if decide (f ∈ filenames) then Some ls else dict_get f d
         | _ => dict_get f d
         end.
Proof.
  revert d log. induction filenames as [|f fs IH]; intros d log Hok Hnd.
  - exists d. simpl. rewrite app_nil_r. split; [done|]. split; [done|].
    intros f. by destruct (read f).
  - assert (only_caught read fs) as Hok'.
    { intros g Hg. apply Hok. by right. }
    cbn [load_loop flat_map]. unfold warning_for at 1.
    destruct (read f) as [ls| |ex|ex] eqn:Hf.
    + destruct (IH (dict_set f ls d) log Hok') as (d' & -> & Hnd' & Hget).
      { rewrite keys_dict_set. case_decide as Hin; [done|].
        apply NoDup_app. split; [done|]. split; [|apply NoDup_singleton].
        intros x Hx Hx'. apply list_elem_of_singleton in Hx'. by subst. }
      exists d'. split; [done|]. split; [done|].
      intros g. rewrite Hget. destruct (decide (f = g)) as [->|Hne].
      * rewrite Hf, dict_get_set_eq.
        rewrite (decide_True (P := g ∈ g :: fs)) by left. by case_decide.
      * rewrite dict_get_set_ne by done. destruct (read g); [|done..].
        destruct (decide (g ∈ fs)) as [Hin|Hin].
        -- rewrite decide_True; [done|]. by right.
        -- rewrite decide_False; [done|]. intros Hin'.
           apply elem_of_cons in Hin' as [->|?]; done.
    + destruct (IH d (log ++ [(WARNING, decode_warning f)]) Hok' Hnd)
        as (d' & -> & Hnd' & Hget).
      exists d'. rewrite <- app_assoc. split; [done|]. split; [done|].
      intros g. rewrite Hget. destruct (read g) eqn:Hg; [|done..].
      destruct (decide (g ∈ fs)) as [Hin|Hin].
      * rewrite decide_True; [done|]. by right.
      * rewrite decide_False; [done|]. intros Hin'.
        apply elem_of_cons in Hin' as [->|?]; [congruence|done].
    + destruct (IH d (log ++ [(WARNING, os_warning f)]) Hok' Hnd)
        as (d' & -> & Hnd' & Hget).
      exists d'. rewrite <- app_assoc. split; [done|]. split; [done|].
      intros g. rewrite Hget. destruct (read g) eqn:Hg; [|done..].
      destruct (decide (g ∈ fs)) as [Hin|Hin].
      * rewrite decide_True; [done|]. by right.
      * rewrite decide_False; [done|]. intros Hin'.
        apply elem_of_cons in Hin' as [->|?]; [congruence|done].
    + exfalso. eapply Hok; [left|exact Hf].
Qed.

(** C9: when the reads of the listed files succeed or raise
    [UnicodeDecodeError] or [OSError], [load_files] returns a dictionary
    whose keys are exactly the listed names that could be read, each once
    and each mapped to its lines; every failed read leaves one warning in the
    log and nothing in the dictionary. *)
Theorem load_files_skips_unreadable filenames :
  only_caught read filenames →
  ∃ d, load_files read filenames
       = (inr d, flat_map (warning_for read) filenames
                   ++ [(DEBUG, loaded_message d)]) ∧
    NoDup (keys d) ∧
    (∀ f, f ∈ keys d ↔ f ∈ filenames ∧ ∃ ls, read f = Lines ls) ∧
    (∀ f ls, dict_get f d = Some ls ↔ f ∈ filenames ∧ read f = Lines ls).
Proof.
  intros Hok. unfold load_files.
  destruct (load_loop_ok filenames [] [] Hok) as (d & -> & Hnd & Hget);
    [constructor|].
  exists d. split; [done|]. split; [done|].
  assert (∀ f ls, dict_get f d = Some ls ↔ f ∈ filenames ∧ read f = Lines ls)
    as Hchar.
  { intros f ls. rewrite Hget. simpl.
    destruct (read f) as [ls'| | |];
      [|split; [discriminate|intros [_ ?]; discriminate]..].
    case_decide as Hin; split.
    - by intros [= ->].
    - by intros [_ [= ->]].
    - discriminate.
    - by intros [? _]. }
  split; [|done]. intros f. rewrite <- dict_get_keys. split.
  - intros [ls Hls]. apply Hchar in Hls as [? ?]. eauto.
  - intros [Hin [ls Hls]]. exists ls. by apply Hchar.
Qed.

End LoadFilesFacts.

(** The witness of C9: two readable files, one that is not text and one
    that cannot be opened. *)
Lemma load_files_skips_unreadable_witness :
  ∃ d, load_files sample_read ["a.txt"; "b.bin"; "c.txt"; "gone.txt"]
       = (inr d, [(WARNING, decode_warning "b.bin");
                  (WARNING, os_warning "gone.txt");
                  (DEBUG, loaded_message d)]) ∧
    keys d = ["a.txt"; "c.txt"].
Proof.
  assert (only_caught sample_read ["a.txt"; "b.bin"; "c.txt"; "gone.txt"]) as Hok.
  { intros f Hf ex. unfold sample_read. repeat case_decide; discriminate. }
  destruct (load_files_skips_unreadable sample_read _ Hok) as (d & Heq & _).
  exists d. split; [exact Heq|].
  vm_compute in Heq. injection Heq as Heq _. by subst d.
Defined.

(** The counterexample of C9: [open] rejects the second name with a
    [ValueError], which is neither of the two exceptions that [load_files]
    catches; [load_files] returns no dictionary for this list. *)
Lemma load_files_does_not_return_for_every_list :
  ¬ ∃ d log, load_files strict_read ["a.txt"; "nul"; "c.txt"] = (inr d, log).
Proof. intros (d & log & H). vm_compute in H. discriminate. Qed.

End FilesFacts.

(** ** Sessions *)

Section Sessions.
Context {Args Result : Type} `{B : Bears Args Result}.

Abbreviation State := (State Args Result).

(** Without a pending done-callback the loop has nothing to run, whatever
    the pool reports: it waits forever. *)
Lemma run_forever_no_callbacks completions (st : State) :
  callbacks st = ∅ → run_forever completions st = (Hung, st).
Proof.
  intros Hcb. induction completions as [|t cs IH]; simpl.
  - by rewrite decide_True.
  - by rewrite Hcb, lookup_empty.
Qed.

(** A property of the state that every run of a done-callback keeps holds
    when the loop ends, however it ends. *)
Lemma run_forever_invariant (P : State → Prop) completions (st : State) :
  (∀ st t b res, P st → callbacks st !! t = Some b →
                 P (run_callback b t res (take_callback t st))) →
  P st → P (run_forever completions st).2.
Proof.
  intros Hstep. revert st. induction completions as [|t cs IH]; intros st HP.
  - simpl. by case_decide.
  - simpl. destruct (callbacks st !! t) as [b|] eqn:Hcb; [|by apply IH].
    destruct (futures st !! t) as [[b' a]|]; [|by apply IH].
    pose proof (Hstep st t b (analyze b' a) HP Hcb) as HP'.
    destruct (stopping _); [done|]. by apply IH.
Qed.

(** The loop returns only once it has been stopped. *)
Lemma run_forever_returned completions (st st' : State) :
  run_forever completions st = (Returned, st') → stopping st' = true.
Proof.
  revert st. induction completions as [|t cs IH]; intros st; simpl.
  - by case_decide.
  - destruct (callbacks st !! t) as [b|]; [|by apply IH].
    destruct (futures st !! t) as [[b' a]|]; [|by apply IH].
    destruct (stopping (run_callback _ _ _ _)) eqn:Hs; [|by apply IH].
    by intros [= <-].
Qed.

(** The trace of a run of a done-callback extends the trace, and never by a
    shutdown of the executor. *)
Lemma run_callback_trace b t res (st : State) :
  ∃ rest, trace (run_callback b t res st) = trace st ++ rest ∧
          Forall not_shutdown rest.
Proof.
  unfold run_callback.
  destruct (finish_task_trace b t res st) as (rest & Htr & F).
  assert (Forall not_shutdown ((ResultCallback <$> produced res) ++ rest)) as F'.
  { apply Forall_app. split.
    - apply Forall_fmap, Forall_true. done.
    - eapply Forall_impl; [exact F|].
      intros e [He|[->| ->]]; [by destruct e|done..]. }
  destruct (finish_task b t res st) as [[e|[]] st1]; simpl in *.
  - exists (((ResultCallback <$> produced res) ++ rest) ++ [CallbackException e]).
    rewrite Htr, <- !app_assoc. split; [done|].
    rewrite app_assoc. apply Forall_app. split; [done|]. by apply Forall_singleton.
  - eauto.
Qed.

Lemma schedule_bears_not_shutdown l (st : State) :
  Forall not_shutdown (trace st) →
  Forall not_shutdown (trace (schedule_bears l st)).
Proof.
  intros F. destruct (schedule_bears_trace l st) as (rest & -> & Fr & _).
  apply Forall_app. split; [done|].
  eapply Forall_impl; [exact Fr|]. by intros [].
Qed.

(** No session ever shuts the executor down. *)
Lemma run_never_shuts_down cpu bears completions :
  Forall not_shutdown (trace (run cpu bears completions).2).
Proof.
  unfold run.
  match goal with |- context [run_forever _ ?s] => set (st0 := s) end.
  assert (Forall not_shutdown (trace (run_forever completions st0).2)) as F.
  { apply (run_forever_invariant (λ st, Forall not_shutdown (trace st))).
    - intros st t b res F _.
      destruct (run_callback_trace b t res (take_callback t st)) as (r & -> & Fr).
      apply Forall_app. done.
    - apply schedule_bears_not_shutdown. by apply Forall_singleton. }
  destruct (run_forever completions st0) as [[] st1]; simpl in *; [|done..].
  apply Forall_app. split; [done|]. by apply Forall_singleton.
Qed.

Lemma not_shutdown_not_released (tr : list (event Args Result)) :
  Forall not_shutdown tr → ¬ pool_released tr.
Proof.
  intros F Hrel. unfold pool_released in Hrel.
  rewrite Forall_forall in F. by apply F in Hrel.
Qed.

(** C5, amended: whenever [run] returns, closing the event loop was the
    last thing it did, and the executor was not shut down at any time. *)
Theorem run_closes_the_loop_only cpu bears completions (st : State) :
  run cpu bears completions = (Returned, st) →
  (∃ tr, trace st = tr ++ [LoopClose]) ∧ ¬ pool_released (trace st).
Proof.
  intros Hrun. split.
  - unfold run in Hrun.
    destruct (run_forever _ _) as [[] st1]; [|discriminate..].
    injection Hrun as <-. simpl. eauto.
  - apply not_shutdown_not_released.
    pose proof (run_never_shuts_down cpu bears completions) as F.
    by rewrite Hrun in F.
Qed.

(** What the loop does with more completions after those given. *)
Lemma run_forever_app cs more (st : State) :
  run_forever (cs ++ more) st
  = match run_forever cs st with
    | (Returned, st') => (Returned, st')
    | (_, st') => run_forever more st'
    end.
Proof.
  revert st. induction cs as [|t cs IH]; intros st; simpl.
  - case_decide as Hcb; [|done]. by rewrite run_forever_no_callbacks.
  - destruct (callbacks st !! t) as [b|]; [|by apply IH].
    destruct (futures st !! t) as [[b' a]|]; [|by apply IH].
    destruct (stopping (run_callback _ _ _ _)); [done|]. by apply IH.
Qed.

Lemma run_forever_hung cs (st st' : State) :
  run_forever cs st = (Hung, st') → callbacks st' = ∅.
Proof.
  revert st. induction cs as [|t cs IH]; intros st; simpl.
  - case_decide; [by intros [= <-]|done].
  - destruct (callbacks st !! t) as [b|]; [|by apply IH].
    destruct (futures st !! t) as [[b' a]|]; [|by apply IH].
    destruct (stopping (run_callback _ _ _ _)); [done|]. by apply IH.
Qed.

(** A loop found hung stays hung whatever the pool reports later. *)
Lemma run_forever_hung_stable cs more (st st' : State) :
  run_forever cs st = (Hung, st') → run_forever (cs ++ more) st = (Hung, st').
Proof.
  intros Hh. rewrite run_forever_app, Hh.
  apply run_forever_no_callbacks. by eapply run_forever_hung.
Qed.

Lemma run_hung_stable cpu bears cs more (st : State) :
  run cpu bears cs = (Hung, st) → run cpu bears (cs ++ more) = (Hung, st).
Proof.
  unfold run. intros Hh.
  destruct (run_forever cs _) as [[] st1] eqn:Hrf; try discriminate.
  injection Hh as ->. by rewrite (run_forever_hung_stable _ _ _ _ Hrf).
Qed.

(** Bears that are all keys of [dependency_dict] only leave log records. *)
Lemma schedule_bears_all_held_back l (st : State) :
  (∀ b, b ∈ l → in_dependency_dict b st) →
  schedule_bears l st
  = mkState (running_tasks st) (dependency_tracker st) (futures st)
            (callbacks st) (next_task st) (stopping st)
            (trace st ++ ((λ b, Log DEBUG (holding_back_message b)) <$> l)).
Proof.
  revert st. induction l as [|b l IH]; intros st Hall.
  - destruct st. unfold schedule_bears. simpl. by rewrite app_nil_r.
  - unfold schedule_bears in *. simpl. unfold schedule_bear at 2.
    rewrite decide_True by (apply Hall; left).
    rewrite IH.
    + unfold emit. simpl. by rewrite <- app_assoc.
    + intros x Hx. unfold in_dependency_dict, emit. simpl. apply Hall. by right.
Qed.

(** C4: when every bear of the input is held back (in particular when
    there is no bear at all), [run] submits nothing, never stops the loop and
    does not return: [run_forever] waits for completions that cannot come. *)
Theorem run_hangs_when_no_bear_is_ready cpu bears completions :
  let dt := DependencyTracker.add_bear_dependencies dependencies bears
              DependencyTracker.empty in
  (∀ b, b ∈ bears → b ∈ dom (DependencyTracker.dependency_dict dt)) →
  run cpu bears completions
  = (Hung, mkState ∅ dt ∅ ∅ 0 false
             (ExecutorCreate (get_cpu_count cpu)
                :: ((λ b, Log DEBUG (holding_back_message b)) <$> bears))).
Proof.
  intros dt Hall. unfold run. fold dt.
  rewrite schedule_bears_all_held_back by exact Hall.
  by rewrite run_forever_no_callbacks.
Qed.

(** C3: a session without bears has an empty [running_tasks] from start to
    end, and yet [event_loop.stop()] is never called: the only call is at the
    end of [finish_task], and no task ever finishes. *)
Theorem run_of_no_bears_never_stops cpu completions :
  ∃ st : State, run cpu [] completions = (Hung, st) ∧
    running_tasks st = ∅ ∧ stops (trace st) = 0.
Proof.
  eexists. split.
  - unfold run. simpl. by rewrite run_forever_no_callbacks.
  - done.
Qed.

End Sessions.

(** The counterexample of C5: a session of the diamond of bears in which
    [run] returns and the pool has not been released. *)
Lemma run_returns_with_pool_not_released :
  ∃ st, run (B := Samples.diamond) None [0; 1; 2; 3] [0; 1; 2; 3; 4]
        = (Returned, st) ∧ ¬ pool_released (trace st).
Proof.
  eexists. split; [vm_compute; reflexivity|].
  apply not_shutdown_not_released. repeat constructor.
Qed.

(** The witness of C5, amended: the same session. *)
Lemma run_closes_the_loop_only_witness :
  ∃ st, run (B := Samples.diamond) None [0; 1; 2; 3] [0; 1; 2; 3; 4]
        = (Returned, st) ∧
    (∃ tr, trace st = tr ++ [LoopClose]) ∧ ¬ pool_released (trace st).
Proof.
  eexists. split; [vm_compute; reflexivity|].
  apply (run_closes_the_loop_only (B := Samples.diamond)
           None [0; 1; 2; 3] [0; 1; 2; 3; 4]).
  vm_compute. reflexivity.
Defined.

(** The witness of C4: two bears that wait for each other. *)
Lemma run_hangs_when_no_bear_is_ready_witness :
  (run (B := Samples.cyclic) None [0; 1] [0; 1; 2]).1 = Hung.
Proof.
  rewrite (run_hangs_when_no_bear_is_ready (B := Samples.cyclic) None [0; 1]).
  - reflexivity.
  - intros b Hb. apply elem_of_dom.
    apply elem_of_cons in Hb as [->|Hb]; [vm_compute; eauto|].
    apply list_elem_of_singleton in Hb as ->. vm_compute; eauto.
Defined.

(** ** Sessions in which the completion of a bear is missed *)

(** C1: a bear without tasks is entered into [running_tasks] with an empty
    set and gets no done-callback, so [finish_task] never runs for it: the
    bear is never resolved, the bear that waits for it is never submitted,
    and the loop waits forever, whatever the pool reports. *)
Theorem zero_task_bear_is_never_finished cpu completions :
  ∃ st, run (B := Samples.zero_task) cpu [0; 1] completions = (Hung, st) ∧
    running_tasks st = {[0 := ∅]} ∧
    DependencyTracker.dependency_dict (dependency_tracker st) = {[1 := {[0]}]} ∧
    resolutions (trace st) = [] ∧
    submissions (trace st) = [] ∧
    stops (trace st) = 0.
Proof.
  eexists. split.
  - unfold run. rewrite run_forever_no_callbacks; reflexivity.
  - repeat split; vm_compute; reflexivity.
Qed.

(** C2: when [task.result()] raises, the exception leaves [finish_task]
    with the state as it was: nothing catches it, the task stays in
    [running_tasks].  In the session of a faulting bear and an independent
    one, the result of the latter is delivered and the loop then waits
    forever for the faulting bear, whatever the pool reports later. *)
Theorem task_fault_escapes_the_handler :
  (∀ Args Result (B : Bears Args Result) b t msg (st : State Args Result),
     finish_task b t (Raises msg) st = (inl (TaskError msg), st)) ∧
  ∀ more,
    ∃ st, run (B := Samples.faulting) None [0; 1] ([0; 1] ++ more) = (Hung, st) ∧
      trace st = [ExecutorCreate 1;
                  RunInExecutor 0 0 0; Log DEBUG "Scheduled 'A' (tasks: 1).";
                  RunInExecutor 1 1 1; Log DEBUG "Scheduled 'C' (tasks: 1).";
                  CallbackException (TaskError "boom");
                  ResultCallback "result of C"; Resolve 1] ∧
      running_tasks st = {[0 := {[0]}]}.
Proof.
  split; [reflexivity|]. intros more. eexists. split.
  - apply run_hung_stable. vm_compute. reflexivity.
  - split; vm_compute; reflexivity.
Qed.

(** C10: a bear has two tasks in flight and the first one raises.  The
    exception leaves [finish_task] before [running_tasks[bear].remove(task)]:
    after the done-callback of the raising task the bear still has its other
    task in flight, and the handle of the raising task has not been removed
    from the entry of the bear.  The other task is removed when it completes;
    the raising one stays for good, the bear is never resolved and the loop
    waits forever, whatever the pool reports later. *)
Theorem raising_task_keeps_its_handle more :
  (∃ st, run (B := Samples.partly_faulting) None [0] [0] = (Waiting, st) ∧
     trace st = [ExecutorCreate 1;
                 RunInExecutor 0 0 1; RunInExecutor 0 1 2;
                 Log DEBUG "Scheduled 'A' (tasks: 2).";
                 CallbackException (TaskError "boom")] ∧
     running_tasks st = {[0 := {[0; 1]}]}) ∧
  ∃ st, run (B := Samples.partly_faulting) None [0] ([0; 1] ++ more)
        = (Hung, st) ∧
    trace st = [ExecutorCreate 1;
                RunInExecutor 0 0 1; RunInExecutor 0 1 2;
                Log DEBUG "Scheduled 'A' (tasks: 2).";
                CallbackException (TaskError "boom");
                ResultCallback "result"] ∧
    running_tasks st = {[0 := {[0]}]}.
Proof.
  split.
  - eexists. split; [vm_compute; reflexivity|].
    split; vm_compute; reflexivity.
  - eexists. split.
    + apply run_hung_stable. vm_compute. reflexivity.
    + split; vm_compute; reflexivity.
Qed.

(** C7: in the diamond whose bear [C] has no tasks, [A] and [B] are
    resolved, [C] never is, and [D] is never submitted: once the tasks of [A]
    and [B] are done the loop waits forever, whatever the pool reports
    later. *)
Theorem idle_bear_blocks_the_diamond more :
  ∃ st, run (B := Samples.idle_diamond) None [0; 1; 2; 3] ([0; 1; 2] ++ more)
        = (Hung, st) ∧
    submissions (trace st) = [0; 1; 1] ∧
    resolutions (trace st) = [0; 1] ∧
    running_tasks st = {[2 := ∅]} ∧
    DependencyTracker.dependency_dict (dependency_tracker st) = {[3 := {[2]}]}.
Proof.
  eexists. split.
  - apply run_hung_stable. vm_compute. reflexivity.
  - repeat split; vm_compute; reflexivity.
Qed.

(** The diamond with work for every bear: [D] is submitted once, after [B]
    and [C] were resolved, in both orders of completion of [B] and [C]. *)
Lemma diamond_B_then_C :
  ∃ st, run (B := Samples.diamond) None [0; 1; 2; 3] [0; 2; 3; 1; 4]
        = (Returned, st) ∧
    scheduling_order (trace st)
    = [inl 0; inr 0; inl 2; inl 1; inl 1; inr 1; inr 2; inl 3; inr 3].
Proof. eexists. split; vm_compute; reflexivity. Qed.

Lemma diamond_C_then_B :
  ∃ st, run (B := Samples.diamond) None [0; 1; 2; 3] [0; 1; 3; 2; 4]
        = (Returned, st) ∧
    scheduling_order (trace st)
    = [inl 0; inr 0; inl 2; inl 1; inl 1; inr 2; inr 1; inl 3; inr 3].
Proof. eexists. split; vm_compute; reflexivity. Qed.

(** ** Submission waits for the dependencies *)

Section Ordering.
Context {Args Result : Type} `{B : Bears Args Result}.
Variable bears : list bear.

Abbreviation State := (State Args Result).
Abbreviation ordered_trace :=
  (submitted_after_dependencies (Args := Args) (Result := Result)
     dependencies bears).

Lemma ordered_trace_app (tr rest : list (event Args Result)) :
  ordered_trace tr →
  (∀ b t a, RunInExecutor b t a ∈ rest →
            ∀ d, d ∈ dependencies b → d ∈ bears → Resolve d ∈ tr) →
  ordered_trace (tr ++ rest).
Proof.
  intros Htr Hrest pre b t a post Heq d Hd Hin.
  apply app_eq_app in Heq as [l [[-> Hl]|[-> Hl]]].
  - destruct l as [|e l].
    + rewrite app_nil_r in *. apply (Hrest b t a); [|done..].
      simpl in Hl. rewrite <- Hl. left.
    + simpl in Hl. injection Hl as <- _.
      by eapply (Htr pre b t a).
  - apply elem_of_app. left. apply (Hrest b t a); [|done..].
    rewrite Hl. apply elem_of_app. right. left.
Qed.

Lemma ordered_trace_quiet (tr rest : list (event Args Result)) :
  ordered_trace tr → (∀ b t a, RunInExecutor b t a ∉ rest) →
  ordered_trace (tr ++ rest).
Proof.
  intros Htr Hq. apply ordered_trace_app; [done|].
  intros b t a Hel. by apply Hq in Hel.
Qed.

(** The invariant only looks at the graph and the trace, and survives
    calls that submit nothing. *)
Lemma ordered_quiet (st st' : State) rest :
  ordered bears st →
  DependencyTracker.dependency_dict (dependency_tracker st')
  = DependencyTracker.dependency_dict (dependency_tracker st) →
  trace st' = trace st ++ rest →
  (∀ b t a, RunInExecutor b t a ∉ rest) →
  ordered bears st'.
Proof.
  intros (J & K & O) Hd Htr Hq. split; [|split].
  - intros b d Hb Hdep Hin. rewrite Hd, Htr.
    destruct (J b d Hb Hdep Hin) as [Hres|Hkept]; [left|by right].
    apply elem_of_app. by left.
  - intros b. unfold in_dependency_dict. rewrite Hd. apply K.
  - rewrite Htr. by apply ordered_trace_quiet.
Qed.

Lemma schedule_bears_ordered l (st : State) :
  ordered bears st → (∀ b, b ∈ l → b ∈ bears) →
  ordered bears (schedule_bears l st).
Proof.
  intros (J & K & O) Hl.
  destruct (schedule_bears_trace l st) as (rest & Htr & _ & Hsub).
  destruct (schedule_bears_frame l st) as [Hdt _].
  split; [|split].
  - intros b d Hb Hdep Hin. rewrite Hdt, Htr.
    destruct (J b d Hb Hdep Hin) as [Hres|Hkept]; [left|by right].
    apply elem_of_app. by left.
  - intros b. unfold in_dependency_dict. rewrite Hdt. apply K.
  - rewrite Htr. apply ordered_trace_app; [done|].
    intros b t a Hel d Hdep Hin. apply Hsub in Hel as [Hb Hfree].
    destruct (J b d (Hl b Hb) Hdep Hin) as [Hres|(s & Hs & _)]; [done|].
    exfalso. apply Hfree. unfold in_dependency_dict.
    apply elem_of_dom. eauto.
Qed.

Lemma results_quiet (rs : list Result) b t (a : Args) :
  RunInExecutor b t a ∉ (ResultCallback <$> rs).
Proof. intros Hel. apply list_elem_of_fmap in Hel as (r & Heq & _). done. Qed.

Lemma run_callback_ordered b t res (st : State) :
  ordered bears st → ordered bears (run_callback b t res st).
Proof.
  intros Hord. unfold run_callback.
  finish_task_paths b t res st.
  - (* the tracker refuses *)
    eapply (ordered_quiet st _ ((ResultCallback <$> rs) ++ [Resolve b]
                                 ++ [CallbackException e])); [done|done| |].
    + simpl. by rewrite <- !app_assoc.
    + intros b0 t0 a0 Hel. apply elem_of_app in Hel as [Hel|Hel].
      * by apply results_quiet in Hel.
      * apply elem_of_cons in Hel as [?|Hel]; [done|].
        by apply list_elem_of_singleton in Hel.
  - (* the bear is resolved *)
    apply TrackerFacts.resolve_inv in Hr as (_ & _ & -> & Hdict & _ & _).
    match goal with |- context [schedule_bears ?l ?s] => set (st2 := s) end.
    assert (ordered bears st2) as Hord2.
    { destruct Hord as (J & K & O). split; [|split].
      - intros x d Hx Hdep Hin. subst st2. simpl. rewrite Hdict.
        destruct (J x d Hx Hdep Hin) as [Hres|(s & Hs & Hds)].
        { left. rewrite <- app_assoc. apply elem_of_app. by left. }
        destruct (decide (d = b)) as [->|Hne].
        { left. apply elem_of_app. right. left. }
        right. rewrite TrackerFacts.lookup_without, Hs. simpl.
        destruct (decide (x ≠ b ∧ b ∈ s)) as [Hc|Hc]; [|eauto].
        rewrite decide_False by set_solver.
        eexists. split; [done|]. set_solver.
      - intros x. unfold in_dependency_dict. subst st2. simpl. rewrite Hdict.
        rewrite elem_of_dom, TrackerFacts.lookup_without.
        intros [s' Hs']. apply K. unfold in_dependency_dict.
        apply elem_of_dom.
        destruct (DependencyTracker.dependency_dict (dependency_tracker st) !! x);
          [eauto|done].
      - subst st2. simpl. rewrite <- app_assoc.
        apply ordered_trace_quiet; [done|].
        intros b0 t0 a0 Hel. apply elem_of_app in Hel as [Hel|Hel].
        + by apply results_quiet in Hel.
        + by apply list_elem_of_singleton in Hel. }
    assert (ordered bears
              (schedule_bears
                 (elements (DependencyTracker.newly_ready b
                    (DependencyTracker.dependency_dict (dependency_tracker st))))
                 st2)) as Hord3.
    { apply schedule_bears_ordered; [done|].
      intros x Hx. apply elem_of_elements in Hx.
      apply TrackerFacts.elem_of_newly_ready in Hx as (s & Hs & _).
      destruct Hord as (_ & K & _). apply K. unfold in_dependency_dict.
      apply elem_of_dom. eauto. }
    case_decide; simpl.
    + eapply (ordered_quiet _ _ [LoopStop]); [exact Hord3|done|done|].
      intros b0 t0 a0 Hel. by apply list_elem_of_singleton in Hel.
    + eapply (ordered_quiet _ _ []); [exact Hord3|done|by rewrite app_nil_r|].
      intros b0 t0 a0 Hel. by apply elem_of_nil in Hel.
  - eapply (ordered_quiet st _ (ResultCallback <$> rs)); [done|done|done|].
    intros ???. apply results_quiet.
  - eapply (ordered_quiet st _ ((ResultCallback <$> rs) ++ [CallbackException KeyError]));
      [done|done|by simpl; rewrite <- app_assoc|].
    intros b0 t0 a0 Hel. apply elem_of_app in Hel as [Hel|Hel].
    + by apply results_quiet in Hel.
    + by apply list_elem_of_singleton in Hel.
  - eapply (ordered_quiet st _ ((ResultCallback <$> rs) ++ [CallbackException KeyError]));
      [done|done|by simpl; rewrite <- app_assoc|].
    intros b0 t0 a0 Hel. apply elem_of_app in Hel as [Hel|Hel].
    + by apply results_quiet in Hel.
    + by apply list_elem_of_singleton in Hel.
  - eapply (ordered_quiet st _ [CallbackException (TaskError msg)]); [done..|].
    intros b0 t0 a0 Hel. by apply list_elem_of_singleton in Hel.
Qed.

(** The invariant holds when [run] has built the graph. *)
Lemma initial_ordered n :
  ordered bears
    (initial (DependencyTracker.add_bear_dependencies dependencies bears
                DependencyTracker.empty) n).
Proof.
  split; [|split].
  - intros b d Hb Hdep Hin. right. simpl.
    rewrite TrackerFacts.add_bear_dependencies_lookup.
    assert (d ∈ DependencyTracker.declared_within dependencies bears b) as Hd
      by by apply TrackerFacts.elem_of_declared_within.
    rewrite decide_True by set_solver. eauto.
  - intros b. unfold in_dependency_dict. simpl.
    rewrite elem_of_dom, TrackerFacts.add_bear_dependencies_lookup.
    case_decide as Hc; [tauto|by intros [? ?]].
  - intros pre b t a post Heq. simpl in Heq. exfalso.
    assert (RunInExecutor b t a ∈ [ExecutorCreate (Args := Args) (Result := Result) n])
      as Hel by (rewrite Heq; apply elem_of_app; right; left).
    by apply list_elem_of_singleton in Hel.
Qed.

(** The invariant holds at the end of every session. *)
Lemma run_ordered cpu completions :
  ordered bears (run cpu bears completions).2.
Proof.
  unfold run.
  match goal with |- context [run_forever _ ?s] => set (st0 := s) end.
  assert (ordered bears (run_forever completions st0).2) as Hord.
  { apply (run_forever_invariant (ordered bears)).
    - intros st t b res Hord _. apply run_callback_ordered.
      by eapply (ordered_quiet st _ []); [done|done|by rewrite app_nil_r|];
        intros ??? Hel; apply elem_of_nil in Hel.
    - apply schedule_bears_ordered; [apply initial_ordered|done]. }
  destruct (run_forever completions st0) as [[] st1]; simpl in *; try done.
  eapply (ordered_quiet st1 _ [LoopClose]); [done|done|done|].
  intros ??? Hel. by apply list_elem_of_singleton in Hel.
Qed.

(** C6: in every session, whatever the order of completions and however
    the loop ends, every task handed to the pool belongs to a bear all of
    whose declared dependencies within the input were resolved before; a bear
    that is still a key of [dependency_dict] when [schedule_bears] meets it
    gets a debug record and no task. *)
Theorem no_submission_before_dependencies cpu completions :
  submitted_after_dependencies dependencies bears
    (trace (run cpu bears completions).2) ∧
  ∀ (st : State) b, in_dependency_dict b st →
    schedule_bears [b] st = emit (Log DEBUG (holding_back_message b)) st.
Proof.
  split.
  - apply run_ordered.
  - intros st b Hin. unfold schedule_bears, schedule_bear. simpl.
    by rewrite decide_True.
Qed.

(** A bear that declares a dependency within the input that was never
    resolved had no task handed to the pool. *)
Lemma unresolved_dependency_blocks cpu completions b d t (a : Args) :
  d ∈ dependencies b → d ∈ bears →
  Resolve d ∉ trace (run cpu bears completions).2 →
  RunInExecutor b t a ∉ trace (run cpu bears completions).2.
Proof.
  intros Hdep Hin Hnot Hel.
  destruct (run_ordered cpu completions) as (_ & _ & O).
  apply list_elem_of_split in Hel as (pre & post & Heq).
  apply Hnot. rewrite Heq. apply elem_of_app. left.
  by eapply (O pre b t a post).
Qed.

End Ordering.

(** The witness of C6: a session of the diamond, and bear [D] met by
    [schedule_bears] while it still waits for [B] and [C]. *)
Lemma no_submission_before_dependencies_witness :
  let st0 := initial (DependencyTracker.add_bear_dependencies
                        (dependencies (Bears := Samples.diamond)) [0; 1; 2; 3]
                        DependencyTracker.empty) 1 in
  submitted_after_dependencies (dependencies (Bears := Samples.diamond))
    [0; 1; 2; 3]
    (trace (run (B := Samples.diamond) None [0; 1; 2; 3] [0; 2; 3; 1; 4]).2) ∧
  schedule_bears (B := Samples.diamond) [3] st0
  = emit (Log DEBUG "Dependencies for 'D' not yet resolved. Holding back.") st0.
Proof.
  intros st0.
  destruct (no_submission_before_dependencies (B := Samples.diamond)
              [0; 1; 2; 3] None [0; 2; 3; 1; 4]) as [H1 H2].
  split; [exact H1|]. apply (H2 st0 3).
  apply elem_of_dom. vm_compute. eauto.
Defined.

(** ** Stopping the loop *)

Section Stopping.
Context {Args Result : Type} `{B : Bears Args Result}.

Abbreviation State := (State Args Result).

Lemma stops_app (tr1 tr2 : list (event Args Result)) :
  stops (tr1 ++ tr2) = stops tr1 + stops tr2.
Proof. unfold stops. by rewrite omap_app, length_app. Qed.

Lemma stops_quiet (tr : list (event Args Result)) :
  Forall (λ e, e ≠ LoopStop) tr → stops tr = 0.
Proof.
  unfold stops. induction 1 as [|e tr He _ IH]; [done|].
  destruct e; simpl in *; done.
Qed.

Lemma stops_results (rs : list Result) :
  stops (Args := Args) (ResultCallback <$> rs) = 0.
Proof. apply stops_quiet, Forall_fmap, Forall_true. done. Qed.

Lemma stops_scheduling (tr : list (event Args Result)) :
  Forall is_scheduling tr → stops tr = 0.
Proof.
  intros F. apply stops_quiet. eapply Forall_impl; [exact F|].
  by intros [].
Qed.

(** One call of the handler on a loop that is not stopped: either it
    returns normally with [running_tasks] empty and has stopped the loop,
    by one call of [stop]; or the loop is not stopped, [stop] was not called,
    and if the handler returned normally something is still running. *)
Lemma finish_task_stops_iff_nothing_runs b t res (st : State) :
  stopping st = false →
  let r := (finish_task b t res st).1 in
  let st' := (finish_task b t res st).2 in
  (r = inr tt ∧ running_tasks st' = ∅ ∧ stopping st' = true ∧
   stops (trace st') = S (stops (trace st))) ∨
  ((r = inr tt → running_tasks st' ≠ ∅) ∧ stopping st' = false ∧
   stops (trace st') = stops (trace st)).
Proof.
  intros Hs. finish_task_paths b t res st; simpl.
  - right. rewrite !stops_app, stops_results. simpl. split; [done|].
    split; [done|]. unfold stops. simpl. lia.
  - match goal with |- context [schedule_bears ?l ?s] =>
      destruct (schedule_bears_trace l s) as (rest & Htr & F & _);
      destruct (schedule_bears_frame l s) as [_ Hst]
    end.
    simpl in Htr, Hst.
    assert (stops rest = 0) as Hrest by by apply stops_scheduling.
    case_decide as Hempty; simpl.
    + left. rewrite Htr, !stops_app, stops_results, Hrest.
      split; [done|]. split; [done|]. split; [done|]. unfold stops. simpl. lia.
    + right. rewrite Htr, Hst, !stops_app, stops_results, Hrest.
      split; [done|]. split; [done|]. unfold stops. simpl. lia.
  - right. rewrite stops_app, stops_results. split; [|split; [done|lia]].
    intros _ Hempty. apply (f_equal (λ m, m !! b)) in Hempty.
    by rewrite lookup_insert_eq, lookup_empty in Hempty.
  - right. rewrite stops_app, stops_results. split; [done|]. split; [done|lia].
  - right. rewrite stops_app, stops_results. split; [done|]. split; [done|lia].
  - right. done.
Qed.

Lemma run_callback_stops b t res (st : State) :
  stopping st = false →
  let st' := run_callback b t res st in
  (running_tasks st' = ∅ ∧ stopping st' = true ∧
   stops (trace st') = S (stops (trace st))) ∨
  (stopping st' = false ∧ stops (trace st') = stops (trace st)).
Proof.
  intros Hs. unfold run_callback.
  pose proof (finish_task_stops_iff_nothing_runs b t res st Hs) as Hft.
  destruct (finish_task b t res st) as [[e|[]] st1]; simpl in *.
  - right. destruct Hft as [(? & _)|(_ & ? & ?)]; [done|].
    split; [done|]. rewrite stops_app. unfold stops at 2. simpl. lia.
  - destruct Hft as [(_ & ? & ? & ?)|(_ & ? & ?)]; [by left|by right].
Qed.

(** The loop returns exactly when [stop] was called, which happens at most
    once, and then nothing is running. *)
Lemma run_forever_stops completions (st : State) :
  stopping st = false →
  let o := (run_forever completions st).1 in
  let st' := (run_forever completions st).2 in
  (o = Returned ∧ running_tasks st' = ∅ ∧
   stops (trace st') = S (stops (trace st))) ∨
  (o ≠ Returned ∧ stopping st' = false ∧ stops (trace st') = stops (trace st)).
Proof.
  revert st. induction completions as [|t cs IH]; intros st Hs; simpl.
  - right. by case_decide.
  - destruct (callbacks st !! t) as [b|]; [|by apply IH].
    destruct (futures st !! t) as [[b' a]|]; [|by apply IH].
    destruct (run_callback_stops b t (analyze b' a) (take_callback t st) Hs)
      as [(He & Hst & Hn)|(Hst & Hn)]; rewrite Hst; simpl.
    + left. done.
    + simpl in Hn. specialize (IH _ Hst). simpl in IH. rewrite Hn in IH.
      exact IH.
Qed.

(** In every session [event_loop.stop()] is called once if [run] returns
    and not at all otherwise. *)
Lemma run_stops_at_most_once cpu bears completions :
  stops (trace (run cpu bears completions).2)
  = match (run cpu bears completions).1 with Returned => 1 | _ => 0 end.
Proof.
  unfold run.
  match goal with |- context [run_forever _ ?s] => set (st0 := s) end.
  assert (stopping st0 = false) as Hs.
  { subst st0. by rewrite (proj2 (schedule_bears_frame _ _)). }
  assert (stops (trace st0) = 0) as H0.
  { subst st0. destruct (schedule_bears_trace bears
      (initial (DependencyTracker.add_bear_dependencies dependencies bears
                  DependencyTracker.empty) (get_cpu_count cpu)))
      as (rest & -> & F & _).
    rewrite stops_app, (stops_scheduling rest F). done. }
  pose proof (run_forever_stops completions st0 Hs) as Hrf. simpl in Hrf.
  destruct (run_forever completions st0) as [o st1]. simpl in *.
  destruct Hrf as [(-> & _ & Hn)|(Ho & _ & Hn)].
  - simpl. rewrite stops_app, Hn, H0. done.
  - destruct o; [done|simpl; lia..].
Qed.

End Stopping.

(** ** Bears without tasks *)

Section Idle.
Context {Args Result : Type} `{B : Bears Args Result}.

Abbreviation State := (State Args Result).

Lemma add_done_callbacks_lookup b ts (st : State) t :
  callbacks (add_done_callbacks b ts st) !! t
  = if decide (t ∈ ts) then Some b else callbacks st !! t.
Proof.
  unfold add_done_callbacks. cbn [callbacks].
  pose (P := λ (cbs : gmap task bear) (X : gset task),
          cbs !! t = if decide (t ∈ X) then Some b else callbacks st !! t).
  apply (set_fold_ind_L P); unfold P.
  - rewrite decide_False; [done|]. apply not_elem_of_empty.
  - intros x X r Hx IH. destruct (decide (x = t)) as [->|Hne].
    + rewrite lookup_insert_eq, decide_True; [done|]. set_solver.
    + rewrite lookup_insert_ne by done. rewrite IH.
      destruct (decide (t ∈ X)).
      * rewrite decide_True; [done|]. set_solver.
      * rewrite decide_False; [done|]. set_solver.
Qed.

Variable idle : bear.
Hypothesis no_tasks : generate_tasks idle = [].

Abbreviation no_callback := (no_callback (Args := Args) (Result := Result) idle).

Lemma schedule_bear_no_callback (st : State) b :
  no_callback st → no_callback (schedule_bear st b).
Proof using no_tasks.
  intros Hno t. unfold schedule_bear. case_decide; [apply Hno|].
  pose proof (submit_all_frame b (generate_tasks b) st) as (_ & _ & Hcb & _).
  pose proof (submit_all_handles b (generate_tasks b) st t) as Hh.
  destruct (submit_all b (generate_tasks b) st) as [ts st1]. simpl in *.
  pose proof (add_done_callbacks_lookup b ts
                (set_running_tasks (<[b:=ts]> (running_tasks st1)) st1) t) as Hl.
  simpl in Hl. rewrite Hl, Hcb. case_decide as Hin; [|apply Hno].
  intros [= ->]. rewrite no_tasks in Hh. simpl in Hh.
  apply Hh in Hin. lia.
Qed.

Lemma schedule_bears_no_callback l (st : State) :
  no_callback st → no_callback (schedule_bears l st).
Proof using no_tasks.
  revert st. induction l as [|b l IH]; intros st Hno; [done|].
  unfold schedule_bears in *. simpl. by apply IH, schedule_bear_no_callback.
Qed.

Lemma run_callback_no_callback b t res (st : State) :
  no_callback st → no_callback (run_callback b t res st).
Proof using no_tasks.
  intros Hno. unfold run_callback.
  finish_task_paths b t res st; try exact Hno.
  case_decide; simpl; by apply schedule_bears_no_callback.
Qed.

Lemma run_callback_not_resolved b t res (st : State) :
  b ≠ idle → Resolve idle ∉ trace st →
  Resolve idle ∉ trace (run_callback b t res st).
Proof.
  intros Hne Hnot. unfold run_callback.
  destruct (finish_task_trace b t res st) as (rest & Htr & F).
  assert (Resolve idle ∉ trace (finish_task b t res st).2) as Hnot'.
  { rewrite Htr. intros Hel.
    apply elem_of_app in Hel as [Hel|Hel]; [done|].
    apply elem_of_app in Hel as [Hel|Hel].
    - apply list_elem_of_fmap in Hel as (r & Heq & _). done.
    - rewrite Forall_forall in F. apply F in Hel as [Hs|[Heq|Heq]]; [done| |done].
      by injection Heq. }
  destruct (finish_task b t res st) as [[e|[]] st1]; simpl in *; [|done].
  intros Hel. apply elem_of_app in Hel as [Hel|Hel]; [done|].
  by apply list_elem_of_singleton in Hel.
Qed.

(** In no session is a bear without tasks handed to
    [dependency_tracker.resolve]: [finish_task] is the only caller, and it
    runs for the bear of a done-callback. *)
Lemma bear_without_tasks_is_never_resolved cpu bears completions :
  Resolve idle ∉ trace (run cpu bears completions).2.
Proof using no_tasks.
  unfold run.
  match goal with |- context [run_forever _ ?s] => set (st0 := s) end.
  assert (no_callback (run_forever completions st0).2 ∧
          Resolve idle ∉ trace (run_forever completions st0).2) as [_ Hnot].
  { apply (run_forever_invariant
             (λ st, no_callback st ∧ Resolve idle ∉ trace st)).
    - intros st t b res [Hno Hnot] Hcb. split.
      + apply run_callback_no_callback. intros t'. simpl.
        destruct (decide (t = t')) as [->|Hne].
        * by rewrite lookup_delete_eq.
        * rewrite lookup_delete_ne by done. apply Hno.
      + apply run_callback_not_resolved; [|done].
        intros ->. by apply (Hno t).
    - split.
      + apply schedule_bears_no_callback. intros t. simpl.
        by rewrite lookup_empty.
      + destruct (schedule_bears_trace bears
          (initial (DependencyTracker.add_bear_dependencies dependencies bears
                      DependencyTracker.empty) (get_cpu_count cpu)))
          as (rest & Htr & F & _).
        subst st0. rewrite Htr. simpl. intros Hel.
        apply elem_of_cons in Hel as [?|Hel]; [done|].
        rewrite Forall_forall in F. by apply F in Hel. }
  destruct (run_forever completions st0) as [[] st1]; simpl in *; try done.
  intros Hel. apply elem_of_app in Hel as [Hel|Hel]; [done|].
  by apply list_elem_of_singleton in Hel.
Qed.

(** So a bear of the input that declares a bear without tasks, also of the
    input, as a dependency never has a task handed to the pool. *)
Lemma dependants_of_idle_bear_never_run cpu bears completions b t (a : Args) :
  idle ∈ dependencies b → idle ∈ bears →
  RunInExecutor b t a ∉ trace (run cpu bears completions).2.
Proof using no_tasks.
  intros Hdep Hin.
  apply (unresolved_dependency_blocks bears cpu completions b idle); [done..|].
  apply bear_without_tasks_is_never_resolved.
Qed.

End Idle.

(** ** Counting submissions and resolutions *)

Section Counting.
Context {Args Result : Type}.

Abbreviation event := (event Args Result).

Lemma times_app b l1 l2 : times b (l1 ++ l2) = times b l1 + times b l2.
Proof. unfold times. by rewrite filter_app, length_app. Qed.

Lemma times_replicate b x n :
  times b (replicate n x) = if decide (x = b) then n else 0.
Proof.
  unfold times. induction n as [|n IH]; simpl.
  - by case_decide.
  - rewrite filter_cons. destruct (decide (x = b)); simpl; by rewrite IH.
Qed.

Lemma times_elem_of b l : 0 < times b l ↔ b ∈ l.
Proof.
  unfold times. induction l as [|x l IH]; simpl.
  - split; [lia|]. intros H. by apply elem_of_nil in H.
  - rewrite filter_cons, elem_of_cons. destruct (decide (x = b)); simpl.
    + split; [auto|lia].
    + rewrite IH. split; [auto|]. intros [?|?]; [congruence|done].
Qed.

Lemma times_not_elem_of b l : b ∉ l → times b l = 0.
Proof. rewrite <- times_elem_of. lia. Qed.

Lemma times_NoDup b l : NoDup l → b ∈ l → times b l = 1.
Proof.
  induction 1 as [|x l Hx Hnd IH]; intros Hb.
  - by apply elem_of_nil in Hb.
  - change (x :: l) with ([x] ++ l). rewrite times_app.
    unfold times at 1. simpl. rewrite filter_cons, filter_nil.
    destruct (decide (x = b)) as [->|Hne]; simpl.
    + by rewrite times_not_elem_of.
    + apply IH. apply elem_of_cons in Hb as [?|?]; [congruence|done].
Qed.

Lemma submissions_app (tr1 tr2 : list event) :
  submissions (tr1 ++ tr2) = submissions tr1 ++ submissions tr2.
Proof. apply omap_app. Qed.

Lemma resolutions_app (tr1 tr2 : list event) :
  resolutions (tr1 ++ tr2) = resolutions tr1 ++ resolutions tr2.
Proof. apply omap_app. Qed.

Lemma submissions_results (rs : list Result) :
  submissions (Args := Args) (ResultCallback <$> rs) = [].
Proof. unfold submissions. induction rs as [|r rs IH]; [done|]. by simpl. Qed.

Lemma resolutions_results (rs : list Result) :
  resolutions (Args := Args) (ResultCallback <$> rs) = [].
Proof. unfold resolutions. induction rs as [|r rs IH]; [done|]. by simpl. Qed.

Lemma resolutions_scheduling (tr : list event) :
  Forall is_scheduling tr → resolutions tr = [].
Proof.
  unfold resolutions. induction 1 as [|e tr He _ IH]; [done|].
  destruct e; simpl in *; done.
Qed.

End Counting.

(** ** What schedule_bears does to a bear that is ready *)

Section Submission.
Context {Args Result : Type} `{B : Bears Args Result}.

Abbreviation State := (State Args Result).

Lemma submit_all_futures_old b args (st : State) t :
  t < next_task st →
  futures (submit_all b args st).2 !! t = futures st !! t.
Proof.
  revert st. induction args as [|a args IH]; intros st Ht; [done|].
  simpl. specialize (IH (run_in_executor b a st).2).
  destruct (submit_all b args _) as [ts st2] eqn:E. simpl in *.
  rewrite IH by lia. apply lookup_insert_ne. lia.
Qed.

Lemma submit_all_futures_new b args (st : State) t :
  t ∈ (submit_all b args st).1 →
  ∃ a, futures (submit_all b args st).2 !! t = Some (b, a).
Proof.
  revert st. induction args as [|a args IH]; intros st; simpl.
  - intros Ht. by apply elem_of_empty in Ht.
  - pose proof (submit_all_futures_old b args (run_in_executor b a st).2 t) as Hold.
    specialize (IH (run_in_executor b a st).2).
    destruct (submit_all b args _) as [ts st2] eqn:E. simpl in *.
    intros Ht. apply elem_of_union in Ht as [Ht|Ht]; [|by apply IH].
    apply elem_of_singleton in Ht as ->. exists a.
    rewrite Hold by lia. apply lookup_insert_eq.
Qed.

Lemma submit_all_submissions b args (st : State) :
  submissions (trace (submit_all b args st).2)
  = submissions (trace st) ++ replicate (length args) b.
Proof.
  rewrite submit_all_trace, submissions_app. f_equal.
  generalize (next_task st). induction args as [|a args IH]; intros n; [done|].
  rewrite imap_cons. cbn [length replicate].
  change (b :: submissions (imap ((λ i a, RunInExecutor (Result := Result)
                                           b (n + i) a) ∘ S) args)
          = b :: replicate (length args) b).
  f_equal. rewrite <- (IH (S n)). f_equal.
  apply imap_ext. intros i x _. simpl. f_equal. lia.
Qed.

Lemma submit_all_resolutions b args (st : State) :
  resolutions (trace (submit_all b args st).2) = resolutions (trace st).
Proof.
  rewrite submit_all_trace, resolutions_app.
  rewrite (resolutions_scheduling (imap _ _)); [by rewrite app_nil_r|].
  apply Forall_forall. intros e He.
  apply elem_of_lookup_imap in He as (i & a & -> & _). done.
Qed.

(** [submit_all] does not read [running_tasks]. *)
Lemma submit_all_set_running_tasks b args rt (st : State) :
  submit_all b args (set_running_tasks rt st)
  = ((submit_all b args st).1, set_running_tasks rt (submit_all b args st).2).
Proof.
  revert st. induction args as [|a args IH]; intros st; [done|].
  cbn [submit_all].
  change (run_in_executor b a (set_running_tasks rt st))
    with ((run_in_executor b a st).1,
          set_running_tasks rt (run_in_executor b a st).2).
  cbv beta iota. rewrite IH.
  unfold run_in_executor. cbv beta iota zeta. cbn [fst snd].
  by destruct (submit_all b args _).
Qed.

End Submission.

Section ScheduleReady.
Context {Args Result : Type} `{B : Bears Args Result}.

Abbreviation State := (State Args Result).

Lemma schedule_bear_held_back (st : State) x :
  in_dependency_dict x st →
  schedule_bear st x = emit (Log DEBUG (holding_back_message x)) st.
Proof. intros Hin. unfold schedule_bear. by rewrite decide_True. Qed.

(** What [schedule_bears] does with a bear that is not held back. *)
Lemma schedule_bear_submits (st : State) x :
  ¬ in_dependency_dict x st →
  let ts := (submit_all x (generate_tasks x) st).1 in
  let st' := schedule_bear st x in
  running_tasks st' = <[x := ts]> (running_tasks st) ∧
  dependency_tracker st' = dependency_tracker st ∧
  (∀ t, callbacks st' !! t
        = if decide (t ∈ ts) then Some x else callbacks st !! t) ∧
  (∀ t, t ∈ ts ↔
        next_task st ≤ t < next_task st + length (generate_tasks x)) ∧
  (∀ t, t < next_task st → futures st' !! t = futures st !! t) ∧
  (∀ t, t ∈ ts → ∃ a, futures st' !! t = Some (x, a)) ∧
  next_task st' = next_task st + length (generate_tasks x) ∧
  submissions (trace st')
  = submissions (trace st) ++ replicate (length (generate_tasks x)) x ∧
  resolutions (trace st') = resolutions (trace st).
Proof.
  intros Hfree ts st'. subst ts st'. unfold schedule_bear.
  rewrite decide_False by done.
  pose proof (submit_all_frame x (generate_tasks x) st) as (Hrt & Hdt & Hcb & _).
  pose proof (submit_all_handles x (generate_tasks x) st) as Hh.
  pose proof (submit_all_futures_old x (generate_tasks x) st) as Hfo.
  pose proof (submit_all_futures_new x (generate_tasks x) st) as Hfn.
  pose proof (submit_all_next_task x (generate_tasks x) st) as Hnx.
  pose proof (submit_all_submissions x (generate_tasks x) st) as Hsub.
  pose proof (submit_all_resolutions x (generate_tasks x) st) as Hres.
  destruct (submit_all x (generate_tasks x) st) as [ts st1]. simpl in *.
  split; [by rewrite Hrt|]. split; [done|]. split.
  { intros t.
    pose proof (add_done_callbacks_lookup x ts
                  (set_running_tasks (<[x:=ts]> (running_tasks st1)) st1) t) as Hl.
    simpl in Hl. by rewrite Hl, Hcb. }
  split; [done|]. split; [done|]. split; [done|]. split; [done|]. split.
  - rewrite submissions_app, Hsub. unfold submissions at 3. simpl.
    by rewrite app_nil_r.
  - rewrite resolutions_app, Hres. unfold resolutions at 2. simpl.
    by rewrite app_nil_r.
Qed.

(** Deleting the entry of a bear that is not scheduled commutes with
    scheduling. *)
Lemma schedule_bear_delete (st : State) x b :
  x ≠ b →
  set_running_tasks (delete b (running_tasks (schedule_bear st x)))
    (schedule_bear st x)
  = schedule_bear (set_running_tasks (delete b (running_tasks st)) st) x.
Proof.
  intros Hne. unfold schedule_bear.
  change (in_dependency_dict x
            (set_running_tasks (delete b (running_tasks st)) st))
    with (in_dependency_dict x st).
  destruct (decide (in_dependency_dict x st)); [reflexivity|].
  rewrite submit_all_set_running_tasks.
  pose proof (submit_all_frame x (generate_tasks x) st) as (Hrt & _).
  destruct (submit_all x (generate_tasks x) st) as [ts st1]. simpl in *.
  unfold emit, add_done_callbacks, set_running_tasks. simpl.
  by rewrite Hrt, delete_insert_ne.
Qed.

Lemma schedule_bears_delete l (st : State) b :
  b ∉ l →
  set_running_tasks (delete b (running_tasks (schedule_bears l st)))
    (schedule_bears l st)
  = schedule_bears l (set_running_tasks (delete b (running_tasks st)) st).
Proof.
  revert st. induction l as [|x l IH]; intros st Hb; [done|].
  unfold schedule_bears in *. simpl.
  rewrite IH by (intros ?; apply Hb; by right).
  rewrite schedule_bear_delete; [done|]. intros ->. apply Hb. left.
Qed.

End ScheduleReady.

Lemma nonempty_elem_of {A} (l : list A) : l ≠ [] → ∃ x, x ∈ l.
Proof. destruct l as [|x l]; [done|]. intros _. exists x. left. Qed.

(** ** The work behind the handles *)

Section GeneratedWork.
Context {Args Result : Type} `{B : Bears Args Result}.

Abbreviation State := (State Args Result).

Lemma submit_all_work_generated b args (st : State) :
  (∀ a, a ∈ args → a ∈ generate_tasks b) →
  work_generated st → work_generated (submit_all b args st).2.
Proof.
  revert st. induction args as [|a args IH]; intros st Hargs Hg; [done|].
  simpl. specialize (IH (run_in_executor b a st).2).
  destruct (submit_all b args _) as [ts st2] eqn:E. simpl in *.
  apply IH.
  - intros a' Ha'. apply Hargs. by right.
  - intros t b' a'. simpl. destruct (decide (next_task st = t)) as [<-|Hne].
    + rewrite lookup_insert_eq. intros [= <- <-]. apply Hargs. left.
    + rewrite lookup_insert_ne by done. apply Hg.
Qed.

Lemma schedule_bear_work_generated (st : State) b :
  work_generated st → work_generated (schedule_bear st b).
Proof.
  intros Hg. unfold schedule_bear. case_decide; [done|].
  pose proof (submit_all_work_generated b (generate_tasks b) st
                (λ _ H, H) Hg) as Hg'.
  destruct (submit_all b (generate_tasks b) st) as [ts st1]. simpl in *.
  exact Hg'.
Qed.

Lemma schedule_bears_work_generated l (st : State) :
  work_generated st → work_generated (schedule_bears l st).
Proof.
  revert st. induction l as [|b l IH]; intros st Hg; [done|].
  unfold schedule_bears in *. cbn [foldl].
  by apply IH, schedule_bear_work_generated.
Qed.

Lemma run_callback_work_generated b t res (st : State) :
  work_generated st → work_generated (run_callback b t res st).
Proof.
  intros Hg. unfold run_callback.
  finish_task_paths b t res st; cbv beta iota zeta; try exact Hg.
  assert (∀ st' : State,
            work_generated st' →
            work_generated
              (if decide (running_tasks
                            (set_running_tasks
                               (delete b (running_tasks st')) st') = ∅)
               then stop (set_running_tasks (delete b (running_tasks st')) st')
               else set_running_tasks (delete b (running_tasks st')) st'))
    as Hend by (intros st' Hg'; by case_decide).
  apply Hend. apply schedule_bears_work_generated. exact Hg.
Qed.

End GeneratedWork.

(** ** Sessions in which every bear has work and no task raises *)

Section WellBehaved.
Context {Args Result : Type} `{B : Bears Args Result}.
Variable bears : list bear.

Abbreviation State := (State Args Result).
Abbreviation consistent := (consistent (Args := Args) (Result := Result) bears).

(** A task completes and other tasks of its bear are still in flight. *)
Lemma consistent_task_done (st st' : State) b ts t rs :
  consistent [] st →
  running_tasks st !! b = Some ts → t ∈ ts → callbacks st !! t = Some b →
  ts ∖ {[t]} ≠ ∅ →
  running_tasks st' = <[b := ts ∖ {[t]}]> (running_tasks st) →
  dependency_tracker st' = dependency_tracker st →
  callbacks st' = delete t (callbacks st) →
  futures st' = futures st →
  next_task st' = next_task st →
  trace st' = trace st ++ (ResultCallback <$> rs) →
  consistent [] st'.
Proof.
  intros [G R1 R2 R3 Nd Cov Tf Rf Rg Rp Pr So] Hb Ht Hcb Hmore
    Hrt Hdt Hcbs Hfut Hnx Htr.
  assert (dom (running_tasks st') = dom (running_tasks st)) as Hdom.
  { rewrite Hrt, dom_insert_L.
    assert (b ∈ dom (running_tasks st)) by (apply elem_of_dom; eauto).
    set_solver. }
  assert (resolutions (trace st') = resolutions (trace st)) as Hres
    by by rewrite Htr, resolutions_app, resolutions_results, app_nil_r.
  assert (submissions (trace st') = submissions (trace st)) as Hsub
    by by rewrite Htr, submissions_app, submissions_results, app_nil_r.
  split; unfold in_dependency_dict in *;
    rewrite ?Hdt, ?Hres, ?Hsub, ?Hdom, ?Hfut, ?Hnx, ?Hcbs; try done.
  - intros x tsx. rewrite Hrt. destruct (decide (b = x)) as [<-|Hne].
    + rewrite lookup_insert_eq. intros [= <-]. split; [done|].
      intros t' Ht'. apply elem_of_difference in Ht' as [Ht' Hne].
      rewrite lookup_delete_ne by set_solver.
      by apply (proj2 (Rp b ts Hb)).
    + rewrite lookup_insert_ne by done. intros Hx.
      destruct (Rp x tsx Hx) as [? Hall]. split; [done|].
      intros t' Ht'. rewrite lookup_delete_ne; [by apply Hall|].
      intros <-. apply Hall in Ht'. congruence.
  - intros t' x Ht'. apply lookup_delete_Some in Ht' as [Hne Ht'].
    destruct (Pr t' x Ht') as ((tsx & Htsx & Hin) & Hf & Hlt).
    split; [|done]. rewrite Hrt. destruct (decide (b = x)) as [<-|Hbx].
    + rewrite lookup_insert_eq. eexists. split; [done|].
      assert (tsx = ts) by congruence. set_solver.
    + rewrite lookup_insert_ne by done. eauto.
Qed.

(** The last task of a bear completes: the bear is resolved and its entry
    deleted; the bears that became ready are still to be scheduled. *)
Lemma consistent_bear_done (st st' : State) b t rs :
  consistent [] st →
  running_tasks st !! b = Some {[t]} → callbacks st !! t = Some b →
  running_tasks st' = delete b (running_tasks st) →
  DependencyTracker.dependency_dict (dependency_tracker st')
  = DependencyTracker.without b
      (DependencyTracker.dependency_dict (dependency_tracker st)) →
  DependencyTracker.registered (dependency_tracker st')
  = DependencyTracker.registered (dependency_tracker st) →
  DependencyTracker.resolved (dependency_tracker st')
  = {[b]} ∪ DependencyTracker.resolved (dependency_tracker st) →
  callbacks st' = delete t (callbacks st) →
  futures st' = futures st →
  next_task st' = next_task st →
  trace st' = trace st ++ (ResultCallback <$> rs) ++ [Resolve b] →
  consistent
    (elements (DependencyTracker.newly_ready b
                 (DependencyTracker.dependency_dict (dependency_tracker st))))
    st'.
Proof.
  intros [G R1 R2 R3 Nd Cov Tf Rf Rg Rp Pr So] Hb Hcb
    Hrt Hdict Hreg Hrsv Hcbs Hfut Hnx Htr.
  assert (b ∈ dom (running_tasks st)) as Hbrun by (apply elem_of_dom; eauto).
  destruct (Rf b Hbrun) as (Hbb & Hbfree & Hbres).
  assert (resolutions (trace st') = resolutions (trace st) ++ [b]) as Hres.
  { rewrite Htr, !resolutions_app, resolutions_results. done. }
  assert (submissions (trace st') = submissions (trace st)) as Hsub.
  { rewrite Htr, !submissions_app, submissions_results.
    unfold submissions at 2. simpl. by rewrite app_nil_r. }
  assert (∀ x, x ∈ dom (DependencyTracker.without b
                          (DependencyTracker.dependency_dict (dependency_tracker st)))
               → x ∈ dom (DependencyTracker.dependency_dict (dependency_tracker st)))
    as Hsubdom.
  { intros x. rewrite !elem_of_dom, TrackerFacts.lookup_without.
    destruct (_ !! x); [eauto|by intros [? ?]]. }
  split; unfold in_dependency_dict in *;
    rewrite ?Hdict, ?Hreg, ?Hrsv, ?Hres, ?Hsub, ?Hrt, ?Hfut, ?Hnx, ?Hcbs,
      ?dom_delete_L; try done.
  - intros x s'. rewrite TrackerFacts.lookup_without.
    destruct (_ !! x) as [s|] eqn:Hs; [|done]. simpl.
    destruct (G x s Hs) as (Hx & Hne & Hall).
    assert (x ≠ b) as Hxb.
    { intros ->. apply Hbfree. apply elem_of_dom. eauto. }
    destruct (decide (x ≠ b ∧ b ∈ s)) as [[_ Hbs]|Hn].
    + case_decide as Hempty; [done|]. intros [= <-].
      split; [done|]. split; [done|]. intros d Hd.
      apply elem_of_difference in Hd as [Hd Hdb].
      destruct (Hall d Hd) as (? & ? & ?). set_solver.
    + intros [= <-]. split; [done|]. split; [done|]. intros d Hd.
      destruct (Hall d Hd) as (? & ? & ?).
      assert (d ≠ b) by (intros ->; tauto). set_solver.
  - intros x. rewrite elem_of_union, elem_of_singleton, elem_of_app,
      list_elem_of_singleton, R2. tauto.
  - apply NoDup_app. split; [done|]. split; [|apply NoDup_singleton].
    intros x Hx Hx'. apply list_elem_of_singleton in Hx' as ->.
    by apply R2 in Hx.
  - apply NoDup_elements.
  - intros x Hx. destruct (Cov x Hx) as [Hin|[Hin|[Hin|Hin]]].
    + by apply elem_of_nil in Hin.
    + apply elem_of_dom in Hin as [s Hs].
      destruct (decide (x ≠ b ∧ b ∈ s ∧ s ∖ {[b]} = ∅)) as [Hready|Hn].
      * left. apply elem_of_elements, TrackerFacts.elem_of_newly_ready. eauto.
      * right; left. apply elem_of_dom.
        rewrite TrackerFacts.lookup_without, Hs. simpl.
        destruct (decide (x ≠ b ∧ b ∈ s)) as [[??]|?]; [|eauto].
        rewrite decide_False; [eauto|]. tauto.
    + destruct (decide (x = b)) as [->|Hne].
      * right; right; right. set_solver.
      * right; right; left. set_solver.
    + right; right; right. set_solver.
  - intros x Hx. apply elem_of_elements in Hx.
    apply TrackerFacts.elem_of_newly_ready in Hx as (s & Hs & Hxb & _).
    assert (x ∈ dom (DependencyTracker.dependency_dict (dependency_tracker st)))
      as Hxd by (apply elem_of_dom; eauto).
    destruct (G x s Hs) as (? & _). split; [done|]. split.
    + intros Hin. apply elem_of_difference in Hin as [Hin _].
      by apply Rf in Hin as (_ & ? & _).
    + intros Hin. apply elem_of_union in Hin as [Hin|Hin]; [set_solver|].
      by apply Rg in Hin as (_ & ?).
  - intros x Hx. apply elem_of_difference in Hx as [Hx Hxb].
    destruct (Rf x Hx) as (? & ? & ?). split; [done|]. split.
    + intros Hin. by apply Hsubdom in Hin.
    + set_solver.
  - intros x Hx. apply elem_of_union in Hx as [Hx|Hx].
    + apply elem_of_singleton in Hx as ->. split; [done|].
      intros Hin. by apply Hsubdom in Hin.
    + destruct (Rg x Hx) as (? & ?). split; [done|].
      intros Hin. by apply Hsubdom in Hin.
  - intros x tsx Hx. apply lookup_delete_Some in Hx as [Hne Hx].
    destruct (Rp x tsx Hx) as [? Hall]. split; [done|].
    intros t' Ht'. rewrite lookup_delete_ne; [by apply Hall|].
    intros <-. apply Hall in Ht'. congruence.
  - intros t' x Ht'. apply lookup_delete_Some in Ht' as [Hne Ht'].
    destruct (Pr t' x Ht') as ((tsx & Htsx & Hin) & Hf & Hlt).
    split; [|done]. exists tsx. split; [|done].
    rewrite lookup_delete_ne; [done|]. intros <-.
    assert (tsx = {[t]}) by congruence. set_solver.
  - intros x. rewrite So.
    destruct (decide (x ∈ dom (running_tasks st) ∨ _)) as [Hd|Hd].
    + rewrite decide_True; [done|]. destruct (decide (x = b)) as [->|?].
      * right. set_solver.
      * destruct Hd; [left|right]; set_solver.
    + rewrite decide_False; [done|]. intros [Hin|Hin]; apply Hd.
      * left. set_solver.
      * apply elem_of_union in Hin as [Hin|?]; [|by right].
        apply elem_of_singleton in Hin as ->. by left.
Qed.

Lemma consistent_stop l (st : State) : consistent l st → consistent l (stop st).
Proof.
  intros [G R1 R2 R3 Nd Cov Tf Rf Rg Rp Pr So].
  assert (resolutions (trace (stop st)) = resolutions (trace st)) as Hres.
  { simpl. rewrite resolutions_app. unfold resolutions at 2. simpl.
    by rewrite app_nil_r. }
  assert (submissions (trace (stop st)) = submissions (trace st)) as Hsub.
  { simpl. rewrite submissions_app. unfold submissions at 2. simpl.
    by rewrite app_nil_r. }
  split; rewrite ?Hres, ?Hsub; done.
Qed.

(** Every bear of the input generates at least one task. *)
Hypothesis work : ∀ b, b ∈ bears → generate_tasks b ≠ [].

Lemma schedule_bear_consistent x l (st : State) :
  consistent (x :: l) st → consistent l (schedule_bear st x).
Proof using work.
  intros [G R1 R2 R3 Nd Cov Tf Rf Rg Rp Pr So].
  apply NoDup_cons in Nd as [Hxl Nd].
  destruct (decide (in_dependency_dict x st)) as [Hheld|Hfree].
  - rewrite schedule_bear_held_back by done.
    assert (∀ e, resolutions (trace st ++ [Log (Args := Args) (Result := Result) DEBUG e])
                 = resolutions (trace st)) as Hres.
    { intros e. rewrite resolutions_app. unfold resolutions at 2. simpl.
      by rewrite app_nil_r. }
    assert (∀ e, submissions (trace st ++ [Log (Args := Args) (Result := Result) DEBUG e])
                 = submissions (trace st)) as Hsub.
    { intros e. rewrite submissions_app. unfold submissions at 2. simpl.
      by rewrite app_nil_r. }
    split; simpl; rewrite ?Hres, ?Hsub; try done.
    + intros b Hb. destruct (Cov b Hb) as [Hin|?]; [|by right].
      apply elem_of_cons in Hin as [->|?]; [right; by left|by left].
    + intros b Hb. apply Tf. by right.
  - destruct (schedule_bear_submits st x Hfree)
      as (Hrt & Hdt & Hcb & Hts & Hfo & Hfn & Hnx & Hsub & Hres).
    destruct (Tf x) as (Hxb & Hxr & Hxd); [left|].
    assert (next_task st ∈ (submit_all x (generate_tasks x) st).1) as Hne.
    { apply Hts. pose proof (work x Hxb).
      destruct (generate_tasks x); [done|]. simpl. lia. }
    assert (∀ t b, callbacks st !! t = Some b →
                   t ∉ (submit_all x (generate_tasks x) st).1) as Hold.
    { intros t b Ht Hin. apply Pr in Ht as (_ & _ & Hlt).
      apply Hts in Hin. lia. }
    split; unfold in_dependency_dict in *;
      rewrite ?Hdt, ?Hres, ?Hsub, ?Hrt, ?dom_insert_L; try done.
    + intros b Hb. destruct (Cov b Hb) as [Hin|[?|[?|?]]].
      * apply elem_of_cons in Hin as [->|?]; [|by left].
        right; right; left. set_solver.
      * right; by left.
      * right; right; left. set_solver.
      * right; right; by right.
    + intros b Hb. destruct (Tf b) as (? & ? & ?); [by right|].
      split; [done|]. split; [|done].
      assert (b ≠ x) by (by intros ->). set_solver.
    + intros b Hb. apply elem_of_union in Hb as [Hb|Hb].
      * apply elem_of_singleton in Hb as ->. done.
      * by apply Rf.
    + intros b ts Hb. destruct (decide (x = b)) as [->|Hxb'].
      * rewrite lookup_insert_eq in Hb. injection Hb as <-. split.
        -- intros Hempty. rewrite Hempty in Hne. by apply elem_of_empty in Hne.
        -- intros t Ht. by rewrite Hcb, decide_True.
      * rewrite lookup_insert_ne in Hb by done.
        destruct (Rp b ts Hb) as [? Hall]. split; [done|].
        intros t Ht. rewrite Hcb, decide_False; [by apply Hall|].
        eapply Hold. by apply Hall.
    + intros t b. rewrite Hcb. case_decide as Hin.
      * intros [= <-]. split; [|split].
        -- eexists. by rewrite lookup_insert_eq.
        -- by apply Hfn.
        -- apply Hts in Hin. lia.
      * intros Ht. destruct (Pr t b Ht) as ((ts & Hts' & Hin') & (a & Ha) & Hlt).
        split; [|split].
        -- exists ts. split; [|done]. rewrite lookup_insert_ne; [done|].
           intros ->. apply Hxr. apply elem_of_dom. eauto.
        -- exists a. by rewrite Hfo.
        -- lia.
    + intros b. rewrite times_app, times_replicate, So.
      destruct (decide (x = b)) as [->|Hxb'].
      * rewrite (decide_False (P := b ∈ dom (running_tasks st) ∨ _)) by tauto.
        rewrite decide_True; [done|]. left. set_solver.
      * destruct (decide (b ∈ dom (running_tasks st) ∨ _)) as [Hd|Hd].
        -- rewrite decide_True; [lia|]. destruct Hd; [left|by right]. set_solver.
        -- rewrite decide_False; [lia|]. intros [Hd'|?]; [|tauto].
           apply Hd. left. set_solver.
Qed.

Lemma schedule_bears_consistent l (st : State) :
  consistent l st → consistent [] (schedule_bears l st).
Proof using work.
  revert st. induction l as [|x l IH]; intros st Hc; [done|].
  unfold schedule_bears in *. simpl. by apply IH, schedule_bear_consistent.
Qed.

(** No task that a bear of the input generates raises. *)
Hypothesis no_fault : ∀ b a,
  b ∈ bears → a ∈ generate_tasks b → ∃ rs, analyze b a = Produced rs.

(** One turn of the loop: the handler returns normally and keeps the shape
    of the session; either the bear of the task is not finished and only the
    done-callback is gone, or the bear is resolved. *)
Lemma handler_step (st : State) t b b' a :
  consistent [] st → work_generated st →
  callbacks st !! t = Some b → futures st !! t = Some (b', a) →
  ∃ st', finish_task b t (analyze b' a) (take_callback t st) = (inr tt, st') ∧
    consistent [] st' ∧
    ((DependencyTracker.resolved (dependency_tracker st')
      = DependencyTracker.resolved (dependency_tracker st) ∧
      callbacks st' = delete t (callbacks st)) ∨
     (DependencyTracker.resolved (dependency_tracker st')
      = {[b]} ∪ DependencyTracker.resolved (dependency_tracker st) ∧
      b ∈ bears ∧
      b ∉ DependencyTracker.resolved (dependency_tracker st))).
Proof using work no_fault.
  intros Hc Hg Hcb Hfut.
  destruct (pending_running _ _ _ Hc t b Hcb) as ((ts & Hb & Ht) & (a' & Ha') & _).
  assert (b' = b) as -> by congruence.
  assert (b ∈ dom (running_tasks st)) as Hbrun by (apply elem_of_dom; eauto).
  destruct (running_fresh _ _ _ Hc b Hbrun) as (Hbb & Hbfree & Hbres).
  destruct (no_fault b a Hbb (Hg t b a Hfut)) as [rs ->].
  destruct (decide (ts ∖ {[t]} = ∅)) as [Hlast|Hmore].
  - assert (ts = {[t]}) as ->.
    { apply set_eq. intros x. rewrite elem_of_singleton. split; [|by intros ->].
      intros Hx. destruct (decide (x = t)) as [|Hne]; [done|]. exfalso.
      assert (x ∈ ts ∖ {[t]}) as Hin by set_solver.
      rewrite Hlast in Hin. by apply elem_of_empty in Hin. }
    assert (DependencyTracker.resolve b (dependency_tracker st)
            = inr (elements (DependencyTracker.newly_ready b
                     (DependencyTracker.dependency_dict (dependency_tracker st))),
                   {| DependencyTracker.dependency_dict :=
                        DependencyTracker.without b
                          (DependencyTracker.dependency_dict (dependency_tracker st));
                      DependencyTracker.registered :=
                        DependencyTracker.registered (dependency_tracker st);
                      DependencyTracker.resolved :=
                        {[b]} ∪ DependencyTracker.resolved (dependency_tracker st) |}))
      as Hres.
    { unfold DependencyTracker.resolve. rewrite decide_True; [done|].
      split; [|done]. rewrite (tracker_registered _ _ _ Hc). set_solver. }
    rewrite (finish_task_last b t rs {[t]} _ _ (take_callback t st) Hb Ht Hlast Hres).
    cbv zeta. rewrite schedule_bears_delete.
    2:{ intros Hin. apply elem_of_elements in Hin.
        apply TrackerFacts.elem_of_newly_ready in Hin as (? & _ & ? & _). done. }
    match goal with |- context [schedule_bears ?l ?s] => set (st2 := s) end.
    assert (consistent [] (schedule_bears
              (elements (DependencyTracker.newly_ready b
                 (DependencyTracker.dependency_dict (dependency_tracker st)))) st2))
      as Hc'.
    { apply schedule_bears_consistent.
      apply (consistent_bear_done st st2 b t rs); try done.
      - subst st2. simpl. by rewrite delete_insert_eq.
      - subst st2. simpl. by rewrite <- app_assoc. }
    assert (DependencyTracker.resolved (dependency_tracker (schedule_bears
              (elements (DependencyTracker.newly_ready b
                 (DependencyTracker.dependency_dict (dependency_tracker st)))) st2))
            = {[b]} ∪ DependencyTracker.resolved (dependency_tracker st)) as Hr'.
    { by rewrite (proj1 (schedule_bears_frame _ _)). }
    eexists. split; [reflexivity|]. case_decide.
    + split; [by apply consistent_stop|]. right. done.
    + split; [done|]. right. done.
  - rewrite (finish_task_more_in_flight b t rs ts (take_callback t st) Hb Ht Hmore).
    eexists. split; [reflexivity|]. split.
    + by apply (consistent_task_done st _ b ts t rs).
    + left. done.
Qed.

(** The bears of the input are distinct, and their dependencies within the
    input are acyclic: a dependency has a smaller rank. *)
Hypothesis bears_nodup : NoDup bears.
Variable rank : bear → nat.
Hypothesis acyclic : ∀ b d,
  b ∈ bears → d ∈ dependencies b → d ∈ bears → rank d < rank b.

Lemma initial_consistent n :
  consistent bears
    (initial (DependencyTracker.add_bear_dependencies dependencies bears
                DependencyTracker.empty) n).
Proof using bears_nodup.
  clear work no_fault acyclic rank.
  destruct (TrackerFacts.add_bear_dependencies_registered dependencies bears)
    as [Hreg Hres].
  split; unfold in_dependency_dict; simpl; rewrite ?Hreg, ?Hres; try done.
  - intros b s. rewrite TrackerFacts.add_bear_dependencies_lookup.
    case_decide as Hc; [|done]. intros [= <-]. destruct Hc as [Hb Hne].
    split; [done|]. split; [done|]. intros d Hd.
    apply TrackerFacts.elem_of_declared_within in Hd as [? ?]. set_solver.
  - intros b. set_solver.
  - constructor.
  - intros b Hb. by left.
Qed.

(** When nothing is running, no bear is waiting in the graph either: a
    waiting bear would wait for a bear that waits itself. *)
Lemma graph_drained (st : State) b :
  consistent [] st → running_tasks st = ∅ → ¬ in_dependency_dict b st.
Proof using acyclic.
  clear work no_fault bears_nodup. intros Hc Hrt.
  assert (∀ n x, rank x < n → ¬ in_dependency_dict x st) as Hdescent.
  { induction n as [|n IH]; intros x Hlt Hin; [lia|].
    unfold in_dependency_dict in Hin. apply elem_of_dom in Hin as [s Hs].
    destruct (graph_sound _ _ _ Hc x s Hs) as (Hx & Hne & Hall).
    apply set_choose_L in Hne as [d Hd].
    destruct (Hall d Hd) as (Hdb & Hdep & Hdres).
    destruct (phase_cover _ _ _ Hc d Hdb) as [Hin|[Hin|[Hin|Hin]]].
    - by apply elem_of_nil in Hin.
    - apply (IH d); [|done]. pose proof (acyclic x d Hx Hdep Hdb). lia.
    - rewrite Hrt in Hin. set_solver.
    - done. }
  apply (Hdescent (S (rank b))). lia.
Qed.

Lemma all_resolved (st : State) b :
  consistent [] st → running_tasks st = ∅ → b ∈ bears →
  b ∈ resolutions (trace st).
Proof using acyclic.
  clear work no_fault bears_nodup. intros Hc Hrt Hb. apply (tracker_resolved _ _ _ Hc).
  destruct (phase_cover _ _ _ Hc b Hb) as [Hin|[Hin|[Hin|Hin]]].
  - by apply elem_of_nil in Hin.
  - by apply graph_drained in Hin.
  - rewrite Hrt in Hin. set_solver.
  - done.
Qed.

(** While something is running, some done-callback is pending. *)
Lemma running_has_callback (st : State) :
  consistent [] st → running_tasks st ≠ ∅ →
  ∃ t b a, callbacks st !! t = Some b ∧ futures st !! t = Some (b, a).
Proof.
  clear work no_fault bears_nodup acyclic rank. intros Hc Hne.
  apply map_choose in Hne as (b & ts & Hb).
  destruct (running_pending _ _ _ Hc b ts Hb) as [Hts Hall].
  apply set_choose_L in Hts as [t Ht].
  destruct (pending_running _ _ _ Hc t b (Hall t Ht)) as (_ & (a & Ha) & _).
  exists t, b, a. split; [by apply Hall|done].
Qed.

(** The loop of a well-behaved session never hangs; it keeps the shape of
    the session, and when it returns nothing is running. *)
Lemma run_forever_well_behaved completions (st : State) :
  consistent [] st → work_generated st →
  stopping st = false → running_tasks st ≠ ∅ →
  consistent [] (run_forever completions st).2 ∧
  match (run_forever completions st).1 with
  | Returned => running_tasks (run_forever completions st).2 = ∅
  | Waiting => stopping (run_forever completions st).2 = false ∧
               running_tasks (run_forever completions st).2 ≠ ∅
  | Hung => False
  end.
Proof using work no_fault.
  clear bears_nodup acyclic rank.
  revert st. induction completions as [|t cs IH]; intros st Hc Hg Hs Hne; simpl.
  - case_decide as Hcb; simpl; [|done].
    destruct (running_has_callback st Hc Hne) as (t & b & _ & Ht & _).
    rewrite Hcb in Ht. by rewrite lookup_empty in Ht.
  - destruct (callbacks st !! t) as [b|] eqn:Hcb; [|by apply IH].
    destruct (futures st !! t) as [[b' a]|] eqn:Hfut; [|by apply IH].
    destruct (handler_step st t b b' a Hc Hg Hcb Hfut) as (st' & Hft & Hc' & _).
    pose proof (run_callback_work_generated b t (analyze b' a)
                  (take_callback t st) Hg) as Hg'.
    pose proof (finish_task_stops_iff_nothing_runs b t (analyze b' a)
                  (take_callback t st) Hs) as Hstop.
    unfold run_callback in *. rewrite Hft in *. simpl in Hstop.
    destruct Hstop as [(_ & Hrt & -> & _)|(Hrt & Hs' & _)]; simpl; [done|].
    rewrite Hs'. apply IH; [done|done|done|by apply Hrt].
Qed.

(** From every state of the loop some order of completions makes the loop
    return: each turn finishes a task, and each bear is resolved once. *)
Lemma can_finish (st : State) :
  consistent [] st → work_generated st →
  stopping st = false → running_tasks st ≠ ∅ →
  ∃ completions, (run_forever completions st).1 = Returned.
Proof using work no_fault.
  clear bears_nodup acyclic rank.
  remember (size (list_to_set bears
                    ∖ DependencyTracker.resolved (dependency_tracker st)
                  : gset bear)) as u eqn:Hu.
  remember (size (callbacks st)) as c eqn:Hcsz.
  revert c st Hu Hcsz.
  induction u as [u IHu] using lt_wf_ind.
  induction c as [c IHc] using lt_wf_ind.
  intros st Hu Hcsz Hc Hg Hs Hne.
  destruct (running_has_callback st Hc Hne) as (t & b & a & Hcb & Hfut).
  destruct (handler_step st t b b a Hc Hg Hcb Hfut) as (st' & Hft & Hc' & Hmeasure).
  pose proof (run_callback_work_generated b t (analyze b a)
                (take_callback t st) Hg) as Hg'.
  pose proof (finish_task_stops_iff_nothing_runs b t (analyze b a)
                (take_callback t st) Hs) as Hstop.
  rewrite Hft in Hstop. simpl in Hstop.
  assert (run_callback b t (analyze b a) (take_callback t st) = st') as Hrc
    by (unfold run_callback; by rewrite Hft).
  rewrite Hrc in Hg'.
  destruct Hstop as [(_ & _ & Hs' & _)|(Hrt & Hs' & _)].
  - exists [t]. simpl. by rewrite Hcb, Hfut, Hrc, Hs'.
  - assert (∃ cs, (run_forever cs st').1 = Returned) as [cs Hcs].
    { destruct Hmeasure as [[Hres Hcbs]|(Hres & Hbb & Hbres)].
      - apply (IHc (size (callbacks st'))); try done.
        + rewrite Hcbs, Hcsz.
          pose proof (map_size_delete t (callbacks st)) as Hsz.
          rewrite Hcb in Hsz.
          assert (size (callbacks st) ≠ 0); [|lia].
          intros H0. apply map_size_empty_iff in H0.
          rewrite H0 in Hcb. by rewrite lookup_empty in Hcb.
        + by rewrite Hres.
        + by apply Hrt.
      - apply (IHu (size (list_to_set bears
                            ∖ DependencyTracker.resolved (dependency_tracker st')
                          : gset bear)) ) with (c := size (callbacks st'))
                                               (st := st'); try done.
        + rewrite Hu, Hres. apply subset_size.
          apply strict_spec_alt. split; [set_solver|].
          intros Heq. assert (b ∈ (list_to_set bears
                                     ∖ DependencyTracker.resolved (dependency_tracker st)
                                   : gset bear)) as Hin by set_solver.
          rewrite <- Heq in Hin. set_solver.
        + intros. by apply Hrt. }
    exists (t :: cs). simpl. by rewrite Hcb, Hfut, Hrc, Hs'.
Qed.

(** After the initial call of [schedule_bears] some bear is running. *)
Lemma session_starts n :
  bears ≠ [] →
  running_tasks
    (schedule_bears bears
       (initial (DependencyTracker.add_bear_dependencies dependencies bears
                   DependencyTracker.empty) n)) ≠ ∅.
Proof using work bears_nodup acyclic.
  clear no_fault. intros Hne Hrt.
  match type of Hrt with running_tasks ?s = _ => set (st0 := s) in * end.
  assert (consistent [] st0) as Hc
    by apply schedule_bears_consistent, initial_consistent.
  apply nonempty_elem_of in Hne as [b Hb].
  assert (b ∈ resolutions (trace st0)) as Hin by by apply all_resolved.
  apply (tracker_resolved _ _ _ Hc) in Hin.
  subst st0. rewrite (proj1 (schedule_bears_frame _ _)) in Hin. simpl in Hin.
  rewrite (proj2 (TrackerFacts.add_bear_dependencies_registered _ _)) in Hin.
  by apply elem_of_empty in Hin.
Qed.

Lemma trace_closed (tr : list (event Args Result)) :
  resolutions (tr ++ [LoopClose]) = resolutions tr ∧
  submissions (tr ++ [LoopClose]) = submissions tr.
Proof.
  rewrite resolutions_app, submissions_app.
  unfold resolutions at 2, submissions at 2. simpl. by rewrite !app_nil_r.
Qed.

(** The state in which the loop of a session ends. *)
Lemma run_well_behaved cpu completions :
  bears ≠ [] →
  ∃ st, run_forever completions
          (schedule_bears bears
             (initial (DependencyTracker.add_bear_dependencies dependencies bears
                         DependencyTracker.empty) (get_cpu_count cpu)))
        = ((run cpu bears completions).1, st) ∧
    resolutions (trace (run cpu bears completions).2) = resolutions (trace st) ∧
    submissions (trace (run cpu bears completions).2) = submissions (trace st) ∧
    consistent [] st ∧ work_generated st ∧
    match (run cpu bears completions).1 with
    | Returned => running_tasks st = ∅
    | Waiting => stopping st = false ∧ running_tasks st ≠ ∅
    | Hung => False
    end.
Proof using work no_fault bears_nodup acyclic.
  intros Hne. unfold run.
  match goal with |- context [run_forever _ ?s] => set (st0 := s) end.
  assert (consistent [] st0) as Hc
    by apply schedule_bears_consistent, initial_consistent.
  assert (work_generated st0) as Hg.
  { apply schedule_bears_work_generated. intros t b a. simpl.
    by rewrite lookup_empty. }
  assert (stopping st0 = false) as Hs
    by (subst st0; by rewrite (proj2 (schedule_bears_frame _ _))).
  pose proof (session_starts (get_cpu_count cpu) Hne) as Hrt. fold st0 in Hrt.
  pose proof (run_forever_well_behaved completions st0 Hc Hg Hs Hrt)
    as [Hc' Hend].
  assert (work_generated (run_forever completions st0).2) as Hg'.
  { apply run_forever_invariant; [|done].
    intros st t b res Hst _. by apply run_callback_work_generated. }
  destruct (run_forever completions st0) as [o st1]. simpl in *.
  exists st1. destruct o; simpl; try done.
  destruct (trace_closed (trace st1)) as [-> ->]. done.
Qed.

(** A session over distinct bears, acyclic, every bear with work and no
    generated task raising: the loop never hangs; whenever [run] returns, every bear of
    the input was resolved exactly once and had each of its tasks submitted
    exactly once, in one batch; and every session can be run to that end. *)
Lemma well_behaved_session cpu completions :
  bears ≠ [] →
  (run cpu bears completions).1 ≠ Hung ∧
  ((run cpu bears completions).1 = Returned →
   ∀ b, b ∈ bears →
     times b (resolutions (trace (run cpu bears completions).2)) = 1 ∧
     times b (submissions (trace (run cpu bears completions).2))
     = length (generate_tasks b)) ∧
  ∃ more, (run cpu bears (completions ++ more)).1 = Returned.
Proof using work no_fault bears_nodup acyclic.
  intros Hne.
  destruct (run_well_behaved cpu completions Hne)
    as (st & Hrf & Hres & Hsub & Hc & Hg & Hend).
  split; [|split].
  - intros Ho. by rewrite Ho in Hend.
  - intros Ho b Hb. rewrite Ho in Hend. rewrite Hres, Hsub. split.
    + apply times_NoDup; [apply (resolved_once _ _ _ Hc)|].
      by apply all_resolved.
    + rewrite (submitted_once _ _ _ Hc). rewrite decide_True; [done|].
      right. apply (tracker_resolved _ _ _ Hc). by apply all_resolved.
  - destruct ((run cpu bears completions).1) eqn:Ho.
    + exists []. by rewrite app_nil_r.
    + done.
    + destruct Hend as [Hs Hrt].
      destruct (can_finish st Hc Hg Hs Hrt) as [more Hmore].
      exists more. unfold run. rewrite run_forever_app, Hrf.
      destruct (run_forever more st) as [o st']. simpl in Hmore. by subst o.
Qed.

(** At every moment of such a session a bear has been resolved at most
    once, and its tasks have been submitted all at once or not at all. *)
Lemma never_twice cpu completions b :
  bears ≠ [] →
  times b (resolutions (trace (run cpu bears completions).2)) ≤ 1 ∧
  (times b (submissions (trace (run cpu bears completions).2)) = 0 ∨
   times b (submissions (trace (run cpu bears completions).2))
   = length (generate_tasks b)).
Proof using work no_fault bears_nodup acyclic.
  intros Hne.
  destruct (run_well_behaved cpu completions Hne)
    as (st & _ & Hres & Hsub & Hc & _ & _).
  rewrite Hres, Hsub. split.
  - destruct (decide (b ∈ resolutions (trace st))) as [Hin|Hin].
    + rewrite times_NoDup; [done|apply (resolved_once _ _ _ Hc)|done].
    + rewrite times_not_elem_of by done. lia.
  - rewrite (submitted_once _ _ _ Hc). case_decide; [by right|by left].
Qed.

End WellBehaved.

(** The diamond of bears is such a session: whatever the order of
    completions, it does not hang, and it can be run to its end. *)
Lemma diamond_is_well_behaved completions :
  (run (B := Samples.diamond) None [0; 1; 2; 3] completions).1 ≠ Hung ∧
  ((run (B := Samples.diamond) None [0; 1; 2; 3] completions).1 = Returned →
   ∀ b, b ∈ [0; 1; 2; 3] →
     times b (resolutions
                (trace (run (B := Samples.diamond) None [0; 1; 2; 3] completions).2))
     = 1 ∧
     times b (submissions
                (trace (run (B := Samples.diamond) None [0; 1; 2; 3] completions).2))
     = length (generate_tasks (Bears := Samples.diamond) b)) ∧
  ∃ more,
    (run (B := Samples.diamond) None [0; 1; 2; 3] (completions ++ more)).1
    = Returned.
Proof.
  apply (well_behaved_session (B := Samples.diamond) [0; 1; 2; 3]) with (rank := id).
  - intros b Hb. repeat (apply elem_of_cons in Hb as [->|Hb]; [done|]).
    by apply elem_of_nil in Hb.
  - intros b a _ _. eexists. reflexivity.
  - repeat constructor; set_solver.
  - intros b d Hb Hd _.
    repeat (apply elem_of_cons in Hb as [->|Hb];
            [simpl in Hd; repeat (apply elem_of_cons in Hd as [->|Hd];
                                  [unfold id; lia|]);
             by apply elem_of_nil in Hd|]).
    by apply elem_of_nil in Hb.
  - done.
Qed.

(** * Further properties of the scheduler *)

(** ** schedule_bears *)

Section ScheduleBears.
Context {Args Result : Type} `{B : Bears Args Result}.

Abbreviation State := (State Args Result).
Abbreviation event := (event Args Result).

Lemma scheduling_records_app (tr1 tr2 : list event) :
  scheduling_records (tr1 ++ tr2)
  = scheduling_records tr1 ++ scheduling_records tr2.
Proof. apply omap_app. Qed.

Lemma scheduling_records_batch b n (args : list Args) :
  scheduling_records
    (imap (λ i a, RunInExecutor (Result := Result) b (n + i) a) args)
  = (λ a, inl (b, a)) <$> args.
Proof.
  revert n. induction args as [|a args IH]; intros n; [done|].
  rewrite imap_cons, fmap_cons.
  change (inl (b, a) :: scheduling_records
            (imap ((λ i a, RunInExecutor (Result := Result) b (n + i) a) ∘ S) args)
          = inl (b, a) :: ((λ a, inl (b, a)) <$> args)).
  f_equal. rewrite <- (IH (S n)). f_equal.
  apply imap_ext. intros i x _. simpl. f_equal. lia.
Qed.

(** What the loop of [schedule_bears] does for one bear: a "holding back"
    record, or the tasks of the bear in the order generated and then the
    "Scheduled" record. *)
Lemma schedule_bear_records (st : State) b :
  scheduling_records (trace (schedule_bear st b))
  = scheduling_records (trace st)
    ++ (if decide (in_dependency_dict b st)
        then [inr (DEBUG, holding_back_message b)]
        else ((λ a, inl (b, a)) <$> generate_tasks b)
             ++ [inr (DEBUG, scheduled_message b (length (generate_tasks b)))]).
Proof.
  unfold schedule_bear. destruct (decide (in_dependency_dict b st)) as [Hin|Hfree].
  - simpl. by rewrite scheduling_records_app.
  - pose proof (submit_all_trace b (generate_tasks b) st) as Htr.
    pose proof (submit_all_size b (generate_tasks b) st) as Hsz.
    destruct (submit_all b (generate_tasks b) st) as [ts st1]. simpl in *.
    rewrite Htr, Hsz, !scheduling_records_app, scheduling_records_batch.
    by rewrite <- app_assoc.
Qed.

(** X1: [schedule_bears] goes through the bears in the order given, and
    does for each what the tracker says: a bear that is a key of
    [dependency_dict] gets one "holding back" debug record and no task; every
    other bear has each of its generated tasks handed to the pool, in the
    order [generate_tasks()] yields them, and then gets one "Scheduled"
    debug record with the number of these tasks.  The submissions and the
    records come in exactly this order, and [schedule_bears] causes nothing
    else.  A bear that is listed twice is submitted twice. *)
Theorem schedule_bears_submits_in_order l (st : State) :
  ∃ rest, trace (schedule_bears l st) = trace st ++ rest ∧
    Forall is_scheduling rest ∧
    scheduling_records rest
    = flat_map (λ b,
        if decide (in_dependency_dict b st)
        then [inr (DEBUG, holding_back_message b)]
        else ((λ a, inl (b, a)) <$> generate_tasks b)
             ++ [inr (DEBUG, scheduled_message b (length (generate_tasks b)))])
        l.
Proof.
  destruct (schedule_bears_trace l st) as (rest & Htr & F & _).
  exists rest. split; [done|]. split; [done|].
  match goal with |- _ = ?r =>
    assert (scheduling_records (trace (schedule_bears l st))
            = scheduling_records (trace st) ++ r) as Hrec end.
  { clear rest Htr F. revert st. induction l as [|b l IH]; intros st.
    - by rewrite app_nil_r.
    - unfold schedule_bears in *. cbn [foldl flat_map].
      rewrite IH, schedule_bear_records, <- app_assoc. f_equal. f_equal.
      apply flat_map_ext. intros x.
      assert (in_dependency_dict x (schedule_bear st b)
              ↔ in_dependency_dict x st) as Hsame.
      { unfold in_dependency_dict.
        by rewrite (proj1 (schedule_bear_frame st b)). }
      destruct (decide (in_dependency_dict x (schedule_bear st b)));
        destruct (decide (in_dependency_dict x st)); try done;
        exfalso; tauto. }
  rewrite Htr, scheduling_records_app in Hrec. by apply app_inv_head in Hrec.
Qed.

(** A bear whose tasks are registered stays so while other bears are
    scheduled: later handles are fresh. *)
Lemma schedule_bear_keeps_registration (st : State) x b ts :
  x ≠ b ∨ in_dependency_dict x st →
  running_tasks st !! b = Some ts →
  (∀ t, t ∈ ts → t < next_task st ∧ callbacks st !! t = Some b ∧
                 ∃ a, futures st !! t = Some (b, a)) →
  running_tasks (schedule_bear st x) !! b = Some ts ∧
  (∀ t, t ∈ ts → t < next_task (schedule_bear st x) ∧
                 callbacks (schedule_bear st x) !! t = Some b ∧
                 ∃ a, futures (schedule_bear st x) !! t = Some (b, a)).
Proof.
  intros Hx Hb Hall.
  destruct (decide (in_dependency_dict x st)) as [Hheld|Hfree].
  - by rewrite schedule_bear_held_back.
  - destruct Hx as [Hne|?]; [|done].
    destruct (schedule_bear_submits st x Hfree)
      as (Hrt & _ & Hcb & Hts & Hfo & _ & Hnx & _).
    rewrite Hrt, lookup_insert_ne by done. split; [done|].
    intros t Ht. destruct (Hall t Ht) as (Hlt & Hc & a & Ha).
    split; [lia|]. split.
    + rewrite Hcb, decide_False; [done|]. rewrite Hts. lia.
    + exists a. by rewrite Hfo.
Qed.

(** A bear that is not held back has its tasks registered. *)
Lemma schedule_bear_registers (st : State) b :
  ¬ in_dependency_dict b st →
  ∃ ts, running_tasks (schedule_bear st b) !! b = Some ts ∧
    size ts = length (generate_tasks b) ∧
    ∀ t, t ∈ ts → t < next_task (schedule_bear st b) ∧
                  callbacks (schedule_bear st b) !! t = Some b ∧
                  ∃ a, futures (schedule_bear st b) !! t = Some (b, a).
Proof.
  intros Hfree.
  destruct (schedule_bear_submits st b Hfree)
    as (Hrt & _ & Hcb & Hts & _ & Hfn & Hnx & _).
  eexists. split; [by rewrite Hrt, lookup_insert_eq|]. split.
  - apply submit_all_size.
  - intros t Ht. split; [apply Hts in Ht; lia|]. split.
    + by rewrite Hcb, decide_True.
    + by apply Hfn.
Qed.

(** X2: after [schedule_bears], every bear of the list that is not held back
    has an entry in [running_tasks] with as many handles as it generates
    tasks (the set comprehension loses none), and every one of these handles
    stands for a task of the bear and has a done-callback bound to the
    bear. *)
Theorem schedule_bears_registers_every_task l (st : State) b :
  b ∈ l → ¬ in_dependency_dict b st →
  ∃ ts, running_tasks (schedule_bears l st) !! b = Some ts ∧
    size ts = length (generate_tasks b) ∧
    ∀ t, t ∈ ts → callbacks (schedule_bears l st) !! t = Some b ∧
                  ∃ a, futures (schedule_bears l st) !! t = Some (b, a).
Proof.
  intros Hin Hfree.
  cut (∃ ts, running_tasks (schedule_bears l st) !! b = Some ts ∧
         size ts = length (generate_tasks b) ∧
         ∀ t, t ∈ ts → t < next_task (schedule_bears l st) ∧
                       callbacks (schedule_bears l st) !! t = Some b ∧
                       ∃ a, futures (schedule_bears l st) !! t = Some (b, a)).
  { intros (ts & ? & ? & Hall). exists ts. split; [done|]. split; [done|].
    intros t Ht. by destruct (Hall t Ht) as (_ & ? & ?). }
  assert (∀ l (st : State),
            ¬ in_dependency_dict b st →
            (∃ ts, running_tasks st !! b = Some ts ∧
               size ts = length (generate_tasks b) ∧
               ∀ t, t ∈ ts → t < next_task st ∧ callbacks st !! t = Some b ∧
                             ∃ a, futures st !! t = Some (b, a)) →
            ∃ ts, running_tasks (schedule_bears l st) !! b = Some ts ∧
               size ts = length (generate_tasks b) ∧
               ∀ t, t ∈ ts → t < next_task (schedule_bears l st) ∧
                             callbacks (schedule_bears l st) !! t = Some b ∧
                             ∃ a, futures (schedule_bears l st) !! t = Some (b, a))
    as Hkeep.
  { clear. intros l. induction l as [|x l IH]; intros st Hfree Hreg; [done|].
    unfold schedule_bears in *. cbn [foldl]. apply IH.
    - unfold in_dependency_dict. by rewrite (proj1 (schedule_bear_frame st x)).
    - destruct (decide (x = b)) as [->|Hne].
      + by apply schedule_bear_registers.
      + destruct Hreg as (ts & Hb & Hsz & Hall).
        destruct (schedule_bear_keeps_registration st x b ts) as [? ?];
          [by left|done|done|]. eauto. }
  revert st Hfree. induction l as [|x l IH]; intros st Hfree.
  - by apply elem_of_nil in Hin.
  - unfold schedule_bears in *. cbn [foldl].
    assert (¬ in_dependency_dict b (schedule_bear st x)) as Hfree'.
    { unfold in_dependency_dict. by rewrite (proj1 (schedule_bear_frame st x)). }
    apply elem_of_cons in Hin as [->|Hin].
    + apply (Hkeep l); [done|]. by apply schedule_bear_registers.
    + by apply IH.
Qed.

(** X3: [schedule_bears] only submits and logs.  It leaves the dependency
    tracker and the stop flag of the loop alone, delivers nothing to the
    result sink, resolves nothing and does not stop the loop; and the entry
    in [running_tasks] of a bear that is not in the list, or that is held
    back, is what it was. *)
Theorem schedule_bears_only_submits l (st : State) :
  dependency_tracker (schedule_bears l st) = dependency_tracker st ∧
  stopping (schedule_bears l st) = stopping st ∧
  sink (trace (schedule_bears l st)) = sink (trace st) ∧
  resolutions (trace (schedule_bears l st)) = resolutions (trace st) ∧
  stops (trace (schedule_bears l st)) = stops (trace st) ∧
  ∀ x, x ∉ l ∨ in_dependency_dict x st →
       running_tasks (schedule_bears l st) !! x = running_tasks st !! x.
Proof.
  destruct (schedule_bears_frame l st) as [Hdt Hs].
  destruct (schedule_bears_trace l st) as (rest & Htr & F & _).
  split; [done|]. split; [done|]. split; [|split; [|split]].
  - rewrite Htr, sink_app, (sink_no_result rest), app_nil_r; [done|].
    eapply Forall_impl; [exact F|]. intros e He. destruct e; simpl in *; tauto.
  - by rewrite Htr, resolutions_app, (resolutions_scheduling rest F), app_nil_r.
  - rewrite Htr, stops_app, (stops_scheduling rest F). lia.
  - clear. revert st. induction l as [|b l IH]; intros st x Hx; [done|].
    unfold schedule_bears in *. cbn [foldl]. rewrite IH.
    + destruct (decide (in_dependency_dict b st)) as [Hheld|Hfree].
      * by rewrite schedule_bear_held_back.
      * destruct (schedule_bear_submits st b Hfree) as (-> & _).
        apply lookup_insert_ne. intros ->. destruct Hx as [Hx|Hx]; [|done].
        apply Hx. left.
    + destruct Hx as [Hx|Hx].
      * left. intros ?. apply Hx. by right.
      * right. unfold in_dependency_dict.
        by rewrite (proj1 (schedule_bear_frame st b)).
Qed.

End ScheduleBears.

(** The witness of X2: bear [B] of the diamond, scheduled on an empty
    tracker, has its two tasks registered. *)
Lemma schedule_bears_registers_every_task_witness :
  ∃ ts, running_tasks
          (schedule_bears (B := Samples.diamond) [0; 1]
             (initial DependencyTracker.empty 1)) !! 1 = Some ts ∧
    size ts = 2.
Proof.
  destruct (schedule_bears_registers_every_task (B := Samples.diamond)
              [0; 1] (initial DependencyTracker.empty 1) 1)
    as (ts & Hts & Hsz & _).
  - right. left.
  - unfold in_dependency_dict. simpl. rewrite dom_empty_L. apply not_elem_of_empty.
  - exists ts. split; [exact Hts|exact Hsz].
Defined.

(** The witness of X3: scheduling bear [0] leaves the entry of bear [1] of
    the sample state alone. *)
Lemma schedule_bears_only_submits_witness :
  running_tasks
    (schedule_bears (B := Samples.diamond) [0]
       Samples.two_in_flight) !! 1 = Some {[2; 3]}.
Proof.
  destruct (schedule_bears_only_submits (B := Samples.diamond) [0]
              Samples.two_in_flight) as (_ & _ & _ & _ & _ & Hrt).
  rewrite Hrt; [reflexivity|]. left.
  intros Hin. apply list_elem_of_singleton in Hin. discriminate.
Defined.

(** ** finish_task *)

Section FinishTaskMore.
Context {Args Result : Type} `{B : Bears Args Result}.

Abbreviation State := (State Args Result).

(** X4: a task that completes normally but is not registered under its bear
    (the bear has no entry in [running_tasks], or the entry does not hold the
    handle) has its results forwarded to the sink; then the handler raises
    [KeyError] and has changed nothing else: the bear is not resolved,
    nothing is scheduled, the loop is not stopped. *)
Theorem finish_task_unregistered_raises b t rs (st : State) :
  (running_tasks st !! b = None ∨
   ∃ ts, running_tasks st !! b = Some ts ∧ t ∉ ts) →
  finish_task b t (Produced rs) st = (inl KeyError, delivered rs st).
Proof.
  intros [Hb|(ts & Hb & Ht)].
  - by apply finish_task_unknown_bear.
  - by eapply finish_task_unknown_task.
Qed.

(** X5: when the handler returns normally, it has called
    [event_loop.stop()] exactly if [running_tasks] is empty afterwards, and
    then once; the stop flag is set in that case and untouched otherwise. *)
Theorem finish_task_stops_exactly_when_idle b t res (st st' : State) :
  finish_task b t res st = (inr tt, st') →
  stops (trace st')
  = stops (trace st) + (if decide (running_tasks st' = ∅) then 1 else 0) ∧
  stopping st' = if decide (running_tasks st' = ∅) then true else stopping st.
Proof.
  finish_task_paths b t res st; intros Heq; try discriminate;
    injection Heq as <-.
  - match goal with |- context [schedule_bears ?l ?s] =>
      destruct (schedule_bears_trace l s) as (rest & Htr & F & _);
      destruct (schedule_bears_frame l s) as [_ Hst]
    end.
    simpl in Htr, Hst.
    assert (stops rest = 0) as Hrest by by apply stops_scheduling.
    destruct (decide (delete b _ = ∅)) as [Hempty|Hne]; simpl.
    + rewrite !decide_True by done.
      rewrite Htr, !stops_app, stops_results, Hrest. unfold stops. simpl.
      split; [lia|done].
    + rewrite !decide_False by done.
      rewrite Htr, Hst, !stops_app, stops_results, Hrest. unfold stops. simpl.
      split; [lia|done].
  - simpl.
    assert (<[b:=ts ∖ {[t]}]> (running_tasks st) ≠ ∅) as Hne.
    { intros Hempty. apply (f_equal (λ m, m !! b)) in Hempty.
      by rewrite lookup_insert_eq, lookup_empty in Hempty. }
    rewrite !decide_False by done.
    rewrite stops_app, stops_results. split; [lia|done].
Qed.

(** X6: one call of the handler resolves at most one bear, its own, and
    calls [stop] at most once; when it raises it has not stopped the loop.
    It never closes the loop and never creates or shuts down an executor. *)
Theorem finish_task_calls b t res (st : State) :
  let r := (finish_task b t res st).1 in
  let st' := (finish_task b t res st).2 in
  (resolutions (trace st') = resolutions (trace st) ∨
   resolutions (trace st') = resolutions (trace st) ++ [b]) ∧
  (stops (trace st') = stops (trace st) ∨
   r = inr tt ∧ stops (trace st') = S (stops (trace st))) ∧
  ∃ rest, trace st' = trace st ++ rest ∧ Forall is_loop_event rest.
Proof.
  intros r st'. subst r st'.
  split; [|split].
  - finish_task_paths b t res st; simpl;
      rewrite ?resolutions_app, ?resolutions_results, ?app_nil_r; auto.
    match goal with |- context [schedule_bears ?l ?s] =>
      destruct (schedule_bears_trace l s) as (rest & Htr & F & _) end.
    simpl in Htr. right.
    case_decide; simpl; rewrite Htr, !resolutions_app, resolutions_results,
      (resolutions_scheduling rest F); simpl; by rewrite ?app_nil_r.
  - finish_task_paths b t res st; simpl;
      rewrite ?stops_app, ?stops_results; auto.
    + left. unfold stops. simpl. lia.
    + match goal with |- context [schedule_bears ?l ?s] =>
        destruct (schedule_bears_trace l s) as (rest & Htr & F & _) end.
      simpl in Htr.
      case_decide; simpl; rewrite Htr, !stops_app, stops_results,
        (stops_scheduling rest F); unfold stops; simpl.
      * right. split; [done|lia].
      * left. lia.
  - destruct (finish_task_trace b t res st) as (rest & Htr & F).
    exists ((ResultCallback <$> produced res) ++ rest). split; [done|].
    apply Forall_app. split.
    + apply Forall_fmap, Forall_true. done.
    + eapply Forall_impl; [exact F|].
      intros e [He|[->| ->]]; [by destruct e|done..].
Qed.

Lemma schedule_bears_enters l (st : State) x :
  x ∈ l → ¬ in_dependency_dict x st →
  is_Some (running_tasks (schedule_bears l st) !! x).
Proof.
  revert st. induction l as [|b l IH]; intros st Hin Hfree.
  - by apply elem_of_nil in Hin.
  - unfold schedule_bears in *. cbn [foldl].
    apply elem_of_cons in Hin as [->|Hin].
    + apply (schedule_bears_running l).
      destruct (schedule_bear_submits st b Hfree) as (-> & _).
      rewrite lookup_insert_eq. eauto.
    + apply IH; [done|]. unfold in_dependency_dict.
      by rewrite (proj1 (schedule_bear_frame st b)).
Qed.

(** X7: when the last task of a bear completes and
    [dependency_tracker.resolve] returns, the handler returns normally: the
    bear was resolved once, its entry in [running_tasks] is deleted, the
    tracker is as [resolve] left it, and every bear that [resolve] returned,
    other than the bear itself, has an entry in [running_tasks] unless the
    tracker still holds it back. *)
Theorem finish_task_last_task_of_bear b t rs ready dt (st : State) :
  running_tasks st !! b = Some {[t]} →
  DependencyTracker.resolve b (dependency_tracker st) = inr (ready, dt) →
  let st' := (finish_task b t (Produced rs) st).2 in
  (finish_task b t (Produced rs) st).1 = inr tt ∧
  running_tasks st' !! b = None ∧
  dependency_tracker st' = dt ∧
  resolutions (trace st') = resolutions (trace st) ++ [b] ∧
  ∀ x, x ∈ ready → x ≠ b →
       x ∉ dom (DependencyTracker.dependency_dict dt) →
       is_Some (running_tasks st' !! x).
Proof.
  intros Hb Hr st'. subst st'.
  assert (t ∈ ({[t]} : gset task)) as Ht by set_solver.
  assert (({[t]} : gset task) ∖ {[t]} = ∅) as Hlast by set_solver.
  rewrite (finish_task_last b t rs {[t]} ready dt st Hb Ht Hlast Hr). cbv zeta.
  match goal with |- context [schedule_bears ready ?s] => set (st2 := s) end.
  destruct (schedule_bears_trace ready st2) as (rest & Htr & F & _).
  destruct (schedule_bears_frame ready st2) as [Hdt _].
  assert (resolutions (trace (schedule_bears ready st2))
          = resolutions (trace st) ++ [b]) as Hres.
  { rewrite Htr. subst st2. simpl.
    rewrite !resolutions_app, resolutions_results,
      (resolutions_scheduling rest F). simpl. by rewrite !app_nil_r. }
  assert (∀ x, x ∈ ready → x ≠ b →
               x ∉ dom (DependencyTracker.dependency_dict dt) →
               is_Some (delete b (running_tasks (schedule_bears ready st2)) !! x))
    as Hready.
  { intros x Hx Hne Hfree. rewrite lookup_delete_ne by done.
    by apply schedule_bears_enters. }
  case_decide; simpl.
  - rewrite lookup_delete_eq, Hdt, resolutions_app, Hres. simpl.
    by rewrite app_nil_r.
  - by rewrite lookup_delete_eq, Hdt, Hres.
Qed.

End FinishTaskMore.

(** The witness of X4: handle [9] is not a task of bear [1], and bear [5] has
    no entry at all. *)
Lemma finish_task_unregistered_raises_witness :
  (finish_task (B := Samples.diamond) 1 9 (Produced ["r"]) Samples.two_in_flight).1
  = inl KeyError ∧
  (finish_task (B := Samples.diamond) 5 2 (Produced ["r"]) Samples.two_in_flight).1
  = inl KeyError.
Proof.
  split.
  - rewrite (finish_task_unregistered_raises (B := Samples.diamond) 1 9 ["r"]
               Samples.two_in_flight); [reflexivity|].
    right. exists {[2; 3]}. split; [reflexivity|]. vm_compute. intros H.
    discriminate.
  - rewrite (finish_task_unregistered_raises (B := Samples.diamond) 5 2 ["r"]
               Samples.two_in_flight); [reflexivity|].
    left. reflexivity.
Defined.

(** The witness of X5: a task of bear [1] completes while another one is in
    flight, so the loop is not stopped. *)
Lemma finish_task_stops_exactly_when_idle_witness :
  stops (trace (finish_task (B := Samples.diamond) 1 3 (Produced ["r"])
                  Samples.two_in_flight).2) = 0 ∧
  stopping (finish_task (B := Samples.diamond) 1 3 (Produced ["r"])
              Samples.two_in_flight).2 = false.
Proof.
  destruct (finish_task_stops_exactly_when_idle (B := Samples.diamond)
              1 3 (Produced ["r"]) Samples.two_in_flight
              (finish_task (B := Samples.diamond) 1 3 (Produced ["r"])
                 Samples.two_in_flight).2) as [H1 H2].
  - vm_compute. reflexivity.
  - split; [rewrite H1|rewrite H2]; vm_compute; reflexivity.
Defined.

(** The witness of X7: the only task of [A] completes in the diamond; [A] is
    resolved, its entry is gone, and [B] and [C] are running. *)
Lemma finish_task_last_task_of_bear_witness :
  running_tasks (finish_task (B := Samples.diamond) 0 0 (Produced ["r"])
                   Samples.started_diamond).2 !! 0 = None ∧
  resolutions (trace (finish_task (B := Samples.diamond) 0 0 (Produced ["r"])
                        Samples.started_diamond).2) = [0] ∧
  is_Some (running_tasks (finish_task (B := Samples.diamond) 0 0 (Produced ["r"])
                            Samples.started_diamond).2 !! 1) ∧
  is_Some (running_tasks (finish_task (B := Samples.diamond) 0 0 (Produced ["r"])
                            Samples.started_diamond).2 !! 2).
Proof.
  destruct (finish_task_last_task_of_bear (B := Samples.diamond) 0 0 ["r"]
              (elements (DependencyTracker.newly_ready 0
                 (DependencyTracker.dependency_dict
                    (dependency_tracker Samples.started_diamond))))
              {| DependencyTracker.dependency_dict :=
                   DependencyTracker.without 0
                     (DependencyTracker.dependency_dict
                        (dependency_tracker Samples.started_diamond));
                 DependencyTracker.registered :=
                   DependencyTracker.registered
                     (dependency_tracker Samples.started_diamond);
                 DependencyTracker.resolved :=
                   {[0]} ∪ DependencyTracker.resolved
                             (dependency_tracker Samples.started_diamond) |}
              Samples.started_diamond)
    as (_ & Hgone & _ & Hres & Hready).
  - vm_compute. reflexivity.
  - vm_compute. reflexivity.
  - split; [exact Hgone|]. split; [exact Hres|]. split.
    + apply Hready; [vm_compute; repeat constructor|discriminate|].
      apply not_elem_of_dom. vm_compute. reflexivity.
    + apply Hready; [vm_compute; repeat constructor|discriminate|].
      apply not_elem_of_dom. vm_compute. reflexivity.
Defined.

(** ** run *)

Section RunMore.
Context {Args Result : Type} `{B : Bears Args Result}.

Abbreviation State := (State Args Result).
Abbreviation event := (event Args Result).

Lemma scheduling_is_loop_event (e : event) : is_scheduling e → is_loop_event e.
Proof. by destruct e. Qed.

Lemma run_callback_loop_events b t res (st : State) :
  ∃ rest, trace (run_callback b t res st) = trace st ++ rest ∧
          Forall is_loop_event rest.
Proof.
  unfold run_callback.
  destruct (finish_task_trace b t res st) as (rest & Htr & F).
  assert (Forall is_loop_event ((ResultCallback <$> produced res) ++ rest)) as F'.
  { apply Forall_app. split.
    - apply Forall_fmap, Forall_true. done.
    - eapply Forall_impl; [exact F|].
      intros e [He|[->| ->]]; [by destruct e|done..]. }
  destruct (finish_task b t res st) as [[e|[]] st1]; simpl in *.
  - exists (((ResultCallback <$> produced res) ++ rest) ++ [CallbackException e]).
    rewrite Htr, <- !app_assoc. split; [done|].
    rewrite app_assoc. apply Forall_app. split; [done|]. by apply Forall_singleton.
  - eauto.
Qed.

(** The loop only adds what its done-callbacks do. *)
Lemma run_forever_loop_events completions (st : State) :
  ∃ rest, trace (run_forever completions st).2 = trace st ++ rest ∧
          Forall is_loop_event rest.
Proof.
  revert st. induction completions as [|t cs IH]; intros st; simpl.
  - exists []. rewrite app_nil_r. by case_decide.
  - destruct (callbacks st !! t) as [b|]; [|by apply IH].
    destruct (futures st !! t) as [[b' a]|]; [|by apply IH].
    destruct (run_callback_loop_events b t (analyze b' a) (take_callback t st))
      as (r1 & H1 & F1).
    destruct (stopping (run_callback _ _ _ _)); simpl.
    + exists r1. done.
    + destruct (IH (run_callback b t (analyze b' a) (take_callback t st)))
        as (r2 & H2 & F2).
      exists (r1 ++ r2). rewrite H2, H1, app_assoc. split; [done|].
      by apply Forall_app.
Qed.

(** X8: [run] creates the executor first and only once, with as many
    workers as [multiprocessing.cpu_count()] reports, or with one worker
    when the count is not available ([NotImplementedError]). *)
Theorem run_creates_one_executor cpu bears completions :
  ∃ rest, trace (run cpu bears completions).2
          = ExecutorCreate (default 1 cpu) :: rest ∧
    Forall (λ e, ∀ n, e ≠ ExecutorCreate n) rest.
Proof.
  unfold run.
  match goal with |- context [run_forever _ (schedule_bears _ ?s)] =>
    destruct (schedule_bears_trace bears s) as (r1 & H1 & F1 & _);
    destruct (run_forever_loop_events completions (schedule_bears bears s))
      as (r2 & H2 & F2)
  end.
  assert (get_cpu_count cpu = default 1 cpu) as Hn by by destruct cpu.
  assert (Forall (λ e : event, ∀ n, e ≠ ExecutorCreate n) (r1 ++ r2)) as F.
  { apply Forall_app. split.
    - eapply Forall_impl; [exact F1|]. intros e He n ->. done.
    - eapply Forall_impl; [exact F2|]. intros e He n ->. done. }
  destruct (run_forever completions _) as [[] st1]; simpl in *;
    rewrite H2, H1, Hn; simpl.
  - exists ((r1 ++ r2) ++ [LoopClose]). rewrite <- ?app_assoc. split; [done|].
    rewrite app_assoc. apply Forall_app. split; [done|].
    apply Forall_singleton. done.
  - exists (r1 ++ r2). by rewrite <- ?app_assoc.
  - exists (r1 ++ r2). by rewrite <- ?app_assoc.
Qed.


End RunMore.

(** ** What reaches the result sink in a session *)

Section SinkOfSession.
Context {Args Result : Type} `{B : Bears Args Result}.

Abbreviation State := (State Args Result).
Abbreviation event := (event Args Result).

(** [st'] comes after [st]: it has the handles of [st], standing for the same
    work, and fresh ones. *)
Abbreviation grows st st' :=
  (handles_fresh st' ∧ next_task st ≤ next_task st' ∧
   ∀ t, t < next_task st → futures st' !! t = futures st !! t).

Lemma submit_all_grows b args (st : State) :
  handles_fresh st → handles_fresh (submit_all b args st).2.
Proof.
  revert st. induction args as [|a args IH]; intros st Hf; [done|].
  simpl. specialize (IH (run_in_executor b a st).2).
  destruct (submit_all b args _) as [ts st2] eqn:E. simpl in *.
  apply IH. intros t. simpl. destruct (decide (next_task st = t)) as [<-|Hne].
  - lia.
  - rewrite lookup_insert_ne by done. intros Ht. apply Hf in Ht. lia.
Qed.

Lemma schedule_bear_grows (st : State) b :
  handles_fresh st → grows st (schedule_bear st b).
Proof.
  intros Hf. unfold schedule_bear. case_decide; simpl; [done|].
  pose proof (submit_all_grows b (generate_tasks b) st Hf) as Hf'.
  pose proof (submit_all_next_task b (generate_tasks b) st) as Hnx.
  pose proof (submit_all_futures_old b (generate_tasks b) st) as Hold.
  destruct (submit_all b (generate_tasks b) st) as [ts st1]. simpl in *.
  split; [done|]. split; [lia|done].
Qed.

Lemma schedule_bears_grows l (st : State) :
  handles_fresh st → grows st (schedule_bears l st).
Proof.
  revert st. induction l as [|b l IH]; intros st Hf; [done|].
  unfold schedule_bears in *. cbn [foldl].
  destruct (schedule_bear_grows st b Hf) as (Hf1 & Hn1 & Ho1).
  destruct (IH _ Hf1) as (Hf2 & Hn2 & Ho2).
  split; [done|]. split; [lia|]. intros t Ht. rewrite Ho2 by lia. by apply Ho1.
Qed.

Lemma run_callback_grows b t res (st : State) :
  handles_fresh st → grows st (run_callback b t res st).
Proof.
  intros Hf. unfold run_callback. finish_task_paths b t res st; simpl; try done.
  match goal with |- context [schedule_bears ?l ?s] =>
    pose proof (schedule_bears_grows l s Hf) as Hg end.
  case_decide; exact Hg.
Qed.

Lemma run_callback_sink b t res (st : State) :
  sink (trace (run_callback b t res st)) = sink (trace st) ++ produced res.
Proof.
  unfold run_callback.
  destruct (finish_task_trace b t res st) as (rest & Htr & F).
  assert (sink rest = []) as Hrest.
  { apply sink_no_result. eapply Forall_impl; [exact F|].
    intros e [He|[->| ->]]; [destruct e|..]; simpl in *; tauto. }
  destruct (finish_task b t res st) as [[e|[]] st1]; simpl in *;
    rewrite Htr, ?sink_app, sink_results, Hrest; simpl;
    by rewrite ?app_nil_r.
Qed.

Lemma run_forever_sink completions (st : State) :
  handles_fresh st →
  grows st (run_forever completions st).2 ∧
  sublist (callbacks_run completions st) completions ∧
  sink (trace (run_forever completions st).2)
  = sink (trace st)
    ++ flat_map (results_of (run_forever completions st).2)
         (callbacks_run completions st).
Proof.
  revert st. induction completions as [|t cs IH]; intros st Hf; simpl.
  - assert ((if decide (callbacks st = ∅) then (Hung, st) else (Waiting, st)).2
            = st) as -> by by case_decide.
    split; [done|]. split; [constructor|]. by rewrite app_nil_r.
  - destruct (callbacks st !! t) as [b|] eqn:Hcb.
    2:{ destruct (IH st Hf) as (Hg & Hsub & Hsink).
        split; [done|]. split; [by constructor|done]. }
    destruct (futures st !! t) as [[b' a]|] eqn:Hfut.
    2:{ destruct (IH st Hf) as (Hg & Hsub & Hsink).
        split; [done|]. split; [by constructor|done]. }
    assert (t < next_task st) as Hlt by (apply Hf; eauto).
    pose proof (run_callback_grows b t (analyze b' a) (take_callback t st) Hf)
      as (Hf2 & Hn2 & Ho2).
    pose proof (run_callback_sink b t (analyze b' a) (take_callback t st)) as Hs2.
    simpl in Hn2, Ho2, Hs2.
    destruct (stopping (run_callback _ _ _ _)); simpl.
    + split; [done|]. split; [apply sublist_skip, sublist_nil_l|].
      rewrite Hs2. simpl. rewrite app_nil_r. f_equal.
      unfold results_of. by rewrite Ho2, Hfut.
    + destruct (IH _ Hf2) as ((Hf3 & Hn3 & Ho3) & Hsub & Hsink).
      split.
      * split; [done|]. split; [lia|]. intros t' Ht'.
        rewrite Ho3 by lia. by apply Ho2.
      * split; [by constructor|].
        rewrite Hsink, Hs2, <- app_assoc. f_equal. simpl. f_equal.
        unfold results_of. by rewrite Ho3, Ho2, Hfut by lia.
Qed.

(** The work behind a handle went to the pool under that handle. *)
Lemma submit_all_futures_submitted b args (st : State) :
  futures_submitted st → futures_submitted (submit_all b args st).2.
Proof.
  revert st. induction args as [|a args IH]; intros st Hs; [done|].
  simpl. specialize (IH (run_in_executor b a st).2).
  destruct (submit_all b args _) as [ts st2] eqn:E. simpl in *.
  apply IH. intros t b' a'. simpl.
  destruct (decide (next_task st = t)) as [<-|Hne].
  - rewrite lookup_insert_eq. intros [= <- <-]. apply elem_of_app. right. left.
  - rewrite lookup_insert_ne by done. intros Ht. apply elem_of_app. left.
    by apply Hs.
Qed.

Lemma schedule_bear_futures_submitted (st : State) b :
  futures_submitted st → futures_submitted (schedule_bear st b).
Proof.
  intros Hs. unfold schedule_bear. case_decide.
  - intros t b' a' Ht. simpl. apply elem_of_app. left. by apply Hs.
  - pose proof (submit_all_futures_submitted b (generate_tasks b) st Hs) as Hs'.
    destruct (submit_all b (generate_tasks b) st) as [ts st1]. simpl in *.
    intros t b' a' Ht. simpl. apply elem_of_app. left. by apply Hs'.
Qed.

Lemma schedule_bears_futures_submitted l (st : State) :
  futures_submitted st → futures_submitted (schedule_bears l st).
Proof.
  revert st. induction l as [|b l IH]; intros st Hs; [done|].
  unfold schedule_bears in *. cbn [foldl].
  by apply IH, schedule_bear_futures_submitted.
Qed.

Lemma futures_submitted_same (st st' : State) rest :
  futures st' = futures st → trace st' = trace st ++ rest →
  futures_submitted st → futures_submitted st'.
Proof.
  intros Hf Ht Hs t b a. rewrite Hf, Ht. intros Hfut.
  apply elem_of_app. left. by apply Hs.
Qed.

Lemma run_callback_futures_submitted b t res (st : State) :
  futures_submitted st → futures_submitted (run_callback b t res st).
Proof.
  intros Hs. unfold run_callback.
  finish_task_paths b t res st; cbv beta iota zeta.
  - eapply (futures_submitted_same st); [reflexivity| |exact Hs].
    simpl. rewrite <- !app_assoc. reflexivity.
  - match goal with |- context [schedule_bears ready ?s] => set (st2 := s) end.
    assert (futures_submitted (schedule_bears ready st2)) as Hs3.
    { apply schedule_bears_futures_submitted.
      eapply (futures_submitted_same st); [reflexivity| |exact Hs].
      subst st2. simpl. rewrite <- !app_assoc. reflexivity. }
    case_decide.
    + eapply (futures_submitted_same (schedule_bears ready st2));
        [reflexivity| |exact Hs3]. simpl. reflexivity.
    + eapply (futures_submitted_same (schedule_bears ready st2) _ []);
        [reflexivity| |exact Hs3]. simpl. by rewrite app_nil_r.
  - eapply (futures_submitted_same st); [reflexivity| |exact Hs].
    simpl. reflexivity.
  - eapply (futures_submitted_same st); [reflexivity| |exact Hs].
    simpl. rewrite <- !app_assoc. reflexivity.
  - eapply (futures_submitted_same st); [reflexivity| |exact Hs].
    simpl. rewrite <- !app_assoc. reflexivity.
  - eapply (futures_submitted_same st); [reflexivity| |exact Hs].
    simpl. reflexivity.
Qed.

(** A done-callback that ran belongs to a handle with work behind it. *)
Lemma callbacks_run_futures completions (st : State) t :
  handles_fresh st → t ∈ callbacks_run completions st →
  is_Some (futures (run_forever completions st).2 !! t).
Proof.
  revert st. induction completions as [|t0 cs IH]; intros st Hf; simpl.
  - intros Hin. by apply elem_of_nil in Hin.
  - destruct (callbacks st !! t0) as [b|] eqn:Hcb; [|by apply IH].
    destruct (futures st !! t0) as [[b' a]|] eqn:Hfut; [|by apply IH].
    assert (t0 < next_task st) as Hlt by (apply Hf; eauto).
    pose proof (run_callback_grows b t0 (analyze b' a) (take_callback t0 st) Hf)
      as (Hf2 & Hn2 & Ho2).
    simpl in Hn2, Ho2.
    destruct (stopping (run_callback _ _ _ _)); simpl.
    + intros Hin. apply list_elem_of_singleton in Hin as ->.
      rewrite Ho2 by done. eauto.
    + intros Hin. apply elem_of_cons in Hin as [->|Hin]; [|by apply IH].
      destruct (run_forever_sink cs _ Hf2) as ((_ & _ & Ho3) & _).
      rewrite Ho3, Ho2 by lia. eauto.
Qed.


End SinkOfSession.
(** ** Who gets resolved *)

Section Resolution.
Context {Args Result : Type} `{B : Bears Args Result}.

Abbreviation State := (State Args Result).
Abbreviation event := (event Args Result).

(** X11: a bear whose [generate_tasks()] is empty is never handed to
    [dependency_tracker.resolve], in no session: it gets no done-callback,
    and [finish_task] is the only caller of [resolve].  So no bear of the
    input that declares it as a dependency ever has a task handed to the
    pool. *)
Theorem bear_without_tasks_blocks_dependants cpu bears completions idle :
  generate_tasks idle = [] →
  (Resolve idle ∉ trace (run cpu bears completions).2) ∧
  ∀ b t (a : Args), idle ∈ dependencies b → idle ∈ bears →
    RunInExecutor b t a ∉ trace (run cpu bears completions).2.
Proof.
  intros Hidle. split.
  - exact (bear_without_tasks_is_never_resolved idle Hidle cpu bears completions).
  - intros b t a Hdep Hin.
    exact (dependants_of_idle_bear_never_run idle Hidle cpu bears completions
             b t a Hdep Hin).
Qed.

(** Every handle that [submit_all] returns was handed to the pool. *)
Lemma submit_all_run_events b args (st : State) t :
  t ∈ (submit_all b args st).1 →
  ∃ a, RunInExecutor b t a ∈ trace (submit_all b args st).2.
Proof.
  rewrite submit_all_handles, submit_all_trace. intros Ht.
  destruct (lookup_lt_is_Some_2 args (t - next_task st)) as [a Ha]; [lia|].
  exists a. apply elem_of_app. right.
  apply elem_of_lookup_imap. exists (t - next_task st), a.
  split; [|done]. f_equal. lia.
Qed.

(** Every done-callback belongs to a task that was handed to the pool for
    the bear of the callback. *)
Abbreviation callbacks_submitted st :=
  (∀ t b, callbacks st !! t = Some b → ∃ a, RunInExecutor b t a ∈ trace st).

Lemma schedule_bear_callbacks_submitted (st : State) x :
  callbacks_submitted st → callbacks_submitted (schedule_bear st x).
Proof.
  intros Hcs t b.
  destruct (decide (in_dependency_dict x st)) as [Hheld|Hfree].
  - rewrite schedule_bear_held_back by done. simpl. intros Ht.
    destruct (Hcs t b Ht) as [a Ha]. exists a. apply elem_of_app. by left.
  - destruct (schedule_bear_submits st x Hfree) as (_ & _ & Hcb & _).
    rewrite Hcb. unfold schedule_bear.
    rewrite (decide_False (P := in_dependency_dict x st)) by done.
    pose proof (submit_all_run_events x (generate_tasks x) st t) as Hrun.
    pose proof (submit_all_trace x (generate_tasks x) st) as Htr.
    destruct (submit_all x (generate_tasks x) st) as [ts st1]. simpl in *.
    case_decide as Hin.
    + intros [= <-]. destruct (Hrun Hin) as [a Ha]. exists a.
      apply elem_of_app. by left.
    + intros Ht. destruct (Hcs t b Ht) as [a Ha]. exists a.
      rewrite Htr, <- app_assoc. apply elem_of_app. by left.
Qed.

Lemma schedule_bears_callbacks_submitted l (st : State) :
  callbacks_submitted st → callbacks_submitted (schedule_bears l st).
Proof.
  revert st. induction l as [|x l IH]; intros st Hcs; [done|].
  unfold schedule_bears in *. cbn [foldl].
  by apply IH, schedule_bear_callbacks_submitted.
Qed.

(** Every call of [resolve] comes after a task of the bear went to the
    pool. *)
Abbreviation resolved_after_submission tr :=
  (∀ pre b post, tr = pre ++ Resolve b :: post →
     ∃ t (a : Args), RunInExecutor (Result := Result) b t a ∈ pre).

Lemma resolved_after_submission_app (tr rest : list event) :
  resolved_after_submission tr →
  (∀ b, Resolve b ∈ rest → ∃ t a, RunInExecutor b t a ∈ tr) →
  resolved_after_submission (tr ++ rest).
Proof.
  intros Htr Hrest pre b post Heq.
  apply app_eq_app in Heq as [l [[-> Hl]|[-> Hl]]].
  - destruct l as [|e l].
    + rewrite app_nil_r in *. apply (Hrest b). simpl in Hl. rewrite <- Hl. left.
    + simpl in Hl. injection Hl as <- _. by eapply (Htr pre b).
  - destruct (Hrest b) as (t & a & Ha).
    + rewrite Hl. apply elem_of_app. right. left.
    + exists t, a. apply elem_of_app. by left.
Qed.

Lemma callbacks_submitted_same (st st' : State) rest :
  callbacks st' = callbacks st → trace st' = trace st ++ rest →
  callbacks_submitted st → callbacks_submitted st'.
Proof.
  intros Hc Ht Hcs t b. rewrite Hc, Ht. intros Hcb.
  destruct (Hcs t b Hcb) as [a Ha]. exists a. apply elem_of_app. by left.
Qed.

Lemma run_callback_callbacks_submitted b t res (st : State) :
  callbacks_submitted st → callbacks_submitted (run_callback b t res st).
Proof.
  intros Hcs. unfold run_callback.
  finish_task_paths b t res st; cbv beta iota zeta.
  - eapply (callbacks_submitted_same st); [reflexivity| |exact Hcs].
    simpl. rewrite <- !app_assoc. reflexivity.
  - match goal with |- context [schedule_bears ready ?s] => set (st2 := s) end.
    assert (callbacks_submitted (schedule_bears ready st2)) as Hcs3.
    { apply schedule_bears_callbacks_submitted.
      eapply (callbacks_submitted_same st); [reflexivity| |exact Hcs].
      subst st2. simpl. rewrite <- !app_assoc. reflexivity. }
    case_decide.
    + eapply (callbacks_submitted_same (schedule_bears ready st2));
        [reflexivity| |exact Hcs3]. simpl. reflexivity.
    + eapply (callbacks_submitted_same (schedule_bears ready st2) _ []);
        [reflexivity| |exact Hcs3]. simpl. by rewrite app_nil_r.
  - eapply (callbacks_submitted_same st); [reflexivity| |exact Hcs].
    simpl. reflexivity.
  - eapply (callbacks_submitted_same st); [reflexivity| |exact Hcs].
    simpl. rewrite <- !app_assoc. reflexivity.
  - eapply (callbacks_submitted_same st); [reflexivity| |exact Hcs].
    simpl. rewrite <- !app_assoc. reflexivity.
  - eapply (callbacks_submitted_same st); [reflexivity| |exact Hcs].
    simpl. reflexivity.
Qed.

Lemma run_callback_resolved_after_submission b t res (st : State) :
  (∃ a, RunInExecutor b t a ∈ trace st) →
  resolved_after_submission (trace st) →
  resolved_after_submission (trace (run_callback b t res st)).
Proof.
  intros [a Ha] Hres. unfold run_callback.
  destruct (finish_task_trace b t res st) as (rest' & Htr' & F).
  assert (resolved_after_submission (trace (finish_task b t res st).2)) as Hr'.
  { rewrite Htr'. apply resolved_after_submission_app; [done|].
    intros b' Hel. apply elem_of_app in Hel as [Hel|Hel].
    - apply list_elem_of_fmap in Hel as (? & ? & _). done.
    - rewrite Forall_forall in F. apply F in Hel as [?|[Heq|?]]; [done| |done].
      injection Heq as ->. eauto. }
  destruct (finish_task b t res st) as [[e|[]] st1]; simpl in *; [|done].
  apply resolved_after_submission_app; [done|].
  intros b' Hel. by apply list_elem_of_singleton in Hel.
Qed.

(** X12: in every session, [dependency_tracker.resolve(bear)] is only called
    for a bear that had a task handed to the pool before: a bear is resolved
    from the done-callback of one of its own tasks and in no other way. *)
Theorem resolve_follows_a_submission cpu bears completions pre b post :
  trace (run cpu bears completions).2 = pre ++ Resolve b :: post →
  ∃ t (a : Args), RunInExecutor b t a ∈ pre.
Proof.
  revert pre b post.
  change (resolved_after_submission (trace (run cpu bears completions).2)).
  unfold run.
  match goal with |- context [run_forever _ ?s] => set (st0 := s) end.
  assert (callbacks_submitted (run_forever completions st0).2 ∧
          resolved_after_submission (trace (run_forever completions st0).2))
    as [_ Hres].
  { apply (run_forever_invariant
             (λ st, callbacks_submitted st ∧ resolved_after_submission (trace st))).
    - intros st t b res [Hcs Hres] Hcb.
      assert (callbacks_submitted (take_callback t st)) as Hcs'.
      { intros t' b'. simpl. intros Ht'.
        apply lookup_delete_Some in Ht' as [_ Ht']. by apply Hcs. }
      split.
      + by apply run_callback_callbacks_submitted.
      + apply run_callback_resolved_after_submission; [|done].
        simpl. by apply Hcs.
    - subst st0. split.
      + apply schedule_bears_callbacks_submitted. intros t b. simpl.
        by rewrite lookup_empty.
      + match goal with |- context [schedule_bears _ ?s] =>
          destruct (schedule_bears_trace bears s) as (rest & -> & F & _) end.
        simpl. intros pre b post Heq.
        assert (Resolve b ∈ ExecutorCreate (Args := Args) (Result := Result)
                              (get_cpu_count cpu) :: rest) as Hel
          by (rewrite Heq; apply elem_of_app; right; left).
        apply elem_of_cons in Hel as [?|Hel]; [done|].
        rewrite Forall_forall in F. by apply F in Hel. }
  destruct (run_forever completions st0) as [[] st1]; simpl in *; try done.
  apply resolved_after_submission_app; [done|].
  intros b Hel. by apply list_elem_of_singleton in Hel.
Qed.

End Resolution.

(** The witness of X11: bear [A] of the sample has no tasks. *)
Lemma bear_without_tasks_blocks_dependants_witness :
  (Resolve 0 ∉ trace (run (B := Samples.zero_task) None [0; 1] [0; 1]).2) ∧
  (RunInExecutor 1 0 7
   ∉ trace (run (B := Samples.zero_task) None [0; 1] [0; 1]).2).
Proof.
  destruct (bear_without_tasks_blocks_dependants (B := Samples.zero_task)
              None [0; 1] [0; 1] 0) as [H1 H2]; [reflexivity|].
  split; [exact H1|]. apply H2.
  - simpl. left.
  - left.
Defined.

(** The witness of X12: in the diamond, [A] is resolved after its task was
    handed to the pool. *)
Lemma resolve_follows_a_submission_witness :
  ∃ t a, RunInExecutor (Result := string) 0 t a
         ∈ [ExecutorCreate 1; RunInExecutor 0 0 10;
            Log DEBUG "Scheduled 'A' (tasks: 1).";
            Log DEBUG "Dependencies for 'B' not yet resolved. Holding back.";
            Log DEBUG "Dependencies for 'C' not yet resolved. Holding back.";
            Log DEBUG "Dependencies for 'D' not yet resolved. Holding back.";
            ResultCallback "r10"; ResultCallback "s10"].
Proof.
  eapply (resolve_follows_a_submission (B := Samples.diamond)
            None [0; 1; 2; 3] [0] _ 0).
  vm_compute. reflexivity.
Defined.

(** ** A task that raises *)

(** The loop keeps a property of the state that every done-callback keeps
    when it is run with what the task behind its handle does. *)
Lemma run_forever_invariant_of_work {Args Result : Type} `{B : Bears Args Result}
    (P : State Args Result → Prop) completions (st : State Args Result) :
  (∀ st t x b' a', P st → callbacks st !! t = Some x →
                   futures st !! t = Some (b', a') →
                   P (run_callback x t (analyze b' a') (take_callback t st))) →
  P st → P (run_forever completions st).2.
Proof.
  intros Hstep. revert st. induction completions as [|t cs IH]; intros st HP.
  - simpl. by case_decide.
  - simpl. destruct (callbacks st !! t) as [x|] eqn:Hcb; [|by apply IH].
    destruct (futures st !! t) as [[b' a']|] eqn:Hfut; [|by apply IH].
    pose proof (Hstep st t x b' a' HP Hcb Hfut) as HP'.
    destruct (stopping _); [done|]. by apply IH.
Qed.

Section Faulting.
Context {Args Result : Type} `{B : Bears Args Result}.

Abbreviation State := (State Args Result).
Abbreviation event := (event Args Result).

Lemma submit_all_has_work x args (st : State) a0 :
  a0 ∈ args →
  ∃ t, t ∈ (submit_all x args st).1 ∧
       futures (submit_all x args st).2 !! t = Some (x, a0).
Proof.
  revert st. induction args as [|a1 args IH]; intros st Hin.
  - by apply elem_of_nil in Hin.
  - simpl.
    pose proof (submit_all_futures_old x args (run_in_executor x a1 st).2
                  (next_task st)) as Hold.
    specialize (IH (run_in_executor x a1 st).2).
    destruct (submit_all x args _) as [ts st2] eqn:E. simpl in *.
    apply elem_of_cons in Hin as [->|Hin].
    + exists (next_task st). split; [set_solver|].
      rewrite Hold by lia. apply lookup_insert_eq.
    + destruct (IH Hin) as (t & Ht & Hf). exists t. split; [set_solver|done].
Qed.

Lemma schedule_bear_has_work (st : State) x a0 :
  ¬ in_dependency_dict x st → a0 ∈ generate_tasks x →
  ∃ ts t, running_tasks (schedule_bear st x) !! x = Some ts ∧ t ∈ ts ∧
          futures (schedule_bear st x) !! t = Some (x, a0).
Proof.
  intros Hfree Hin. unfold schedule_bear.
  rewrite (decide_False (P := in_dependency_dict x st)) by done.
  destruct (submit_all_has_work x (generate_tasks x) st a0 Hin) as (t & Ht & Hf).
  destruct (submit_all x (generate_tasks x) st) as [ts st1]. simpl in *.
  exists ts, t. by rewrite lookup_insert_eq.
Qed.

(** One of the tasks that bear [b] generates raises. *)
Variable b : bear.
Variable a : Args.
Hypothesis generated : a ∈ generate_tasks b.

Abbreviation submitted tr :=
  (∃ t (a' : Args), RunInExecutor (Result := Result) b t a' ∈ tr).

(** The raising task of [b] is in flight. *)
Abbreviation stuck st :=
  (∃ ts t, running_tasks st !! b = Some ts ∧ t ∈ ts ∧
           futures st !! t = Some (b, a)).

(** States that differ in nothing that matters to the raising task. *)
Lemma stuck_same (st st' : State) rest :
  (submitted (trace st) → stuck st) →
  running_tasks st' !! b = running_tasks st !! b →
  futures st' = futures st →
  trace st' = trace st ++ rest →
  (∀ t a', RunInExecutor b t a' ∉ rest) →
  submitted (trace st') → stuck st'.
Proof.
  intros Hst Hrt Hfut Htr Hq (t & a' & Hel). rewrite Htr in Hel.
  apply elem_of_app in Hel as [Hel|Hel]; [|by apply Hq in Hel].
  destruct Hst as (ts & t0 & ? & ? & ?); [eauto|].
  exists ts, t0. by rewrite Hrt, Hfut.
Qed.

Lemma schedule_bear_stuck (st : State) x :
  handles_fresh st → (submitted (trace st) → stuck st) →
  submitted (trace (schedule_bear st x)) → stuck (schedule_bear st x).
Proof using generated.
  intros Hf Hst.
  destruct (decide (in_dependency_dict x st)) as [Hheld|Hfree].
  { rewrite schedule_bear_held_back by done.
    apply (stuck_same st _ [Log DEBUG (holding_back_message x)]);
      [done|reflexivity|reflexivity|reflexivity|].
    intros t a' Hel. by apply list_elem_of_singleton in Hel. }
  destruct (decide (x = b)) as [->|Hne].
  { intros _. by apply schedule_bear_has_work. }
  destruct (schedule_bear_grows st x Hf) as (_ & _ & Hold).
  destruct (schedule_bear_trace st x) as (rest & Htr & _ & Hsub).
  destruct (schedule_bear_submits st x Hfree) as (Hrt & _).
  intros (t & a' & Hel). rewrite Htr in Hel.
  apply elem_of_app in Hel as [Hel|Hel].
  2:{ apply Hsub in Hel as [-> _]. done. }
  destruct Hst as (ts & t0 & Hb & Ht0 & Hfut); [eauto|].
  exists ts, t0. split; [|split; [done|]].
  - rewrite Hrt. by rewrite lookup_insert_ne.
  - rewrite Hold; [done|]. apply Hf. eauto.
Qed.

Lemma schedule_bears_stuck l (st : State) :
  handles_fresh st → (submitted (trace st) → stuck st) →
  submitted (trace (schedule_bears l st)) → stuck (schedule_bears l st).
Proof using generated.
  revert st. induction l as [|x l IH]; intros st Hf Hst; [done|].
  unfold schedule_bears in *. cbn [foldl]. apply IH.
  - by apply schedule_bear_grows.
  - by apply schedule_bear_stuck.
Qed.

(** Events that one call of the handler does not emit. *)
Ltac not_in_rest :=
  let Hel := fresh "Hel" in
  intros Hel;
  repeat (apply elem_of_app in Hel as [Hel|Hel]);
  try done;
  try (apply list_elem_of_fmap in Hel as (? & ? & _); done);
  try (apply list_elem_of_singleton in Hel; congruence).

(** One done-callback: the raising task stays in flight, and its bear is not
    resolved. *)
Lemma run_callback_stuck x t res (st : State) :
  handles_fresh st →
  (submitted (trace st) → stuck st) →
  Resolve b ∉ trace st →
  (x = b → submitted (trace st)) →
  (∀ rs, res = Produced rs → futures st !! t ≠ Some (b, a)) →
  (submitted (trace (run_callback x t res st)) → stuck (run_callback x t res st)) ∧
  Resolve b ∉ trace (run_callback x t res st).
Proof using generated.
  intros Hf Hst Hnot Hsub Hlink.
  assert (∀ rs, res = Produced rs → x = b →
            ∃ ts0 t0, running_tasks st !! b = Some ts0 ∧ t0 ∈ ts0 ∧ t0 ≠ t ∧
                      futures st !! t0 = Some (b, a)) as Hother.
  { intros rs Hres ->.
    destruct Hst as (ts0 & t0 & Hb & Ht0 & Hf0); [by apply Hsub|].
    exists ts0, t0. split; [done|]. split; [done|]. split; [|done].
    intros ->. by apply (Hlink rs). }
  unfold run_callback.
  finish_task_paths x t res st; cbv beta iota zeta.
  - assert (x ≠ b) as Hxb.
    { intros ->.
      destruct (Hother rs eq_refl eq_refl) as (ts0 & t0 & Hb0 & Ht0 & Hne & _).
      assert (ts0 = ts) as -> by congruence.
      assert (t0 ∈ ts ∖ {[t]}) as Hin by set_solver.
      rewrite He in Hin. by apply elem_of_empty in Hin. }
    split.
    + apply (stuck_same st _ ((ResultCallback <$> rs) ++ [Resolve x]
                               ++ [CallbackException e]));
        [done|simpl; by rewrite lookup_insert_ne|reflexivity
        |simpl; by rewrite <- !app_assoc|intros ??; not_in_rest].
    + simpl. not_in_rest.
  - assert (x ≠ b) as Hxb.
    { intros ->.
      destruct (Hother rs eq_refl eq_refl) as (ts0 & t0 & Hb0 & Ht0 & Hne & _).
      assert (ts0 = ts) as -> by congruence.
      assert (t0 ∈ ts ∖ {[t]}) as Hin by set_solver.
      rewrite He in Hin. by apply elem_of_empty in Hin. }
    match goal with |- context [schedule_bears ready ?s] => set (st2 := s) end.
    assert (handles_fresh st2) as Hf2 by exact Hf.
    assert (submitted (trace st2) → stuck st2) as Hst2.
    { apply (stuck_same st _ ((ResultCallback <$> rs) ++ [Resolve x]));
        [done|subst st2; simpl; by rewrite lookup_insert_ne|reflexivity
        |subst st2; simpl; by rewrite <- !app_assoc|intros ??; not_in_rest]. }
    pose proof (schedule_bears_stuck ready st2 Hf2 Hst2) as Hst3.
    destruct (schedule_bears_trace ready st2) as (rest & Htr & F & _).
    assert (Resolve b ∉ trace (schedule_bears ready st2)) as Hnot3.
    { rewrite Htr. intros Hel. apply elem_of_app in Hel as [Hel|Hel].
      - revert Hel. subst st2. simpl. not_in_rest.
      - rewrite Forall_forall in F. by apply F in Hel. }
    case_decide.
    + split.
      * apply (stuck_same (schedule_bears ready st2) _ [LoopStop]);
          [done|simpl; by rewrite lookup_delete_ne|reflexivity|reflexivity
          |intros ??; not_in_rest].
      * simpl. not_in_rest.
    + split; [|exact Hnot3].
      apply (stuck_same (schedule_bears ready st2) _ []);
        [done|simpl; by rewrite lookup_delete_ne|reflexivity
        |simpl; by rewrite app_nil_r|intros ??; apply not_elem_of_nil].
  - split; [|simpl; not_in_rest].
    destruct (decide (x = b)) as [->|Hxb].
    + intros _.
      destruct (Hother rs eq_refl eq_refl) as (ts0 & t0 & Hb0 & Ht0 & Hne & Hf0).
      assert (ts0 = ts) as -> by congruence.
      exists (ts ∖ {[t]}), t0. simpl. rewrite lookup_insert_eq.
      split; [done|]. split; [set_solver|done].
    + apply (stuck_same st _ (ResultCallback <$> rs));
        [done|simpl; by rewrite lookup_insert_ne|reflexivity|reflexivity
        |intros ??; not_in_rest].
  - split; [|simpl; not_in_rest].
    apply (stuck_same st _ ((ResultCallback <$> rs)
                             ++ [CallbackException KeyError]));
      [done|reflexivity|reflexivity|simpl; by rewrite <- !app_assoc
      |intros ??; not_in_rest].
  - split; [|simpl; not_in_rest].
    apply (stuck_same st _ ((ResultCallback <$> rs)
                             ++ [CallbackException KeyError]));
      [done|reflexivity|reflexivity|simpl; by rewrite <- !app_assoc
      |intros ??; not_in_rest].
  - split; [|simpl; not_in_rest].
    apply (stuck_same st _ [CallbackException (TaskError msg)]);
      [done|reflexivity|reflexivity|reflexivity|intros ??; not_in_rest].
Qed.

Variable msg : string.
Hypothesis raises : analyze b a = Raises msg.

(** The state of the loop, in every session. *)
Lemma run_forever_stuck cpu bears completions :
  let st := (run_forever completions
               (schedule_bears bears
                  (initial (DependencyTracker.add_bear_dependencies
                              dependencies bears DependencyTracker.empty)
                           (get_cpu_count cpu)))).2 in
  (submitted (trace st) → stuck st) ∧ Resolve b ∉ trace st.
Proof using generated raises.
  intros st. subst st.
  match goal with |- context [schedule_bears bears ?s] => set (st0 := s) end.
  assert (handles_fresh st0) as Hf0.
  { intros t. subst st0. simpl. rewrite lookup_empty. by intros [? ?]. }
  pose (J := λ st : State,
          (∀ t x, callbacks st !! t = Some x →
                  ∃ a0, RunInExecutor x t a0 ∈ trace st) ∧
          handles_fresh st ∧
          (submitted (trace st) → stuck st) ∧ Resolve b ∉ trace st).
  assert (J (run_forever completions (schedule_bears bears st0)).2)
    as (_ & _ & Hst & Hnot); [|done].
  apply run_forever_invariant_of_work.
  - intros st t x b' a' (Hcs & Hf & Hst & Hnot) Hcb Hfut.
    assert (∀ t' x', callbacks (take_callback t st) !! t' = Some x' →
              ∃ a0, RunInExecutor x' t' a0 ∈ trace (take_callback t st))
      as Hcs'.
    { intros t' x'. simpl. intros Ht'.
      apply lookup_delete_Some in Ht' as [_ Ht']. by apply Hcs. }
    split; [by apply run_callback_callbacks_submitted|].
    split; [by apply run_callback_grows|].
    apply run_callback_stuck; [exact Hf|exact Hst|exact Hnot| |].
    + intros ->. destruct (Hcs t b Hcb) as [a0 Ha0]. simpl. eauto.
    + intros rs Hres Hfut'. simpl in Hfut'. rewrite Hfut in Hfut'.
      injection Hfut' as -> ->. congruence.
  - destruct (schedule_bears_trace bears st0) as (rest & Htr & F & _).
    split; [|split; [by apply schedule_bears_grows|split]].
    + apply schedule_bears_callbacks_submitted. intros t x. subst st0. simpl.
      by rewrite lookup_empty.
    + apply schedule_bears_stuck; [done|]. subst st0. simpl.
      intros (t & a' & Hel). by apply list_elem_of_singleton in Hel.
    + rewrite Htr. intros Hel. apply elem_of_app in Hel as [Hel|Hel].
      * subst st0. simpl in Hel. by apply list_elem_of_singleton in Hel.
      * rewrite Forall_forall in F. by apply F in Hel.
Qed.


End Faulting.


(** ** load_files: exceptions that are not caught, and the order of the keys *)

Module FilesMore.
Import Files.

Lemma dict_set_fresh k v d : k ∉ keys d → dict_set k v d = d ++ [(k, v)].
Proof.
  unfold keys. induction d as [|[k' v'] d IH]; intros Hk; [done|].
  simpl in *. rewrite decide_False.
  - rewrite IH; [done|]. intros Hin. apply Hk. by right.
  - intros ->. apply Hk. left.
Qed.

Section LoadFilesMore.
Variable read : string → read_outcome.

(** The loop over a list in two parts. *)
Lemma load_loop_app before rest d log :
  load_loop read (before ++ rest) d log
  = match load_loop read before d log with
    | (inr d', log') => load_loop read rest d' log'
    | (inl ex, log') => (inl ex, log')
    end.
Proof.
  revert d log. induction before as [|f fs IH]; intros d log; [done|].
  simpl. by destruct (read f).
Qed.

(** X14: [load_files] catches [UnicodeDecodeError] and [OSError] and nothing
    else.  At the first file whose read raises another exception,
    [load_files] ends with that exception: no dictionary is returned, the
    files after it are not read, the log holds the warnings of the files
    before it, and the record of the loaded files is not written. *)
Theorem load_files_stops_at_uncaught_error before filename after ex :
  only_caught read before → read filename = OtherError ex →
  load_files read (before ++ filename :: after)
  = (inl ex, flat_map (warning_for read) before).
Proof.
  intros Hok Hread. unfold load_files. rewrite load_loop_app.
  destruct (FilesFacts.load_loop_ok read before [] [] Hok) as (d & -> & _);
    [constructor|].
  simpl. by rewrite Hread.
Qed.

Lemma entries_cons f fs :
  entries read (f :: fs)
  = match read f with
    | Lines ls => (f, ls) :: entries read fs
    | _ => entries read fs
    end.
Proof. unfold entries. simpl. by destruct (read f). Qed.

Lemma load_loop_entries filenames d log :
  only_caught read filenames → NoDup filenames →
  (∀ f, f ∈ filenames → f ∉ keys d) →
  load_loop read filenames d log
  = (inr (d ++ entries read filenames),
     log ++ flat_map (warning_for read) filenames).
Proof.
  revert d log. induction filenames as [|f fs IH]; intros d log Hok Hnd Hfresh.
  - simpl. by rewrite !app_nil_r.
  - assert (only_caught read fs) as Hok'.
    { intros g Hg. apply Hok. by right. }
    apply NoDup_cons in Hnd as [Hf Hnd].
    assert (∀ g, g ∈ fs → g ∉ keys d) as Hfresh'.
    { intros g Hg. apply Hfresh. by right. }
    rewrite entries_cons. cbn [load_loop flat_map]. unfold warning_for at 1.
    destruct (read f) as [ls| |ex|ex] eqn:Hrf.
    + rewrite dict_set_fresh by (apply Hfresh; left).
      rewrite IH; [|done|done|].
      * simpl. rewrite <- app_assoc. reflexivity.
      * intros g Hg. unfold keys. rewrite fmap_app. simpl. intros Hin.
        apply elem_of_app in Hin as [Hin|Hin].
        -- by apply (Hfresh' g).
        -- apply list_elem_of_singleton in Hin as ->. done.
    + rewrite IH by done. simpl. by rewrite <- app_assoc.
    + rewrite IH by done. simpl. by rewrite <- app_assoc.
    + exfalso. eapply Hok; [left|exact Hrf].
Qed.

(** X15: for distinct file names whose reads raise nothing but the two
    caught exceptions, the dictionary that [load_files] returns holds the
    readable files in the order of the input, each with its lines, and the
    final debug record lists their names in that order. *)
Theorem load_files_keeps_the_order filenames :
  only_caught read filenames → NoDup filenames →
  load_files read filenames
  = (inr (entries read filenames),
     flat_map (warning_for read) filenames
       ++ [(DEBUG, loaded_message (entries read filenames))]).
Proof.
  intros Hok Hnd. unfold load_files.
  rewrite load_loop_entries; [done..|].
  intros f _ Hin. by apply elem_of_nil in Hin.
Qed.

End LoadFilesMore.

(** The witness of X14: the second name is rejected with a [ValueError]. *)
Lemma load_files_stops_at_uncaught_error_witness :
  load_files strict_read ["b.bin"; "nul"; "a.txt"]
  = (inl "ValueError: embedded null byte", [(WARNING, decode_warning "b.bin")]).
Proof.
  apply (load_files_stops_at_uncaught_error strict_read ["b.bin"] "nul" ["a.txt"]).
  - intros f Hf e. apply list_elem_of_singleton in Hf as ->. discriminate.
  - reflexivity.
Defined.

(** The witness of X15: the readable files come out in the order given. *)
Lemma load_files_keeps_the_order_witness :
  (load_files sample_read ["c.txt"; "b.bin"; "a.txt"]).1
  = inr [("c.txt", []); ("a.txt", ["one" +:+ newline; "two"])].
Proof.
  rewrite (load_files_keeps_the_order sample_read ["c.txt"; "b.bin"; "a.txt"]).
  - reflexivity.
  - intros f Hf e. unfold sample_read. repeat case_decide; discriminate.
  - repeat constructor; set_solver.
Defined.

End FilesMore.

(** ** A bear that is scheduled while it is running *)

Section Rescheduling.
Context {Args Result : Type} `{B : Bears Args Result}.

Abbreviation State := (State Args Result).

(** X16: [schedule_bears] assigns [running_tasks[bear]] anew.  When a bear
    that is not held back is scheduled, every task that was handed to the
    pool before is no longer among the tasks of that bear: if such a task
    completes with the done-callback of the bear, its results are delivered
    and [.remove(task)] raises [KeyError].  So a bear that occurs twice in
    the list loses the tasks of its first batch. *)
Theorem scheduling_again_orphans_the_tasks (st : State) b t rs :
  ¬ in_dependency_dict b st → t < next_task st →
  finish_task b t (Produced rs) (schedule_bears [b] st)
  = (inl KeyError, delivered rs (schedule_bears [b] st)).
Proof.
  intros Hfree Hlt. unfold schedule_bears. cbn [foldl].
  destruct (schedule_bear_submits st b Hfree) as (Hrt & _ & _ & Hts & _).
  cbv zeta in Hrt, Hts.
  apply (finish_task_unknown_task b t rs
           (submit_all b (generate_tasks b) st).1).
  - by rewrite Hrt, lookup_insert_eq.
  - rewrite Hts. lia.
Qed.

End Rescheduling.

(** The witness of X16: bear [B] of the diamond has the tasks [2] and [3] in
    flight and is scheduled again. *)
Lemma scheduling_again_orphans_the_tasks_witness :
  (finish_task (B := Samples.diamond) 1 2 (Produced ["r"])
     (schedule_bears (B := Samples.diamond) [1] Samples.two_in_flight)).1
  = inl KeyError.
Proof.
  rewrite (scheduling_again_orphans_the_tasks (B := Samples.diamond)
             Samples.two_in_flight 1 2 ["r"]).
  - reflexivity.
  - unfold in_dependency_dict. simpl. set_solver.
  - simpl. lia.
Defined.

(** ** Sessions that end *)

Section Completion.
Context {Args Result : Type} `{B : Bears Args Result}.
Variable bears : list bear.

(** Every bear of the input has work, no task that a bear of the input
    generates raises, the bears are distinct, and their dependencies within
    the input are acyclic: a dependency has a smaller rank. *)
Hypothesis work : ∀ b, b ∈ bears → generate_tasks b ≠ [].
Hypothesis no_fault : ∀ b a,
  b ∈ bears → a ∈ generate_tasks b → ∃ rs, analyze b a = Produced rs.
Hypothesis bears_nodup : NoDup bears.
Variable rank : bear → nat.
Hypothesis acyclic : ∀ b d,
  b ∈ bears → d ∈ dependencies b → d ∈ bears → rank d < rank b.


End Completion.

